(** * Vulkan device-memory sub-allocator

    A shallow embedding of
    [src/video_core/vulkan_common/vulkan_memory_allocator.cpp]:
    the chunk-size table, the per-block free-region search, the commit
    handle with its move operations, and the allocator with its
    flag-degradation policy.

    Conventions.  [u64] and [u32] values are integers of [Z]; every C++
    operation that can leave the range is followed by [wrap64] or
    [wrap32].  A [std::optional] is an [option]; an assertion failure, an
    [UNREACHABLE], a [.value()] on an empty optional and a driver
    exception are the [Err] results of the [result] monad.  A pointer to a
    [MemoryAllocation] is its index in the allocator's [allocations]
    vector; a [MemoryCommit] object lives at an address of an object
    store.  The host mappings ([Map]) and the overloads that bind a buffer
    or an image after the commit are left out: they do not touch the
    commit lists. *)

From stdpp Require Import base numbers list option gmap sorting.
From Stdlib Require Import ZArith Lia.

Local Open Scope Z_scope.

(** ** Machine integers *)

Definition wrap64 (x : Z) : Z := x mod 2 ^ 64.
Definition wrap32 (x : Z) : Z := x mod 2 ^ 32.

Definition is_u64 (x : Z) : Prop := 0 <= x < 2 ^ 64.
Definition is_u32 (x : Z) : Prop := 0 <= x < 2 ^ 32.

(** [std::has_single_bit] on an unsigned value. *)
Definition has_single_bit (x : Z) : bool :=
  (0 <? x) && (Z.land x (x - 1) =? 0).

(** [std::countr_zero] on a [u64]: the index of the lowest set bit, 64
    when there is none. *)
Fixpoint countr_zero_from (n : nat) (i : Z) (x : Z) : Z :=
  match n with
  | O => i
  | S n' => if Z.testbit x i then i else countr_zero_from n' (i + 1) x
  end.

Definition countr_zero (x : Z) : Z := countr_zero_from 64 0 x.

(** ** Failures *)

Inductive failure : Type :=
  | AssertionFailed     (* ASSERT / ASSERT_MSG *)
  | Unreachable         (* UNREACHABLE_MSG *)
  | BadOptionalAccess   (* std::optional::value() on an empty optional *)
  | DeviceFailure       (* the driver call threw *)
  | InvalidPointer      (* a pointer or address that designates nothing *)
  | OutOfFuel.          (* recursion bound of the embedding exhausted *)

Inductive result (A : Type) : Type :=
  | Ok (a : A)
  | Err (e : failure).
Arguments Ok {A} a.
Arguments Err {A} e.

#[global] Instance result_ret : MRet result := fun A a => Ok a.
#[global] Instance result_bind : MBind result := fun A B f m =>
  match m with
  | Ok a => f a
  | Err e => Err e
  end.

Definition is_Ok {A} (r : result A) : Prop := exists a, r = Ok a.

(** ** Alignment helpers *)

(** Modelled from the spec: [Common::AlignUp] of [common/alignment.h],
    which is not among the sources ("round it up to the next multiple of
    a fixed large granularity").  The value is a [u64]; the addition wraps
    as unsigned 64-bit arithmetic does. *)
Definition AlignUp (value size : Z) : Z :=
  let mod_ := value mod size in
  let value := value - mod_ in
  if mod_ =? 0 then value else wrap64 (value + size).

(** Modelled from the spec: [Common::AlignUpLog2] of [common/alignment.h],
    which is not among the sources ("the next alignment-aligned offset at
    or after" the value): add the mask, then clear the low bits by a shift
    right and a shift left.  Every step is a [u64] operation. *)
Definition AlignUpLog2 (value align_log2 : Z) : Z :=
  wrap64 (Z.shiftl
            (Z.shiftr (wrap64 (value + (wrap64 (Z.shiftl 1 align_log2) - 1)))
                      align_log2)
            align_log2).

(** ** Range *)

Record Range : Type := mkRange { r_begin : Z; r_end : Z }.

Definition Contains (r : Range) (iterator size : Z) : bool :=
  (iterator <? r_end r) && (r_begin r <? wrap64 (iterator + size)).

(** Two stored ranges overlap when each begins before the other ends. *)
Definition overlap (a b : Range) : Prop :=
  r_begin a < r_end b /\ r_begin b < r_end a.

(** No two entries of a commit list, at different positions, overlap. *)
Definition pairwise_disjoint (l : list Range) : Prop :=
  forall i j a b, i <> j -> l !! i = Some a -> l !! j = Some b -> ~ overlap a b.

(** ** Chunk sizing *)

Definition sizes : list Z :=
  [ Z.shiftl 0x1000 10;  Z.shiftl 0x1400 10;  Z.shiftl 0x1800 10;
    Z.shiftl 0x1c00 10;  Z.shiftl 0x2000 10;  Z.shiftl 0x3200 10;
    Z.shiftl 0x4000 10;  Z.shiftl 0x6000 10;  Z.shiftl 0x8000 10;
    Z.shiftl 0xA000 10;  Z.shiftl 0x10000 10; Z.shiftl 0x18000 10;
    Z.shiftl 0x20000 10 ].

(** [std::ranges::lower_bound] on a sorted array: the first element that
    is not less than [v]. *)
Fixpoint lower_bound (l : list Z) (v : Z) : option Z :=
  match l with
  | [] => None
  | x :: l' => if x <? v then lower_bound l' v else Some x
  end.

Definition AllocationChunkSize (required_size : Z) : Z :=
  match lower_bound sizes required_size with
  | Some it => it
  | None => AlignUp required_size (Z.shiftl 4 20)
  end.

(** ** Memory property flags and usages *)

Definition VK_MEMORY_PROPERTY_DEVICE_LOCAL_BIT : Z := 1.
Definition VK_MEMORY_PROPERTY_HOST_VISIBLE_BIT : Z := 2.
Definition VK_MEMORY_PROPERTY_HOST_COHERENT_BIT : Z := 4.
Definition VK_MEMORY_PROPERTY_HOST_CACHED_BIT : Z := 8.

Inductive MemoryUsage : Type := DeviceLocal | Upload | Download.

Definition MemoryUsagePropertyFlags (usage : MemoryUsage) : Z :=
  match usage with
  | DeviceLocal => VK_MEMORY_PROPERTY_DEVICE_LOCAL_BIT
  | Upload =>
      Z.lor VK_MEMORY_PROPERTY_HOST_VISIBLE_BIT VK_MEMORY_PROPERTY_HOST_COHERENT_BIT
  | Download =>
      Z.lor (Z.lor VK_MEMORY_PROPERTY_HOST_VISIBLE_BIT
                   VK_MEMORY_PROPERTY_HOST_COHERENT_BIT)
            VK_MEMORY_PROPERTY_HOST_CACHED_BIT
  end.

(** A C++ integer used as a condition. *)
Definition nonzero (x : Z) : bool := negb (x =? 0).

(** ** MemoryCommit: the handle *)

Record MemoryCommit : Type := mkMemoryCommit {
  mc_allocation : option nat;   (* MemoryAllocation*, [None] is nullptr *)
  mc_memory : Z;                (* VkDeviceMemory handle *)
  mc_interval : Z * Z;          (* (begin, end) *)
  mc_span : option (Z * Z)      (* mapped sub-view (offset, length); [None] is empty *)
}.

(** ** MemoryAllocation: one block *)

Module MemoryAllocation.

Record t : Type := mk {
  memory : Z;
  allocation_size : Z;
  property_flags : Z;
  shifted_memory_type : Z;
  commits : list Range
}.

Definition ShiftType (type : Z) : Z := wrap32 (Z.shiftl 1 type).

(** The constructor. *)
Definition new (memory_ properties allocation_size_ type : Z) : t :=
  {| memory := memory_;
     allocation_size := allocation_size_;
     property_flags := properties;
     shifted_memory_type := wrap32 (Z.shiftl 1 type);
     commits := [] |}.

Definition set_commits (a : t) (c : list Range) : t :=
  {| memory := memory a;
     allocation_size := allocation_size a;
     property_flags := property_flags a;
     shifted_memory_type := shifted_memory_type a;
     commits := c |}.

(** The [while] loop of [FindFreeRegion]; [commit] is the part of the
    vector from the iterator to [commits.end()]. *)
Fixpoint FindFreeRegion_loop (allocation_size size alignment_log2 : Z)
    (candidate : option Z) (iterator : Z) (commit : list Range) : option Z :=
  if wrap64 (iterator + size) <=? allocation_size then
    let c := default iterator candidate in
    match commit with
    | [] => Some c
    | r :: rest =>
        let candidate' := if Contains r c size then None else Some c in
        FindFreeRegion_loop allocation_size size alignment_log2 candidate'
          (AlignUpLog2 (r_end r) alignment_log2) rest
    end
  else candidate.

Definition FindFreeRegion (a : t) (size alignment : Z) : result (option Z) :=
  if has_single_bit alignment then
    let alignment_log2 := countr_zero alignment in
    Ok (FindFreeRegion_loop (allocation_size a) size alignment_log2 None 0 (commits a))
  else Err AssertionFailed.

(** [commits.insert(std::ranges::upper_bound(commits, begin, {}, &Range::begin), range)]:
    the range goes before the first entry whose begin is greater. *)
Fixpoint insert_upper_bound (range : Range) (l : list Range) : list Range :=
  match l with
  | [] => [range]
  | x :: l' =>
      if r_begin range <? r_begin x then range :: l
      else x :: insert_upper_bound range l'
  end.

(** [Commit]; [this] is the block's own address. *)
Definition Commit (this : nat) (a : t) (size alignment : Z)
    : result (option (MemoryCommit * t)) :=
  alloc ← FindFreeRegion a size alignment;
  match alloc with
  | None => Ok None
  | Some alloc =>
      let range := {| r_begin := alloc; r_end := wrap64 (alloc + size) |} in
      Ok (Some ({| mc_allocation := Some this;
                   mc_memory := memory a;
                   mc_interval := (alloc, wrap64 (alloc + size));
                   mc_span := None |},
                set_commits a (insert_upper_bound range (commits a))))
  end.

(** [std::ranges::find] by begin, then [erase]: the first entry with
    that begin goes; [None] when there is none. *)
Fixpoint erase_first (begin : Z) (l : list Range) : option (list Range) :=
  match l with
  | [] => None
  | x :: l' =>
      if r_begin x =? begin then Some l'
      else match erase_first begin l' with
           | Some l'' => Some (x :: l'')
           | None => None
           end
  end.

Definition Free (a : t) (begin : Z) : result t :=
  match erase_first begin (commits a) with
  | Some c => Ok (set_commits a c)
  | None => Err AssertionFailed
  end.

Definition IsCompatible (a : t) (flags type_mask : Z) : bool :=
  nonzero (Z.land flags (property_flags a))
  && negb (Z.land type_mask (shifted_memory_type a) =? 0).

End MemoryAllocation.

(** ** MemoryCommit: release and moves over an object store

    The store holds the blocks, the [MemoryCommit] objects by address, and
    the trace of the [MemoryAllocation::Free] calls made so far, each as
    the pair of the block called and the begin passed. *)

Definition set_allocation (v : option nat) (c : MemoryCommit) : MemoryCommit :=
  {| mc_allocation := v; mc_memory := mc_memory c;
     mc_interval := mc_interval c; mc_span := mc_span c |}.

Definition set_memory (v : Z) (c : MemoryCommit) : MemoryCommit :=
  {| mc_allocation := mc_allocation c; mc_memory := v;
     mc_interval := mc_interval c; mc_span := mc_span c |}.

Definition set_interval (v : Z * Z) (c : MemoryCommit) : MemoryCommit :=
  {| mc_allocation := mc_allocation c; mc_memory := mc_memory c;
     mc_interval := v; mc_span := mc_span c |}.

Definition set_span (v : option (Z * Z)) (c : MemoryCommit) : MemoryCommit :=
  {| mc_allocation := mc_allocation c; mc_memory := mc_memory c;
     mc_interval := mc_interval c; mc_span := v |}.

Record Store : Type := mkStore {
  blocks : list MemoryAllocation.t;
  objects : gmap nat MemoryCommit;
  free_trace : list (nat * Z)
}.

Definition set_objects (s : Store) (o : gmap nat MemoryCommit) : Store :=
  {| blocks := blocks s; objects := o; free_trace := free_trace s |}.

Definition get_obj (o : gmap nat MemoryCommit) (a : nat) : result MemoryCommit :=
  match o !! a with
  | Some c => Ok c
  | None => Err InvalidPointer
  end.

Definition update_obj (a : nat) (f : MemoryCommit -> MemoryCommit)
    (o : gmap nat MemoryCommit) : result (gmap nat MemoryCommit) :=
  c ← get_obj o a; Ok (<[a := f c]> o).

(** [std::exchange(obj.allocation, v)] and [std::exchange(obj.span, v)]. *)
Definition exchange_allocation (a : nat) (v : option nat)
    (o : gmap nat MemoryCommit) : result (option nat * gmap nat MemoryCommit) :=
  c ← get_obj o a; Ok (mc_allocation c, <[a := set_allocation v c]> o).

Definition exchange_span (a : nat) (v : option (Z * Z))
    (o : gmap nat MemoryCommit) : result (option (Z * Z) * gmap nat MemoryCommit) :=
  c ← get_obj o a; Ok (mc_span c, <[a := set_span v c]> o).

(** [allocation->Free(begin)] through the pointer [p]. *)
Definition free_in (p : nat) (begin : Z) (s : Store) : result Store :=
  match blocks s !! p with
  | None => Err InvalidPointer
  | Some blk =>
      blk' ← MemoryAllocation.Free blk begin;
      Ok {| blocks := <[p := blk']> (blocks s);
            objects := objects s;
            free_trace := free_trace s ++ [(p, begin)] |}
  end.

(** [MemoryCommit::Release]. *)
Definition MemoryCommit_Release (this : nat) (s : Store) : result Store :=
  c ← get_obj (objects s) this;
  match mc_allocation c with
  | Some p => free_in p (fst (mc_interval c)) s
  | None => Ok s
  end.

(** The destructor: release, then the object is gone. *)
Definition MemoryCommit_destroy (this : nat) (s : Store) : result Store :=
  s' ← MemoryCommit_Release this s;
  Ok (set_objects s' (delete this (objects s'))).

(** [operator=(MemoryCommit&& rhs)], statement by statement; [this] and
    [rhs] are addresses and may be the same one.  (The [device] pointer it
    also copies is the same in every handle and is not a field here.) *)
Definition MemoryCommit_move_assign (this rhs : nat) (s : Store) : result Store :=
  s ← MemoryCommit_Release this s;
  let o := objects s in
  '(p, o) ← exchange_allocation rhs None o;
  o ← update_obj this (set_allocation p) o;
  r ← get_obj o rhs;
  o ← update_obj this (set_memory (mc_memory r)) o;
  r ← get_obj o rhs;
  o ← update_obj this (set_interval (mc_interval r)) o;
  '(sp, o) ← exchange_span rhs None o;
  o ← update_obj this (set_span sp) o;
  Ok (set_objects s o).

(** The move constructor: [this] is the address of the object being
    built, so nothing lives there yet. *)
Definition MemoryCommit_move_construct (this rhs : nat) (s : Store) : result Store :=
  match objects s !! this with
  | Some _ => Err InvalidPointer
  | None =>
      let o := objects s in
      '(p, o) ← exchange_allocation rhs None o;
      r ← get_obj o rhs;
      let memory_ := mc_memory r in
      let interval_ := mc_interval r in
      '(sp, o) ← exchange_span rhs None o;
      Ok (set_objects s
            (<[this := {| mc_allocation := p; mc_memory := memory_;
                          mc_interval := interval_; mc_span := sp |}]> o))
  end.

(** A sequence of operations on commit objects. *)
Inductive commit_op : Type :=
  | MoveConstruct (this rhs : nat)
  | MoveAssign (this rhs : nat)
  | Destroy (this : nat).

Definition commit_step (op : commit_op) (s : Store) : result Store :=
  match op with
  | MoveConstruct this rhs => MemoryCommit_move_construct this rhs s
  | MoveAssign this rhs => MemoryCommit_move_assign this rhs s
  | Destroy this => MemoryCommit_destroy this s
  end.

Fixpoint commit_run (ops : list commit_op) (s : Store) : result Store :=
  match ops with
  | [] => Ok s
  | op :: ops' => s' ← commit_step op s; commit_run ops' s'
  end.

(** ** The device as the allocator sees it *)

Record VkMemoryRequirements : Type := mkRequirements {
  size : Z;
  alignment : Z;
  memoryTypeBits : Z
}.

(** The memory-type table ([propertyFlags] of each type, in index order)
    and the driver's allocation call, which yields a handle or throws. *)
Record Device : Type := mkDevice {
  memory_types : list Z;
  AllocateMemory : Z -> Z -> option Z
}.

(** ** MemoryAllocator *)

(** The result of a scan with its second component rebuilt. *)
Definition on_second {A B C : Type} (f : B -> C) (r : option (A * B)) : option (A * C) :=
  match r with
  | Some (a, b) => Some (a, f b)
  | None => None
  end.

(** A [std::optional] used as a condition. *)
Definition is_some {A : Type} (o : option A) : bool :=
  match o with
  | Some _ => true
  | None => false
  end.

Module MemoryAllocator.

Record t : Type := mk {
  device : Device;
  properties : list Z;
  allocations : list MemoryAllocation.t
}.

Definition new (device_ : Device) : t :=
  {| device := device_; properties := memory_types device_; allocations := [] |}.

Definition set_allocations (al : t) (l : list MemoryAllocation.t) : t :=
  {| device := device al; properties := properties al; allocations := l |}.

(** The loop of [FindType] from [type_index] on; [types] is the rest of
    the table. *)
Fixpoint FindType_from (types : list Z) (type_index : Z) (flags type_mask : Z)
    : option Z :=
  match types with
  | [] => None
  | type_flags :: rest =>
      if nonzero (Z.land type_mask (wrap32 (Z.shiftl 1 type_index)))
         && nonzero (Z.land type_flags flags)
      then Some type_index
      else FindType_from rest (type_index + 1) flags type_mask
  end.

Definition FindType (al : t) (flags type_mask : Z) : option Z :=
  FindType_from (properties al) 0 flags type_mask.

(** [MemoryPropertyFlags(type_mask, flags)]; the recursion of the source
    is bounded by [fuel]. *)
Fixpoint MemoryPropertyFlags_fuel (fuel : nat) (al : t) (type_mask flags : Z)
    : result Z :=
  match fuel with
  | O => Err OutOfFuel
  | S fuel' =>
      if is_some (FindType al flags type_mask) then Ok flags
      else if nonzero (Z.land flags VK_MEMORY_PROPERTY_HOST_CACHED_BIT) then
        MemoryPropertyFlags_fuel fuel' al type_mask
          (Z.land flags (wrap32 (Z.lnot VK_MEMORY_PROPERTY_HOST_CACHED_BIT)))
      else if nonzero (Z.land flags VK_MEMORY_PROPERTY_DEVICE_LOCAL_BIT) then
        MemoryPropertyFlags_fuel fuel' al type_mask
          (Z.land flags (wrap32 (Z.lnot VK_MEMORY_PROPERTY_DEVICE_LOCAL_BIT)))
      else Err Unreachable
  end.

Definition MemoryPropertyFlags (al : t) (type_mask flags : Z) : result Z :=
  MemoryPropertyFlags_fuel 3 al type_mask flags.

Definition MemoryPropertyFlags_usage (al : t) (type_mask : Z) (usage : MemoryUsage)
    : result Z :=
  MemoryPropertyFlags al type_mask (MemoryUsagePropertyFlags usage).

(** The loop of [TryCommit]; [index] is the address of the head of
    [rest].  The list returned is [rest] with the chosen block updated. *)
Fixpoint TryCommit_from (index : nat) (rest : list MemoryAllocation.t)
    (requirements : VkMemoryRequirements) (flags : Z)
    : result (option (MemoryCommit * list MemoryAllocation.t)) :=
  match rest with
  | [] => Ok None
  | allocation :: rest' =>
      if negb (MemoryAllocation.IsCompatible allocation flags
                 (memoryTypeBits requirements))
      then
        r ← TryCommit_from (S index) rest' requirements flags;
        Ok (on_second (cons allocation) r)
      else
        commit ← MemoryAllocation.Commit index allocation
                   (size requirements) (alignment requirements);
        match commit with
        | Some (c, allocation') => Ok (Some (c, allocation' :: rest'))
        | None =>
            r ← TryCommit_from (S index) rest' requirements flags;
            Ok (on_second (cons allocation) r)
        end
  end.

Definition TryCommit (al : t) (requirements : VkMemoryRequirements) (flags : Z)
    : result (option (MemoryCommit * t)) :=
  r ← TryCommit_from 0 (allocations al) requirements flags;
  Ok (on_second (set_allocations al) r).

Definition AllocMemory (al : t) (flags type_mask size_ : Z) : result t :=
  match FindType al flags type_mask with
  | None => Err BadOptionalAccess
  | Some type =>
      match AllocateMemory (device al) size_ type with
      | None => Err DeviceFailure
      | Some memory_ =>
          Ok (set_allocations al
                (allocations al ++ [MemoryAllocation.new memory_ flags size_ type]))
      end
  end.

Definition Commit (al : t) (requirements : VkMemoryRequirements) (usage : MemoryUsage)
    : result (MemoryCommit * t) :=
  flags ← MemoryPropertyFlags_usage al (memoryTypeBits requirements) usage;
  commit ← TryCommit al requirements flags;
  match commit with
  | Some r => Ok r
  | None =>
      al' ← AllocMemory al flags (memoryTypeBits requirements)
              (AllocationChunkSize (size requirements));
      commit ← TryCommit al' requirements flags;
      match commit with
      | Some r => Ok r
      | None => Err BadOptionalAccess
      end
  end.

End MemoryAllocator.

(** ** Sequences of calls on one block *)

Inductive block_op : Type :=
  | DoCommit (size alignment : Z)
  | DoFree (begin : Z).

(** A call that succeeds yields the block after it; [None] otherwise. *)
Definition block_step (this : nat) (op : block_op) (a : MemoryAllocation.t)
    : option MemoryAllocation.t :=
  match op with
  | DoCommit size alignment =>
      match MemoryAllocation.Commit this a size alignment with
      | Ok (Some (_, a')) => Some a'
      | _ => None
      end
  | DoFree begin =>
      match MemoryAllocation.Free a begin with
      | Ok a' => Some a'
      | Err _ => None
      end
  end.

Fixpoint block_run (this : nat) (ops : list block_op) (a : MemoryAllocation.t)
    : option MemoryAllocation.t :=
  match ops with
  | [] => Some a
  | op :: ops' =>
      match block_step this op a with
      | Some a' => block_run this ops' a'
      | None => None
      end
  end.

Definition block_op_wf (op : block_op) : Prop :=
  match op with
  | DoCommit size alignment => is_u64 size /\ is_u64 alignment
  | DoFree begin => is_u64 begin
  end.

(** * Vocabulary of the properties *)

(** What every candidate of the search satisfies. *)
Definition fits (A size k c : Z) : Prop :=
  0 <= c < 2 ^ 64 /\ c mod 2 ^ k = 0 /\ wrap64 (c + size) <= A.

(** The order the commit list is kept in. *)
Definition begin_le (a b : Range) : Prop := r_begin a <= r_begin b.

(** The region of [size] bytes at [c] misses the range [r]. *)
Definition free_at (size c : Z) (r : Range) : Prop :=
  ~ (c < r_end r /\ r_begin r < c + size).

(** Disjointness of a commit list, entry by entry against the entries
    after it. *)
Fixpoint disjoint_list (l : list Range) : Prop :=
  match l with
  | [] => True
  | r :: l' => Forall (fun b => ~ overlap r b) l' /\ disjoint_list l'
  end.

(** The invariant of the commit list of a block of [A] bytes. *)
Record block_inv (A : Z) (l : list Range) : Prop := mk_block_inv {
  inv_sorted : StronglySorted begin_le l;
  inv_ends : Forall (fun r => 0 <= r_end r <= A) l;
  inv_disjoint : disjoint_list l
}.

(** [flags & ~bit] on 32-bit flags. *)
Definition clear_flag (flags bit : Z) : Z := Z.land flags (wrap32 (Z.lnot bit)).

(** How many of the two droppable bits are set. *)
Definition droppable (flags : Z) : nat :=
  ((if nonzero (Z.land flags VK_MEMORY_PROPERTY_HOST_CACHED_BIT) then 1 else 0)
   + (if nonzero (Z.land flags VK_MEMORY_PROPERTY_DEVICE_LOCAL_BIT) then 1 else 0))%nat.

(** The commit the retry makes in the fresh block, and the allocator after it. *)
Definition fresh_commit (al : MemoryAllocator.t) (requirements : VkMemoryRequirements)
    (flags memory_ type : Z) : MemoryCommit * MemoryAllocator.t :=
  ({| mc_allocation := Some (length (MemoryAllocator.allocations al));
      mc_memory := memory_;
      mc_interval := (0, size requirements);
      mc_span := None |},
   MemoryAllocator.set_allocations al
     (MemoryAllocator.allocations al
      ++ [MemoryAllocation.set_commits
            (MemoryAllocation.new memory_ flags
               (AllocationChunkSize (size requirements)) type)
            [mkRange 0 (size requirements)]])).

(** The release of a commit handle held by value: the destructor run on a
    store that holds the allocator's blocks and that one object. *)
Definition release_commit (al : MemoryAllocator.t) (c : MemoryCommit)
    : result MemoryAllocator.t :=
  s ← MemoryCommit_destroy 0 {| blocks := MemoryAllocator.allocations al;
                          objects := {[ 0%nat := c ]};
                          free_trace := [] |};
  Ok (MemoryAllocator.set_allocations al (blocks s)).

(** The range a handle would free: its block and its begin. *)
Definition owner_key (c : MemoryCommit) : option (nat * Z) :=
  match mc_allocation c with
  | Some p => Some (p, fst (mc_interval c))
  | None => None
  end.

(** The object at address [a] holds the range [k]. *)
Definition has_key (o : gmap nat MemoryCommit) (a : nat) (k : nat * Z) : Prop :=
  exists c, o !! a = Some c /\ owner_key c = Some k.

(** No two objects hold the same range, and no object holds a range that
    was freed. *)
Record handles_inv (s : Store) : Prop := mk_handles_inv {
  inv_unique : forall a b k, has_key (objects s) a k -> has_key (objects s) b k -> a = b;
  inv_nodup : NoDup (free_trace s);
  inv_fresh : forall k a, k ∈ free_trace s -> ~ has_key (objects s) a k
}.

(** A move assignment never names one object twice. *)
Definition op_distinct (op : commit_op) : Prop :=
  match op with
  | MoveAssign this rhs => this <> rhs
  | _ => True
  end.

(** What a handle has given up after being moved from. *)
Definition moved_from (c : MemoryCommit) : MemoryCommit :=
  set_span None (set_allocation None c).

(** Every range an object holds is stored in its block. *)
Definition backed (s : Store) : Prop :=
  forall a p b,
    has_key (objects s) a (p, b) ->
    exists blk r,
      blocks s !! p = Some blk /\ r ∈ MemoryAllocation.commits blk /\ r_begin r = b.

(** Two handles in one block of two ranges, moved around and destroyed. *)
Definition example_store : Store :=
  {| blocks := [MemoryAllocation.mk 7 4096 6 2 [mkRange 0 64; mkRange 64 128]];
     objects := {[ 0%nat := mkMemoryCommit (Some 0%nat) 7 (0, 64) None;
                   1%nat := mkMemoryCommit (Some 0%nat) 7 (64, 128) None ]};
     free_trace := [] |}.

(** ** The specification's reading of "compatible"

    [FindType] and the flag resolution written with the test of the
    specification: a memory type is compatible with the flags when its bit
    is set in the type mask and its property flags are a superset of the
    flags.  These two follow the specification's words, not the source;
    they are what the source's functions are compared with. *)

Fixpoint FindType_superset_from (types : list Z) (type_index : Z) (flags type_mask : Z)
    : option Z :=
  match types with
  | [] => None
  | type_flags :: rest =>
      if nonzero (Z.land type_mask (wrap32 (Z.shiftl 1 type_index)))
         && (Z.land type_flags flags =? flags)
      then Some type_index
      else FindType_superset_from rest (type_index + 1) flags type_mask
  end.

Definition FindType_superset (al : MemoryAllocator.t) (flags type_mask : Z) : option Z :=
  FindType_superset_from (MemoryAllocator.properties al) 0 flags type_mask.

Fixpoint MemoryPropertyFlags_superset_fuel (fuel : nat) (al : MemoryAllocator.t)
    (type_mask flags : Z) : result Z :=
  match fuel with
  | O => Err OutOfFuel
  | S fuel' =>
      if is_some (FindType_superset al flags type_mask) then Ok flags
      else if nonzero (Z.land flags VK_MEMORY_PROPERTY_HOST_CACHED_BIT) then
        MemoryPropertyFlags_superset_fuel fuel' al type_mask
          (clear_flag flags VK_MEMORY_PROPERTY_HOST_CACHED_BIT)
      else if nonzero (Z.land flags VK_MEMORY_PROPERTY_DEVICE_LOCAL_BIT) then
        MemoryPropertyFlags_superset_fuel fuel' al type_mask
          (clear_flag flags VK_MEMORY_PROPERTY_DEVICE_LOCAL_BIT)
      else Err Unreachable
  end.

Definition MemoryPropertyFlags_superset (al : MemoryAllocator.t) (type_mask flags : Z)
    : result Z :=
  MemoryPropertyFlags_superset_fuel 3 al type_mask flags.

(** * The rest of the file *)

Definition IsHostVisible (usage : MemoryUsage) : bool :=
  match usage with
  | DeviceLocal => false
  | Upload => true
  | Download => true
  end.

(** ** Host mappings

    A [std::span<u8>] is the pair of its data pointer and its size; it is
    empty when the size is 0.  The driver's [vk::DeviceMemory::Map] is a
    function of the memory handle, the offset and the size that yields the
    pointer or throws; the calls made are returned beside the result. *)

Definition span_is_empty (s : Z * Z) : bool := snd s =? 0.

(** [std::span::subspan(offset, count)], whose behaviour is undefined out
    of range (here the failure [InvalidPointer]); a count of
    [std::dynamic_extent], the largest [size_t], takes the rest. *)
Definition subspan (s : Z * Z) (offset count : Z) : result (Z * Z) :=
  if snd s <? offset then Err InvalidPointer
  else if count =? 2 ^ 64 - 1 then Ok (fst s + offset, snd s - offset)
  else if snd s - offset <? count then Err InvalidPointer
  else Ok (fst s + offset, count).

(** A block with its [memory_mapped_span]. *)
Record MappedAllocation : Type := mkMapped {
  ma_allocation : MemoryAllocation.t;
  memory_mapped_span : Z * Z
}.

(** [MemoryAllocation::Map]. *)
Definition MemoryAllocation_Map (map_memory : Z -> Z -> Z -> option Z)
    (m : MappedAllocation) : result ((Z * Z) * MappedAllocation * list (Z * Z * Z)) :=
  if span_is_empty (memory_mapped_span m) then
    let a := ma_allocation m in
    match map_memory (MemoryAllocation.memory a) 0 (MemoryAllocation.allocation_size a) with
    | None => Err DeviceFailure
    | Some raw_pointer =>
        let mapped := (raw_pointer, MemoryAllocation.allocation_size a) in
        Ok (mapped, {| ma_allocation := a; memory_mapped_span := mapped |},
            [(MemoryAllocation.memory a, 0, MemoryAllocation.allocation_size a)])
    end
  else Ok (memory_mapped_span m, m, []).

(** The [span] member of a handle as a pointer and a size. *)
Definition commit_span (c : MemoryCommit) : Z * Z := default (0, 0) (mc_span c).

(** [MemoryCommit::Map]; the handle after the call is returned with the
    blocks and the driver calls. *)
Definition MemoryCommit_Map (map_memory : Z -> Z -> Z -> option Z)
    (mapped_blocks : list MappedAllocation) (c : MemoryCommit)
    : result ((Z * Z) * MemoryCommit * list MappedAllocation * list (Z * Z * Z)) :=
  if span_is_empty (commit_span c) then
    match mc_allocation c with
    | None => Err InvalidPointer
    | Some p =>
        match mapped_blocks !! p with
        | None => Err InvalidPointer
        | Some m =>
            '(whole, m', calls) ← MemoryAllocation_Map map_memory m;
            view ← subspan whole (fst (mc_interval c))
                           (wrap64 (snd (mc_interval c) - fst (mc_interval c)));
            Ok (view, set_span (Some view) c, <[p := m']> mapped_blocks, calls)
        end
    end
  else Ok (commit_span c, c, mapped_blocks, []).

(** ** Commit for a buffer or an image

    [Commit(buffer, usage)] and [Commit(image, usage)] are one function of
    what the allocator sees of the resource: the requirements the driver
    reports for it, and its [BindMemory], which binds the memory handle and
    offset it is given ([true]) or throws ([false]). *)

Record Resource : Type := mkResource {
  GetMemoryRequirements : VkMemoryRequirements;
  BindMemory : Z -> Z -> bool
}.

(** Modelled from the spec: the handle "exposes the device-memory
    handle/offset"; [Memory()] is the memory handle it was built with. *)
Definition MemoryCommit_Memory (c : MemoryCommit) : Z := mc_memory c.

(** Modelled from the spec: the handle "exposes the device-memory
    handle/offset"; [Offset()] is the begin of its range. *)
Definition MemoryCommit_Offset (c : MemoryCommit) : Z := fst (mc_interval c).

(** How the call ends once the commit is made: the resource is bound and
    the handle returned, or [BindMemory] has thrown and the exception
    leaves the function.  Both carry the allocator left behind and the
    arguments [BindMemory] was called with. *)
Inductive bind_outcome : Type :=
  | Bound (commit : MemoryCommit) (al : MemoryAllocator.t) (call : Z * Z)
  | BindThrew (al : MemoryAllocator.t) (call : Z * Z).

(** The local [commit] is destroyed when the exception unwinds the frame,
    which releases it. *)
Definition MemoryAllocator_Commit_resource (al : MemoryAllocator.t)
    (resource : Resource) (usage : MemoryUsage) : result bind_outcome :=
  '(commit, al') ← MemoryAllocator.Commit al (GetMemoryRequirements resource) usage;
  let call := (MemoryCommit_Memory commit, MemoryCommit_Offset commit) in
  if BindMemory resource (fst call) (snd call) then Ok (Bound commit al' call)
  else
    al'' ← release_commit al' commit;
    Ok (BindThrew al'' call).

(** ** More vocabulary *)

(** [x] is an offset at which a request of [size] bytes with the given
    alignment fits in a block of [A] bytes holding the ranges [l]. *)
Definition region_free (A : Z) (l : list Range) (size alignment x : Z) : Prop :=
  0 <= x /\ x mod alignment = 0 /\ x + size <= A /\ Forall (free_at size x) l.

(** The bytes a commit list accounts for. *)
Definition committed_bytes (l : list Range) : Z :=
  foldr (fun r acc => (r_end r - r_begin r) + acc) 0 l.

Definition ranges_ordered (l : list Range) : Prop :=
  Forall (fun r => 0 <= r_begin r <= r_end r) l.

Definition ranges_nonempty (l : list Range) : Prop :=
  Forall (fun r => r_begin r < r_end r) l.

(** Two states of one block: the fields fixed at construction agree. *)
Definition same_block (b b' : MemoryAllocation.t) : Prop :=
  MemoryAllocation.memory b' = MemoryAllocation.memory b
  /\ MemoryAllocation.allocation_size b' = MemoryAllocation.allocation_size b
  /\ MemoryAllocation.property_flags b' = MemoryAllocation.property_flags b
  /\ MemoryAllocation.shifted_memory_type b' = MemoryAllocation.shifted_memory_type b.

(** Every block of the allocator is below [2 ^ 63] bytes and keeps the
    invariant of its commit list. *)
Definition allocator_inv (al : MemoryAllocator.t) : Prop :=
  Forall (fun b => 0 <= MemoryAllocation.allocation_size b < 2 ^ 63
                   /\ block_inv (MemoryAllocation.allocation_size b)
                                (MemoryAllocation.commits b))
         (MemoryAllocator.allocations al).

(** The test [FindType] makes on the type at an index. *)
Definition type_matches (flags type_mask : Z) (index : nat) (type_flags : Z) : Prop :=
  Z.land type_mask (wrap32 (Z.shiftl 1 (Z.of_nat index))) <> 0
  /\ Z.land type_flags flags <> 0.

(** A block's mapping, once made, spans the whole block. *)
Definition mapping_ok (m : MappedAllocation) : Prop :=
  span_is_empty (memory_mapped_span m) = true
  \/ snd (memory_mapped_span m) = MemoryAllocation.allocation_size (ma_allocation m).

(** The bytes of a handle's range in a block mapped at [base], as a
    pointer and a size. *)
Definition view_at (base : Z) (c : MemoryCommit) : Z * Z :=
  (base + fst (mc_interval c), snd (mc_interval c) - fst (mc_interval c)).

(** The number of ranges held by all the blocks. *)
Definition total_ranges (bl : list MemoryAllocation.t) : nat :=
  foldr (fun b acc => (length (MemoryAllocation.commits b) + acc)%nat) 0%nat bl.

(** A later state of a block: the same block, holding some of the ranges
    it held, in their order. *)
Definition block_shrunk (b b' : MemoryAllocation.t) : Prop :=
  same_block b b'
  /\ sublist (MemoryAllocation.commits b') (MemoryAllocation.commits b).

(** Every block's commit list keeps its invariant. *)
Definition blocks_inv (bl : list MemoryAllocation.t) : Prop :=
  Forall (fun b => block_inv (MemoryAllocation.allocation_size b)
                             (MemoryAllocation.commits b)) bl.

(** * Properties *)

(** ** Machine arithmetic *)

Lemma wrap64_range x : 0 <= wrap64 x < 2 ^ 64.
Proof. unfold wrap64. apply Z.mod_pos_bound. lia. Qed.

Lemma wrap64_small x : 0 <= x < 2 ^ 64 -> wrap64 x = x.
Proof. unfold wrap64. intros. apply Z.mod_small. lia. Qed.

Lemma pow2_split k : 0 <= k <= 64 -> 2 ^ 64 = 2 ^ k * 2 ^ (64 - k).
Proof. intros. rewrite <- Z.pow_add_r by lia. f_equal. lia. Qed.

Lemma pow2_le_63 k : 0 <= k < 64 -> 0 < 2 ^ k <= 2 ^ 63.
Proof.
  intros. split; [apply Z.pow_pos_nonneg; lia |].
  apply Z.pow_le_mono_r; lia.
Qed.

Lemma wrap64_pow2 k : 0 <= k < 64 -> wrap64 (Z.shiftl 1 k) = 2 ^ k.
Proof.
  intros Hk. rewrite Z.shiftl_mul_pow2, Z.mul_1_l by lia.
  apply wrap64_small. pose proof (pow2_le_63 k Hk). lia.
Qed.

(** A multiple of [2 ^ k] stays one when reduced modulo [2 ^ 64]. *)
Lemma wrap64_multiple m k : 0 <= k < 64 -> wrap64 (m * 2 ^ k) mod 2 ^ k = 0.
Proof.
  intros Hk. unfold wrap64.
  pose proof (pow2_le_63 k Hk).
  rewrite (pow2_split k) by lia.
  rewrite (Z.mul_comm m), Z.mul_mod_distr_l by (try apply Z.pow_nonzero; lia).
  rewrite Z.mul_comm. apply Z.mod_mul. lia.
Qed.

Lemma AlignUpLog2_range v k : 0 <= AlignUpLog2 v k < 2 ^ 64.
Proof. apply wrap64_range. Qed.

Lemma AlignUpLog2_multiple v k : 0 <= k < 64 -> AlignUpLog2 v k mod 2 ^ k = 0.
Proof.
  intros Hk. unfold AlignUpLog2.
  rewrite Z.shiftl_mul_pow2 by lia. by apply wrap64_multiple.
Qed.

(** Without overflow [AlignUpLog2] is the least multiple at or after the
    value. *)
Lemma AlignUpLog2_exact v k :
  0 <= k < 64 -> 0 <= v -> v + 2 ^ k - 1 < 2 ^ 64 ->
  AlignUpLog2 v k = (v + 2 ^ k - 1) / 2 ^ k * 2 ^ k.
Proof.
  intros Hk Hv Hno. unfold AlignUpLog2.
  pose proof (pow2_le_63 k Hk) as Hp.
  rewrite wrap64_pow2 by done.
  replace (v + (2 ^ k - 1)) with (v + 2 ^ k - 1) by lia.
  rewrite (wrap64_small (v + 2 ^ k - 1)) by lia.
  rewrite Z.shiftr_div_pow2, Z.shiftl_mul_pow2 by lia.
  apply wrap64_small.
  pose proof (Z.mul_div_le (v + 2 ^ k - 1) (2 ^ k)).
  pose proof (Z.div_pos (v + 2 ^ k - 1) (2 ^ k)).
  nia.
Qed.

Lemma AlignUpLog2_ge v k :
  0 <= k < 64 -> 0 <= v -> v + 2 ^ k - 1 < 2 ^ 64 -> v <= AlignUpLog2 v k.
Proof.
  intros Hk Hv Hno. rewrite AlignUpLog2_exact by done.
  pose proof (pow2_le_63 k Hk) as Hp.
  pose proof (Z.mod_pos_bound (v + 2 ^ k - 1) (2 ^ k)).
  pose proof (Z.div_mod (v + 2 ^ k - 1) (2 ^ k)).
  nia.
Qed.

Lemma AlignUpLog2_least v k m :
  0 <= k < 64 -> 0 <= v -> v + 2 ^ k - 1 < 2 ^ 64 ->
  m mod 2 ^ k = 0 -> v <= m -> AlignUpLog2 v k <= m.
Proof.
  intros Hk Hv Hno Hm Hle. rewrite AlignUpLog2_exact by done.
  pose proof (pow2_le_63 k Hk) as Hp.
  apply Z.mod_divide in Hm; [| lia]. destruct Hm as [q ->].
  assert ((v + 2 ^ k - 1) / 2 ^ k < q + 1); [| nia].
  apply Z.div_lt_upper_bound; [lia |]. nia.
Qed.

(** ** Powers of two *)

Lemma countr_zero_from_pow2 n i k :
  0 <= i <= k -> k < i + Z.of_nat n -> countr_zero_from n i (2 ^ k) = k.
Proof.
  revert i. induction n as [| n IH]; intros i Hi Hk; [lia |].
  simpl. rewrite Z.pow2_bits_eqb by lia.
  destruct (Z.eqb_spec k i) as [-> | Hne]; [done |].
  apply IH; lia.
Qed.

Lemma countr_zero_pow2 k : 0 <= k < 64 -> countr_zero (2 ^ k) = k.
Proof. intros. apply countr_zero_from_pow2; simpl; lia. Qed.

Lemma has_single_bit_pow2 x :
  has_single_bit x = true -> exists k, 0 <= k /\ x = 2 ^ k.
Proof.
  unfold has_single_bit. intros H.
  apply andb_true_iff in H as [Hpos Hland].
  apply Z.ltb_lt in Hpos. apply Z.eqb_eq in Hland.
  exists (Z.log2 x). split; [apply Z.log2_nonneg |].
  destruct (Z.log2_spec x Hpos) as [Hlo Hhi].
  destruct (Z.eq_dec x (2 ^ Z.log2 x)) as [| Hne]; [done | exfalso].
  assert (Hbit : Z.testbit (Z.land x (x - 1)) (Z.log2 x) = true).
  { rewrite Z.land_spec, Z.bit_log2 by done.
    assert (Z.log2 (x - 1) = Z.log2 x) as <-.
    { apply Z.log2_unique; [apply Z.log2_nonneg |]. lia. }
    apply Z.bit_log2.
    pose proof (Z.pow_pos_nonneg 2 (Z.log2 x)) as Hp.
    pose proof (Z.log2_nonneg x). lia. }
  rewrite Hland, Z.bits_0 in Hbit. done.
Qed.

Lemma has_single_bit_u64 x :
  has_single_bit x = true -> is_u64 x ->
  exists k, 0 <= k < 64 /\ x = 2 ^ k /\ countr_zero x = k.
Proof.
  intros H [_ Hhi]. destruct (has_single_bit_pow2 x H) as (k & Hk & ->).
  assert (k < 64).
  { apply (Z.pow_lt_mono_r_iff 2); lia. }
  exists k. split; [lia |]. split; [done |]. apply countr_zero_pow2. lia.
Qed.

(** ** The free-region search: alignment and capacity *)

Section FindFreeRegion_bounds.
Variables (A size k : Z).
Hypothesis Hk : 0 <= k < 64.

Lemma FindFreeRegion_loop_fits commit :
  forall candidate iterator c,
    (forall c0, candidate = Some c0 -> fits A size k c0) ->
    0 <= iterator < 2 ^ 64 -> iterator mod 2 ^ k = 0 ->
    MemoryAllocation.FindFreeRegion_loop A size k candidate iterator commit = Some c ->
    fits A size k c.
Proof.
  induction commit as [| r rest IH]; intros candidate iterator c Hcand Hit Hal; simpl.
  - destruct (Z.leb_spec (wrap64 (iterator + size)) A) as [Hle | Hgt].
    + intros [= <-]. destruct candidate as [c0 |]; simpl; [by apply Hcand |].
      by split; [| split].
    + intros ->. by apply Hcand.
  - destruct (Z.leb_spec (wrap64 (iterator + size)) A) as [Hle | Hgt].
    + apply IH.
      * intros c0. destruct (Contains r (default iterator candidate) size); [done |].
        intros [= <-]. destruct candidate as [c1 |]; simpl; [by apply Hcand |].
        by split; [| split].
      * apply AlignUpLog2_range.
      * by apply AlignUpLog2_multiple.
    + intros ->. by apply Hcand.
Qed.
End FindFreeRegion_bounds.

Lemma FindFreeRegion_fits a size alignment c :
  is_u64 alignment ->
  MemoryAllocation.FindFreeRegion a size alignment = Ok (Some c) ->
  0 <= c < 2 ^ 64 /\ c mod alignment = 0
  /\ wrap64 (c + size) <= MemoryAllocation.allocation_size a.
Proof.
  unfold MemoryAllocation.FindFreeRegion. intros Hu.
  destruct (has_single_bit alignment) eqn:Hs; [| done].
  destruct (has_single_bit_u64 _ Hs Hu) as (k & Hk & Hx & Hc).
  rewrite Hc. intros [= H]. rewrite Hx.
  eapply (FindFreeRegion_loop_fits _ size k Hk); [| | | exact H]; [done | lia |].
  apply Z.mod_0_l. apply Z.pow_nonzero; lia.
Qed.

Lemma Commit_inv this a size alignment c a' :
  MemoryAllocation.Commit this a size alignment = Ok (Some (c, a')) ->
  exists alloc,
    MemoryAllocation.FindFreeRegion a size alignment = Ok (Some alloc)
    /\ c = {| mc_allocation := Some this; mc_memory := MemoryAllocation.memory a;
              mc_interval := (alloc, wrap64 (alloc + size)); mc_span := None |}
    /\ a' = MemoryAllocation.set_commits a
              (MemoryAllocation.insert_upper_bound
                 {| r_begin := alloc; r_end := wrap64 (alloc + size) |}
                 (MemoryAllocation.commits a)).
Proof.
  unfold MemoryAllocation.Commit.
  destruct (MemoryAllocation.FindFreeRegion a size alignment) as [[alloc |] | e];
    simpl; try done.
  intros [= <- <-]. by exists alloc.
Qed.

Lemma insert_upper_bound_In range l :
  range ∈ MemoryAllocation.insert_upper_bound range l.
Proof.
  induction l as [| x l IH]; simpl; [by left |].
  destruct (r_begin range <? r_begin x); [by left | by right].
Qed.

(** C7. Every successful [MemoryAllocation::Commit] (its alignment is then a
    power of two, the assertion having passed) returns an interval whose
    begin is a multiple of the alignment and whose end is at most the
    block's size; the range stored in the block is that interval. *)
Theorem Commit_aligned_within_block this a size alignment c a' :
  is_u64 alignment ->
  MemoryAllocation.Commit this a size alignment = Ok (Some (c, a')) ->
  has_single_bit alignment = true
  /\ fst (mc_interval c) mod alignment = 0
  /\ snd (mc_interval c) <= MemoryAllocation.allocation_size a
  /\ {| r_begin := fst (mc_interval c); r_end := snd (mc_interval c) |}
       ∈ MemoryAllocation.commits a'.
Proof.
  intros Hu H. apply Commit_inv in H as (alloc & Hf & -> & ->).
  destruct (FindFreeRegion_fits _ _ _ _ Hu Hf) as (_ & Hal & Hcap).
  split.
  { unfold MemoryAllocation.FindFreeRegion in Hf.
    by destruct (has_single_bit alignment). }
  simpl. split; [done |]. split; [done |]. apply insert_upper_bound_In.
Qed.

Lemma Commit_aligned_within_block_witness :
  let a := MemoryAllocation.mk 7 4194304 6 2 [mkRange 0 100; mkRange 256 300] in
  exists c a',
    MemoryAllocation.Commit 0 a 64 128 = Ok (Some (c, a'))
    /\ mc_interval c = (128, 192)
    /\ fst (mc_interval c) mod 128 = 0
    /\ snd (mc_interval c) <= 4194304.
Proof.
  intros a.
  destruct (MemoryAllocation.Commit 0 a 64 128) as [[[c a'] |] | e] eqn:E;
    try (vm_compute in E; discriminate).
  exists c, a'. split; [done |].
  assert (Hu : is_u64 128) by (unfold is_u64; lia).
  pose proof (Commit_aligned_within_block 0 a 64 128 c a' Hu E) as (_ & H1 & H2 & _).
  split; [| by split].
  vm_compute in E. by injection E as <- _.
Defined.

(** ** The free-region search: the region found is free *)

Section FindFreeRegion_free.
Variables (A size k : Z).
Hypothesis Hk : 0 <= k < 64.
Hypothesis HA : 0 <= A < 2 ^ 63.
Hypothesis Hsize : 0 <= size <= A.

Lemma AlignUpLog2_small v :
  0 <= v <= A ->
  v <= AlignUpLog2 v k <= 2 ^ 63 /\ AlignUpLog2 v k mod 2 ^ k = 0.
Proof.
  intros Hv. pose proof (pow2_le_63 k Hk) as Hp.
  split; [split |].
  - apply AlignUpLog2_ge; lia.
  - apply AlignUpLog2_least; [lia .. | | lia].
    replace 63 with ((63 - k) + k) by lia.
    rewrite Z.pow_add_r by lia. apply Z.mod_mul. lia.
  - by apply AlignUpLog2_multiple.
Qed.

Lemma Contains_no_wrap r c :
  0 <= c -> c + size <= A ->
  Contains r c size = false <-> free_at size c r.
Proof.
  intros Hc Hcs. unfold Contains, free_at.
  rewrite wrap64_small by lia.
  rewrite andb_false_iff, !Z.ltb_ge. lia.
Qed.

(** The loop, with [seen] the ranges already passed and [rest] those
    ahead.  A surviving candidate misses every range passed; when it
    lies before the iterator it ends before every range ahead begins;
    without a candidate the iterator is past every range passed. *)
Lemma FindFreeRegion_loop_free rest :
  forall seen candidate iterator c,
    StronglySorted begin_le rest ->
    (forall d r, d ∈ seen -> r ∈ rest -> begin_le d r) ->
    Forall (fun r => 0 <= r_end r <= A) rest ->
    0 <= iterator <= 2 ^ 63 -> iterator mod 2 ^ k = 0 ->
    (forall c0, candidate = Some c0 ->
       0 <= c0 /\ c0 + size <= A /\ c0 mod 2 ^ k = 0
       /\ Forall (free_at size c0) seen
       /\ (c0 < iterator -> Forall (fun r => c0 + size <= r_begin r) rest)) ->
    (candidate = None -> Forall (fun r => r_end r <= iterator) seen) ->
    MemoryAllocation.FindFreeRegion_loop A size k candidate iterator rest = Some c ->
    0 <= c /\ c + size <= A
    /\ Forall (free_at size c) seen /\ Forall (free_at size c) rest.
Proof.
  induction rest as [| r rest IH];
    intros seen candidate iterator c Hsorted Hsr Hends Hit Hal Hsome Hnone; simpl.
  - destruct (Z.leb_spec (wrap64 (iterator + size)) A) as [Hle | Hgt].
    + rewrite wrap64_small in Hle by lia. intros [= <-].
      destruct candidate as [c0 |]; simpl.
      * destruct (Hsome c0 eq_refl) as (? & ? & ? & ? & _). by repeat split.
      * repeat split; [lia | lia | | done].
        eapply Forall_impl; [by apply Hnone |]. unfold free_at. simpl. lia.
    + intros ->. destruct (Hsome c eq_refl) as (? & ? & ? & ? & _). by repeat split.
  - apply StronglySorted_inv in Hsorted as [Hsorted Hhead].
    apply Forall_cons in Hends as [Hr Hends]. simpl in Hr.
    destruct (AlignUpLog2_small (r_end r) Hr) as [Hnext Hnext_al].
    destruct (Z.leb_spec (wrap64 (iterator + size)) A) as [Hle | Hgt].
    + rewrite wrap64_small in Hle by lia.
      set (c1 := default iterator candidate).
      assert (Hc1 : 0 <= c1 /\ c1 + size <= A /\ c1 mod 2 ^ k = 0
                    /\ Forall (free_at size c1) seen).
      { subst c1. destruct candidate as [c0 |]; simpl.
        - destruct (Hsome c0 eq_refl) as (? & ? & ? & ? & _). by repeat split.
        - repeat split; [lia | lia | done |].
          eapply Forall_impl; [by apply Hnone |]. unfold free_at. simpl. lia. }
      destruct Hc1 as (Hc1_0 & Hc1_A & Hc1_al & Hc1_seen).
      intros Hloop.
      assert (Hsr' : forall d r0, d ∈ r :: seen -> r0 ∈ rest -> begin_le d r0).
      { intros d r0 Hd Hr0. apply elem_of_cons in Hd as [-> | Hd].
        - rewrite Forall_forall in Hhead. by apply Hhead.
        - apply Hsr; [done | by right]. }
      assert (Hit' : 0 <= AlignUpLog2 (r_end r) k <= 2 ^ 63) by lia.
      pose proof (fun cand' => IH (r :: seen) cand' (AlignUpLog2 (r_end r) k) c
                                  Hsorted Hsr' Hends Hit' Hnext_al) as IH'.
      destruct (Contains r c1 size) eqn:Hcont.
      * (* the candidate is discarded *)
        assert (Hov : c1 < r_end r /\ r_begin r < c1 + size).
        { unfold Contains in Hcont. rewrite wrap64_small in Hcont by lia.
          apply andb_true_iff in Hcont as [H1 H2].
          apply Z.ltb_lt in H1, H2. done. }
        assert (Hpast : Forall (fun r0 => r_end r0 <= AlignUpLog2 (r_end r) k)
                          (r :: seen)).
        { apply Forall_cons. split; [lia |].
          rewrite Forall_forall in Hc1_seen |- *. intros d Hd.
          specialize (Hc1_seen d Hd). unfold free_at in Hc1_seen.
          assert (begin_le d r) by (apply Hsr; [done | by left]).
          unfold begin_le in *. lia. }
        destruct (IH' None) as (? & ? & Hseen & Hrest); [done | done | done |].
        apply Forall_cons in Hseen as [? ?].
        repeat split; try done. by apply Forall_cons.
      * (* the candidate survives this range *)
        apply Contains_no_wrap in Hcont; [| done ..].
        assert (Hahead : c1 < AlignUpLog2 (r_end r) k ->
                         Forall (fun r0 => c1 + size <= r_begin r0) rest).
        { intros Hlt.
          assert (c1 < r_end r).
          { destruct (Z.lt_ge_cases c1 (r_end r)) as [| Hge]; [done | exfalso].
            pose proof (pow2_le_63 k Hk).
            assert (AlignUpLog2 (r_end r) k <= c1); [| lia].
            apply AlignUpLog2_least; lia. }
          unfold free_at in Hcont.
          rewrite Forall_forall in Hhead |- *. intros r0 Hr0.
          specialize (Hhead r0 Hr0). unfold begin_le in Hhead. lia. }
        destruct (IH' (Some c1)) as (? & ? & Hseen & Hrest); [| done | done |].
        { intros c0 [= <-]. repeat split; try done. by apply Forall_cons. }
        apply Forall_cons in Hseen as [? ?].
        repeat split; try done. by apply Forall_cons.
    + intros ->. destruct (Hsome c eq_refl) as (? & ? & ? & ? & Hahead).
      repeat split; try done.
      rewrite wrap64_small in Hgt by lia.
      eapply Forall_impl; [apply Hahead; lia |].
      unfold free_at. simpl. lia.
Qed.
End FindFreeRegion_free.

(** ** The invariant of a block's commit list *)

Lemma overlap_sym a b : overlap a b -> overlap b a.
Proof. unfold overlap. lia. Qed.

Lemma disjoint_list_pairwise l : disjoint_list l -> pairwise_disjoint l.
Proof.
  induction l as [| r l IH]; intros Hd i j a b Hij Hi Hj; [done |].
  destruct Hd as [Hr Hd]. rewrite Forall_forall in Hr.
  destruct i as [| i], j as [| j]; simpl in *; simplify_eq.
  - apply Hr. by eapply list_elem_of_lookup_2.
  - intros Hov%overlap_sym. revert Hov. apply Hr. by eapply list_elem_of_lookup_2.
  - eapply (IH Hd i j); [lia | done | done].
Qed.

Lemma insert_upper_bound_perm range l :
  MemoryAllocation.insert_upper_bound range l ≡ₚ range :: l.
Proof.
  induction l as [| x l IH]; simpl; [done |].
  destruct (r_begin range <? r_begin x); [done |].
  rewrite IH. apply perm_swap.
Qed.

Lemma insert_upper_bound_sorted range l :
  StronglySorted begin_le l ->
  StronglySorted begin_le (MemoryAllocation.insert_upper_bound range l).
Proof.
  induction l as [| x l IH]; intros Hs; simpl.
  - repeat constructor.
  - apply StronglySorted_inv in Hs as [Hs Hx].
    destruct (Z.ltb_spec (r_begin range) (r_begin x)) as [Hlt | Hge].
    + constructor; [by constructor |].
      constructor; [unfold begin_le; lia |].
      eapply Forall_impl; [exact Hx |]. unfold begin_le. simpl. lia.
    + constructor; [by apply IH |].
      rewrite insert_upper_bound_perm. by constructor.
Qed.

Lemma insert_upper_bound_disjoint range l :
  disjoint_list l -> Forall (fun b => ~ overlap range b) l ->
  disjoint_list (MemoryAllocation.insert_upper_bound range l).
Proof.
  induction l as [| x l IH]; intros Hd Hr; simpl; [done |].
  destruct Hd as [Hx Hd]. apply Forall_cons in Hr as [Hrx Hr].
  destruct (r_begin range <? r_begin x); simpl.
  - split; [by constructor | done].
  - split; [| by apply IH].
    rewrite insert_upper_bound_perm. constructor; [| done].
    intros Hov%overlap_sym. done.
Qed.

Lemma erase_first_spec begin l l' :
  MemoryAllocation.erase_first begin l = Some l' ->
  exists l1 r l2,
    l = l1 ++ r :: l2 /\ l' = l1 ++ l2 /\ r_begin r = begin
    /\ Forall (fun x => r_begin x <> begin) l1.
Proof.
  revert l'. induction l as [| x l IH]; intros l'; simpl; [done |].
  destruct (Z.eqb_spec (r_begin x) begin) as [Heq | Hne].
  - intros [= <-]. by exists [], x, l.
  - destruct (MemoryAllocation.erase_first begin l) as [l'' |]; [| done].
    intros [= <-]. destruct (IH l'' eq_refl) as (l1 & r & l2 & -> & -> & Hr & Hl1).
    exists (x :: l1), r, l2. repeat split; try done. by constructor.
Qed.

Lemma erase_first_none begin l :
  MemoryAllocation.erase_first begin l = None <->
  Forall (fun x => r_begin x <> begin) l.
Proof.
  induction l as [| x l IH]; simpl; [done |].
  destruct (Z.eqb_spec (r_begin x) begin) as [Heq | Hne].
  - split; [done |]. intros [? _]%Forall_cons. done.
  - destruct (MemoryAllocation.erase_first begin l).
    + split; [done |]. intros [_ H]%Forall_cons. by apply IH in H.
    + split; [| done]. intros _. constructor; [done |]. by apply IH.
Qed.

Lemma disjoint_list_app_remove l1 r l2 :
  disjoint_list (l1 ++ r :: l2) -> disjoint_list (l1 ++ l2).
Proof.
  induction l1 as [| x l1 IH]; simpl.
  - by intros [_ ?].
  - intros [Hx Hd]. split; [| by apply IH].
    rewrite Forall_app in Hx |- *. destruct Hx as [? [_ ?]%Forall_cons]. done.
Qed.

Lemma block_inv_nil A : block_inv A [].
Proof. split; simpl; [constructor | constructor | done]. Qed.

Lemma block_inv_erase A begin l l' :
  block_inv A l -> MemoryAllocation.erase_first begin l = Some l' -> block_inv A l'.
Proof.
  intros [Hs He Hd] (l1 & r & l2 & -> & -> & _ & _)%erase_first_spec. split.
  - apply StronglySorted_app in Hs as (Hcross & Hs1 & Hs2).
    apply StronglySorted_cons in Hs2 as [_ Hs2].
    apply StronglySorted_app_2; [| done | done].
    intros x1 x2 H1 H2. apply Hcross; [done | by right].
  - rewrite Forall_app in He |- *. destruct He as [? [_ ?]%Forall_cons]. done.
  - by eapply disjoint_list_app_remove.
Qed.

Lemma FindFreeRegion_free a size alignment c :
  let A := MemoryAllocation.allocation_size a in
  0 <= A < 2 ^ 63 -> is_u64 size -> is_u64 alignment ->
  StronglySorted begin_le (MemoryAllocation.commits a) ->
  Forall (fun r => 0 <= r_end r <= A) (MemoryAllocation.commits a) ->
  MemoryAllocation.FindFreeRegion a size alignment = Ok (Some c) ->
  0 <= c /\ c + size <= A
  /\ Forall (free_at size c) (MemoryAllocation.commits a).
Proof.
  intros A HA Hsize Hal Hs He. unfold MemoryAllocation.FindFreeRegion.
  destruct (has_single_bit alignment) eqn:Hsb; [| done].
  destruct (has_single_bit_u64 _ Hsb Hal) as (k & Hk & _ & Hc).
  rewrite Hc. intros [= H]. fold A in H.
  destruct (Z.le_gt_cases size A) as [Hle | Hgt].
  - assert (Hz : 0 mod 2 ^ k = 0) by (apply Z.mod_0_l, Z.pow_nonzero; lia).
    assert (H63 : 0 <= 0 <= 2 ^ 63) by lia.
    assert (Hnil : forall d r : Range,
               d ∈ [] -> r ∈ MemoryAllocation.commits a -> begin_le d r).
    { intros d r Hd. by apply elem_of_nil in Hd. }
    destruct (FindFreeRegion_loop_free A size k Hk HA (conj (proj1 Hsize) Hle)
                (MemoryAllocation.commits a) [] None 0 c Hs Hnil He H63 Hz)
      as (? & ? & _ & ?);
      [intros ? [=] | by intros; constructor | exact H | by repeat split].
  - exfalso. destruct (MemoryAllocation.commits a); simpl in H;
      rewrite wrap64_small in H by (unfold is_u64 in Hsize; lia);
      rewrite (proj2 (Z.leb_gt _ _)) in H by lia; done.
Qed.

Lemma block_inv_Commit this a size alignment c a' :
  let A := MemoryAllocation.allocation_size a in
  0 <= A < 2 ^ 63 -> is_u64 size -> is_u64 alignment ->
  block_inv A (MemoryAllocation.commits a) ->
  MemoryAllocation.Commit this a size alignment = Ok (Some (c, a')) ->
  MemoryAllocation.allocation_size a' = A
  /\ block_inv A (MemoryAllocation.commits a')
  /\ snd (mc_interval c) = fst (mc_interval c) + size.
Proof.
  intros A HA Hsize Hal [Hs He Hd] (alloc & Hf & -> & ->)%Commit_inv.
  destruct (FindFreeRegion_free a size alignment alloc HA Hsize Hal Hs He Hf)
    as (H0 & Hcap & Hfree).
  fold A in Hcap. simpl. unfold is_u64 in Hsize.
  rewrite wrap64_small by lia.
  split; [done |]. split; [| done]. split.
  - by apply insert_upper_bound_sorted.
  - rewrite insert_upper_bound_perm. constructor; [| done].
    simpl. lia.
  - apply insert_upper_bound_disjoint; [done |].
    eapply Forall_impl; [exact Hfree |].
    unfold free_at, overlap. simpl. intros r ?. lia.
Qed.

Lemma block_inv_step this op a a' :
  let A := MemoryAllocation.allocation_size a in
  0 <= A < 2 ^ 63 -> block_op_wf op ->
  block_inv A (MemoryAllocation.commits a) ->
  block_step this op a = Some a' ->
  MemoryAllocation.allocation_size a' = A
  /\ block_inv A (MemoryAllocation.commits a').
Proof.
  intros A HA Hwf Hinv. destruct op as [size alignment | begin]; simpl.
  - destruct Hwf as [Hsize Hal].
    destruct (MemoryAllocation.Commit this a size alignment)
      as [[[c a''] |] | e] eqn:E; try done.
    intros [= <-].
    destruct (block_inv_Commit this a size alignment c a'' HA Hsize Hal Hinv E)
      as (? & ? & _). done.
  - unfold MemoryAllocation.Free.
    destruct (MemoryAllocation.erase_first begin (MemoryAllocation.commits a))
      as [l' |] eqn:E; [| done].
    intros [= <-]. simpl. split; [done |]. by eapply block_inv_erase.
Qed.

Lemma block_run_take this ops :
  forall a a' n,
    block_run this ops a = Some a' ->
    exists a_n, block_run this (take n ops) a = Some a_n.
Proof.
  induction ops as [| op ops IH]; intros a a' n H.
  - rewrite take_nil. by exists a.
  - destruct n as [| n]; [by exists a |]. simpl in *.
    destruct (block_step this op a) as [a1 |]; [| done]. by eapply IH.
Qed.

Lemma block_inv_run this ops :
  forall a a',
    let A := MemoryAllocation.allocation_size a in
    0 <= A < 2 ^ 63 -> Forall block_op_wf ops ->
    block_inv A (MemoryAllocation.commits a) ->
    block_run this ops a = Some a' ->
    MemoryAllocation.allocation_size a' = A
    /\ block_inv A (MemoryAllocation.commits a').
Proof.
  induction ops as [| op ops IH]; intros a a' A HA Hwf Hinv; simpl.
  - by intros [= <-].
  - apply Forall_cons in Hwf as [Hop Hwf].
    destruct (block_step this op a) as [a1 |] eqn:E; [| done].
    destruct (block_inv_step this op a a1 HA Hop Hinv E) as [HA1 Hinv1].
    intros H. fold A in HA1, Hinv1.
    assert (HA1' : 0 <= MemoryAllocation.allocation_size a1 < 2 ^ 63) by by rewrite HA1.
    rewrite <- HA1 in Hinv1.
    destruct (IH a1 a' HA1' Hwf Hinv1 H) as [E1 E2]. rewrite HA1 in E1, E2. done.
Qed.

(** C1 (amended). In a block of fewer than [2 ^ 63] bytes, after every
    prefix of a sequence of successful [Commit] and [Free] calls that
    starts from the empty block, no two ranges stored in the commit list
    overlap. *)
Theorem commits_never_overlap this memory_ properties A type ops a :
  0 <= A < 2 ^ 63 ->
  Forall block_op_wf ops ->
  block_run this ops (MemoryAllocation.new memory_ properties A type) = Some a ->
  forall n, exists a_n,
    block_run this (take n ops) (MemoryAllocation.new memory_ properties A type)
      = Some a_n
    /\ pairwise_disjoint (MemoryAllocation.commits a_n).
Proof.
  intros HA Hwf Hrun n.
  destruct (block_run_take this ops _ a n Hrun) as [a_n Hn].
  exists a_n. split; [done |].
  apply disjoint_list_pairwise.
  apply (block_inv_run this (take n ops)
           (MemoryAllocation.new memory_ properties A type) a_n);
    [exact HA | by apply Forall_take | apply block_inv_nil | exact Hn].
Qed.

Lemma commits_never_overlap_witness :
  exists a_n,
    block_run 0 (take 4 [DoCommit 64 16; DoCommit 32 32; DoFree 0; DoCommit 16 8; DoFree 64])
      (MemoryAllocation.new 7 6 4096 1) = Some a_n
    /\ pairwise_disjoint (MemoryAllocation.commits a_n).
Proof.
  eapply (commits_never_overlap 0 7 6 4096 1
            [DoCommit 64 16; DoCommit 32 32; DoFree 0; DoCommit 16 8; DoFree 64] _).
  - lia.
  - repeat constructor; unfold is_u64; lia.
  - vm_compute. reflexivity.
Defined.

(** C1 as stated fails in a block of [2 ^ 63 + 2 ^ 22] bytes: after a
    commit of the whole block, the rounding of its end to an alignment of
    [2 ^ 63] wraps to 0, and a second commit is placed at 0. *)
Lemma commits_overlap_after_wrap :
  Forall block_op_wf [DoCommit (2 ^ 63 + 2 ^ 22) 1; DoCommit 1 (2 ^ 63)]
  /\ has_single_bit 1 = true /\ has_single_bit (2 ^ 63) = true
  /\ exists a,
       block_run 0 [DoCommit (2 ^ 63 + 2 ^ 22) 1; DoCommit 1 (2 ^ 63)]
         (MemoryAllocation.new 0 1 (2 ^ 63 + 2 ^ 22) 0) = Some a
       /\ MemoryAllocation.commits a
          = [mkRange 0 (2 ^ 63 + 2 ^ 22); mkRange 0 1]
       /\ ~ pairwise_disjoint (MemoryAllocation.commits a).
Proof.
  split; [repeat constructor; unfold is_u64; lia |].
  split; [done |]. split; [done |].
  eexists. split; [vm_compute; reflexivity |]. split; [done |].
  intros H.
  apply (H 0%nat 1%nat (mkRange 0 (2 ^ 63 + 2 ^ 22)) (mkRange 0 1));
    first [done | unfold overlap; simpl; lia].
Qed.

(** ** Free *)

(** C9. [Free(begin)] fails its assertion exactly when no stored range
    has that begin; otherwise it removes one range, the first whose begin
    is the given value, and leaves the others, their order and the block's
    other fields as they were. *)
Theorem Free_removes_one_range a begin :
  (is_Ok (MemoryAllocation.Free a begin)
   <-> exists r, r ∈ MemoryAllocation.commits a /\ r_begin r = begin)
  /\ match MemoryAllocation.Free a begin with
     | Err e =>
         e = AssertionFailed
         /\ Forall (fun r => r_begin r <> begin) (MemoryAllocation.commits a)
     | Ok a' =>
         exists l1 r l2,
           MemoryAllocation.commits a = l1 ++ r :: l2
           /\ MemoryAllocation.commits a' = l1 ++ l2
           /\ r_begin r = begin
           /\ Forall (fun x => r_begin x <> begin) l1
           /\ length (MemoryAllocation.commits a)
              = S (length (MemoryAllocation.commits a'))
           /\ MemoryAllocation.allocation_size a' = MemoryAllocation.allocation_size a
           /\ MemoryAllocation.property_flags a' = MemoryAllocation.property_flags a
           /\ MemoryAllocation.shifted_memory_type a'
              = MemoryAllocation.shifted_memory_type a
           /\ MemoryAllocation.memory a' = MemoryAllocation.memory a
     end.
Proof.
  unfold MemoryAllocation.Free.
  destruct (MemoryAllocation.erase_first begin (MemoryAllocation.commits a))
    as [l' |] eqn:E.
  - destruct (erase_first_spec _ _ _ E) as (l1 & r & l2 & Hl & -> & Hr & Hl1).
    split.
    + split; [| by eexists]. intros _. exists r. split; [| done].
      rewrite Hl. apply elem_of_app. right. by left.
    + exists l1, r, l2. simpl. repeat split; try done.
      rewrite Hl, !length_app. simpl. lia.
  - apply erase_first_none in E. split; [| done].
    split; [by intros [? ?] |].
    intros (r & Hr & Hb). rewrite Forall_forall in E. by destruct (E r Hr).
Qed.

(** ** IsCompatible and FindType *)

Lemma IsCompatible_spec a flags type_mask :
  MemoryAllocation.IsCompatible a flags type_mask = true
  <-> Z.land flags (MemoryAllocation.property_flags a) <> 0
      /\ Z.land type_mask (MemoryAllocation.shifted_memory_type a) <> 0.
Proof.
  unfold MemoryAllocation.IsCompatible, nonzero.
  rewrite andb_true_iff, !negb_true_iff, !Z.eqb_neq. done.
Qed.

(** C2, the code at a failing input. A block created for [Upload]
    (host-visible and host-coherent) at type 1 is reported compatible with
    the [Download] flags, although it lacks the host-cached bit; and with
    no flag requested, where every requested bit is present, it is
    reported incompatible. *)
Theorem IsCompatible_any_common_bit :
  let upload_block := MemoryAllocation.new 1 (MemoryUsagePropertyFlags Upload) 4194304 1 in
  MemoryAllocation.IsCompatible upload_block (MemoryUsagePropertyFlags Download) 2 = true
  /\ Z.land (MemoryUsagePropertyFlags Download)
            (MemoryAllocation.property_flags upload_block)
     <> MemoryUsagePropertyFlags Download
  /\ MemoryAllocation.IsCompatible upload_block 0 2 = false
  /\ Z.land 0 (MemoryAllocation.property_flags upload_block) = 0.
Proof. by vm_compute. Qed.

Lemma FindType_from_spec types :
  forall type_index flags type_mask i,
    MemoryAllocator.FindType_from types type_index flags type_mask = Some i ->
    exists n type_flags,
      i = type_index + Z.of_nat n
      /\ types !! n = Some type_flags
      /\ Z.land type_mask (wrap32 (Z.shiftl 1 i)) <> 0
      /\ Z.land type_flags flags <> 0
      /\ forall m tf, (m < n)%nat -> types !! m = Some tf ->
           Z.land type_mask (wrap32 (Z.shiftl 1 (type_index + Z.of_nat m))) = 0
           \/ Z.land tf flags = 0.
Proof.
  induction types as [| tf types IH]; intros type_index flags type_mask i; simpl; [done |].
  destruct (nonzero (Z.land type_mask (wrap32 (Z.shiftl 1 type_index)))
            && nonzero (Z.land tf flags)) eqn:E.
  - intros [= <-]. exists 0%nat, tf.
    apply andb_true_iff in E as [E1 E2].
    unfold nonzero in E1, E2. rewrite negb_true_iff, Z.eqb_neq in E1, E2.
    rewrite Z.add_0_r. repeat split; try done. lia.
  - intros (n & type_flags & -> & Hn & H1 & H2 & Hmin)%IH.
    exists (S n), type_flags.
    replace (type_index + Z.of_nat (S n)) with (type_index + 1 + Z.of_nat n) by lia.
    repeat split; try done.
    intros [| m] tf' Hm; simpl.
    + intros [= <-]. rewrite Z.add_0_r.
      apply andb_false_iff in E as [E | E];
        unfold nonzero in E; rewrite negb_false_iff, Z.eqb_eq in E; auto.
    + intros Hl.
      replace (type_index + Z.of_nat (S m)) with (type_index + 1 + Z.of_nat m) by lia.
      apply Hmin; [lia | done].
Qed.

Lemma FindType_from_none types :
  forall type_index flags type_mask,
    MemoryAllocator.FindType_from types type_index flags type_mask = None ->
    forall m tf, types !! m = Some tf ->
      Z.land type_mask (wrap32 (Z.shiftl 1 (type_index + Z.of_nat m))) = 0
      \/ Z.land tf flags = 0.
Proof.
  induction types as [| tf types IH]; intros type_index flags type_mask; simpl; [done |].
  destruct (nonzero (Z.land type_mask (wrap32 (Z.shiftl 1 type_index)))
            && nonzero (Z.land tf flags)) eqn:E; [done |].
  intros Hnone [| m] tf'; simpl.
  - intros [= <-]. rewrite Z.add_0_r.
    apply andb_false_iff in E as [E | E];
      unfold nonzero in E; rewrite negb_false_iff, Z.eqb_eq in E; auto.
  - intros Hl.
    replace (type_index + Z.of_nat (S m)) with (type_index + 1 + Z.of_nat m) by lia.
    by eapply IH.
Qed.

(** C3, the code at a failing input. On a device whose only memory type
    is host-visible and host-coherent, [FindType] answers type 0 for the
    [Download] flags, of which that type's flags are not a superset; and
    for an empty flag set, of which every type's flags are a superset, it
    answers nothing. *)
Theorem FindType_any_common_bit :
  let al := MemoryAllocator.new (mkDevice [MemoryUsagePropertyFlags Upload]
                                          (fun _ _ => Some 1)) in
  MemoryAllocator.FindType al (MemoryUsagePropertyFlags Download) 1 = Some 0
  /\ Z.land (MemoryUsagePropertyFlags Upload) (MemoryUsagePropertyFlags Download)
     <> MemoryUsagePropertyFlags Download
  /\ MemoryAllocator.FindType al 0 1 = None
  /\ Z.land (MemoryUsagePropertyFlags Upload) 0 = 0.
Proof. by vm_compute. Qed.

(** ** Chunk sizing *)

Lemma sizes_values :
  sizes = [4194304; 5242880; 6291456; 7340032; 8388608; 13107200; 16777216;
           25165824; 33554432; 41943040; 67108864; 100663296; 134217728].
Proof. reflexivity. Qed.

(** The [static_assert] of the source. *)
Lemma sizes_sorted : StronglySorted Z.le sizes.
Proof. rewrite sizes_values. repeat constructor; lia. Qed.

Lemma lower_bound_spec l v :
  StronglySorted Z.le l ->
  match lower_bound l v with
  | Some s => s ∈ l /\ v <= s /\ forall s', s' ∈ l -> v <= s' -> s <= s'
  | None => Forall (fun s => s < v) l
  end.
Proof.
  induction l as [| x l IH]; intros Hs; simpl; [done |].
  apply StronglySorted_cons in Hs as [Hx Hs].
  destruct (Z.ltb_spec x v) as [Hlt | Hge].
  - specialize (IH Hs). destruct (lower_bound l v) as [s |].
    + destruct IH as (Hin & Hle & Hmin). split; [by right |]. split; [done |].
      intros s' [-> | Hs']%elem_of_cons; [lia | by apply Hmin].
    + by constructor.
  - split; [by left |]. split; [done |].
    rewrite Forall_forall in Hx.
    intros s' [-> | Hs']%elem_of_cons _; [lia | by apply Hx].
Qed.

Lemma AlignUp_4MiB x :
  0 <= x <= 2 ^ 64 - 2 ^ 22 ->
  AlignUp x (Z.shiftl 4 20) mod 2 ^ 22 = 0
  /\ x <= AlignUp x (Z.shiftl 4 20) < x + 2 ^ 22.
Proof.
  intros Hx. unfold AlignUp. change (Z.shiftl 4 20) with (2 ^ 22).
  pose proof (Z.mod_pos_bound x (2 ^ 22) ltac:(lia)) as Hm.
  pose proof (Z.div_mod x (2 ^ 22) ltac:(lia)) as Hd.
  assert (Hmul : (x - x mod 2 ^ 22) mod 2 ^ 22 = 0).
  { replace (x - x mod 2 ^ 22) with (x / 2 ^ 22 * 2 ^ 22) by lia.
    apply Z.mod_mul. lia. }
  destruct (Z.eqb_spec (x mod 2 ^ 22) 0) as [H0 | Hn0].
  - split; [done | lia].
  - rewrite wrap64_small by lia. split; [| lia].
    rewrite <- Z.add_mod_idemp_l, Hmul by lia. done.
Qed.

Lemma AllocationChunkSize_table x :
  x <= 134217728 ->
  AllocationChunkSize x ∈ sizes /\ x <= AllocationChunkSize x
  /\ forall s, s ∈ sizes -> x <= s -> AllocationChunkSize x <= s.
Proof.
  intros Hx. unfold AllocationChunkSize.
  pose proof (lower_bound_spec sizes x sizes_sorted) as H.
  destruct (lower_bound sizes x) as [s |]; [done | exfalso].
  rewrite Forall_forall in H. specialize (H 134217728).
  rewrite sizes_values in H. assert (134217728 < x); [| lia].
  apply H. repeat first [by left | right].
Qed.

Lemma AllocationChunkSize_large x :
  134217728 < x ->
  AllocationChunkSize x = AlignUp x (Z.shiftl 4 20).
Proof.
  intros Hx. unfold AllocationChunkSize.
  pose proof (lower_bound_spec sizes x sizes_sorted) as H.
  destruct (lower_bound sizes x) as [s |]; [exfalso | done].
  destruct H as (Hin & Hle & _). rewrite sizes_values in Hin.
  repeat (apply elem_of_cons in Hin as [-> | Hin]; [lia |]).
  by apply elem_of_nil in Hin.
Qed.

Lemma AllocationChunkSize_ge x :
  0 <= x <= 2 ^ 64 - 2 ^ 22 -> x <= AllocationChunkSize x.
Proof.
  intros Hx. destruct (Z.le_gt_cases x 134217728) as [Hle | Hgt].
  - by apply AllocationChunkSize_table.
  - rewrite AllocationChunkSize_large by done. by apply AlignUp_4MiB.
Qed.

(** C4 (amended). For sizes up to [2 ^ 64 - 2 ^ 22], the largest for which
    the rounding fits in 64 bits, [AllocationChunkSize] is at least its
    argument and monotonic; up to the table's maximum it is the smallest
    table entry at or above the argument; above it, it is the argument
    rounded up to the next multiple of 4 MiB. *)
Theorem AllocationChunkSize_spec x y :
  0 <= x <= y -> y <= 2 ^ 64 - 2 ^ 22 ->
  x <= AllocationChunkSize x
  /\ AllocationChunkSize x <= AllocationChunkSize y
  /\ (x <= 134217728 ->
      AllocationChunkSize x ∈ sizes
      /\ forall s, s ∈ sizes -> x <= s -> AllocationChunkSize x <= s)
  /\ (134217728 < x ->
      AllocationChunkSize x mod (4 * 2 ^ 20) = 0
      /\ AllocationChunkSize x < x + 4 * 2 ^ 20).
Proof.
  intros Hxy Hy.
  split; [apply AllocationChunkSize_ge; lia |].
  split; [| split].
  - destruct (Z.le_gt_cases x 134217728) as [Hx | Hx].
    + destruct (AllocationChunkSize_table x Hx) as (Hin & Hle & Hmin).
      destruct (Z.le_gt_cases y 134217728) as [Hy' | Hy'].
      * destruct (AllocationChunkSize_table y Hy') as (Hiny & Hley & _).
        apply Hmin; [done | lia].
      * assert (AllocationChunkSize x <= 134217728).
        { apply Hmin; [| done]. rewrite sizes_values.
          repeat first [by left | right]. }
        assert (y <= AllocationChunkSize y) by (apply AllocationChunkSize_ge; lia).
        lia.
    + rewrite !AllocationChunkSize_large by lia.
      destruct (AlignUp_4MiB x ltac:(lia)) as [Hmx Hbx].
      destruct (AlignUp_4MiB y ltac:(lia)) as [Hmy Hby].
      apply Z.mod_divide in Hmx, Hmy; [| lia ..].
      destruct Hmx as [qx Hqx], Hmy as [qy Hqy]. lia.
  - intros Hx. destruct (AllocationChunkSize_table x Hx) as (? & _ & ?). done.
  - intros Hx. rewrite AllocationChunkSize_large by done.
    change (4 * 2 ^ 20) with (2 ^ 22).
    destruct (AlignUp_4MiB x ltac:(lia)) as [? ?]. split; [done | lia].
Qed.

Lemma AllocationChunkSize_spec_witness :
  65536 <= AllocationChunkSize 65536
  /\ AllocationChunkSize 65536 <= AllocationChunkSize 200000000
  /\ (65536 <= 134217728 ->
      AllocationChunkSize 65536 ∈ sizes
      /\ forall s, s ∈ sizes -> 65536 <= s -> AllocationChunkSize 65536 <= s)
  /\ (134217728 < 65536 ->
      AllocationChunkSize 65536 mod (4 * 2 ^ 20) = 0
      /\ AllocationChunkSize 65536 < 65536 + 4 * 2 ^ 20).
Proof. apply (AllocationChunkSize_spec 65536 200000000); lia. Defined.

(** C4 as stated fails at the top of the 64-bit range: the rounding of
    [2 ^ 64 - 1] wraps to 0, which is below the argument and below the
    chunk size of the smaller argument [2 ^ 64 - 2 ^ 22].  No 64-bit value
    is both at least [2 ^ 64 - 1] and a multiple of 4 MiB. *)
Lemma AllocationChunkSize_wraps :
  is_u64 (2 ^ 64 - 1)
  /\ AllocationChunkSize (2 ^ 64 - 1) = 0
  /\ ~ (2 ^ 64 - 1 <= AllocationChunkSize (2 ^ 64 - 1))
  /\ 2 ^ 64 - 2 ^ 22 <= 2 ^ 64 - 1
  /\ ~ (AllocationChunkSize (2 ^ 64 - 2 ^ 22) <= AllocationChunkSize (2 ^ 64 - 1))
  /\ (forall r, is_u64 r -> 2 ^ 64 - 1 <= r -> r mod (4 * 2 ^ 20) <> 0).
Proof.
  assert (E1 : AllocationChunkSize (2 ^ 64 - 1) = 0) by by vm_compute.
  assert (E2 : AllocationChunkSize (2 ^ 64 - 2 ^ 22) = 2 ^ 64 - 2 ^ 22) by by vm_compute.
  rewrite E1, E2. unfold is_u64.
  repeat split; try lia.
  intros r Hr Hge. assert (r = 2 ^ 64 - 1) as -> by lia. by vm_compute.
Qed.

(** ** Flag resolution *)

Lemma clear_flag_bits flags k n :
  0 <= k -> 0 <= n ->
  Z.testbit (clear_flag flags (2 ^ k)) n
  = Z.testbit flags n && ((n <? 32) && negb (k =? n)).
Proof.
  intros Hk Hn. unfold clear_flag, wrap32.
  rewrite Z.land_spec, Z.testbit_mod_pow2, Z.lnot_spec, Z.pow2_bits_eqb by lia.
  done.
Qed.

Lemma clear_flag_clears flags k : 0 <= k -> Z.land (clear_flag flags (2 ^ k)) (2 ^ k) = 0.
Proof.
  intros Hk. apply Z.bits_inj'. intros n Hn.
  rewrite Z.land_spec, clear_flag_bits, Z.pow2_bits_eqb, Z.bits_0 by lia.
  destruct (k =? n); simpl; by rewrite ?andb_false_r.
Qed.

Lemma clear_flag_keeps_clear flags j k :
  0 <= j -> 0 <= k -> Z.land flags (2 ^ k) = 0 ->
  Z.land (clear_flag flags (2 ^ j)) (2 ^ k) = 0.
Proof.
  intros Hj Hk H. apply Z.bits_inj'. intros n Hn.
  apply (f_equal (fun z => Z.testbit z n)) in H.
  rewrite Z.land_spec, Z.pow2_bits_eqb, Z.bits_0 in H by lia.
  rewrite Z.land_spec, clear_flag_bits, Z.pow2_bits_eqb, Z.bits_0 by lia.
  destruct (k =? n); [| by rewrite andb_false_r].
  rewrite andb_true_r in H. by rewrite H.
Qed.

Lemma nonzero_false x : nonzero x = false <-> x = 0.
Proof. unfold nonzero. by rewrite negb_false_iff, Z.eqb_eq. Qed.

Lemma MemoryPropertyFlags_fuel_stable al type_mask n :
  forall flags m,
    (droppable flags < n)%nat -> (n <= m)%nat ->
    MemoryAllocator.MemoryPropertyFlags_fuel m al type_mask flags
    = MemoryAllocator.MemoryPropertyFlags_fuel n al type_mask flags
    /\ MemoryAllocator.MemoryPropertyFlags_fuel n al type_mask flags <> Err OutOfFuel.
Proof.
  induction n as [| n IH]; intros flags m Hd Hm; [lia |].
  destruct m as [| m]; [lia |]. simpl.
  destruct (is_some (MemoryAllocator.FindType al flags type_mask)); [done |].
  unfold droppable in Hd.
  change VK_MEMORY_PROPERTY_HOST_CACHED_BIT with (2 ^ 3) in *.
  change VK_MEMORY_PROPERTY_DEVICE_LOCAL_BIT with (2 ^ 0) in *.
  fold (clear_flag flags (2 ^ 3)). fold (clear_flag flags (2 ^ 0)).
  destruct (nonzero (Z.land flags (2 ^ 3))) eqn:Hhc.
  - apply IH; [| lia]. unfold droppable.
    change VK_MEMORY_PROPERTY_HOST_CACHED_BIT with (2 ^ 3).
    change VK_MEMORY_PROPERTY_DEVICE_LOCAL_BIT with (2 ^ 0).
    rewrite (proj2 (nonzero_false _) (clear_flag_clears flags 3 ltac:(lia))).
    destruct (nonzero (Z.land flags (2 ^ 0))) eqn:Hdl.
    + destruct (nonzero (Z.land (clear_flag flags (2 ^ 3)) (2 ^ 0))); simpl in *; lia.
    + apply nonzero_false in Hdl.
      rewrite (proj2 (nonzero_false _)
                 (clear_flag_keeps_clear flags 3 0 ltac:(lia) ltac:(lia) Hdl)).
      simpl in *; lia.
  - destruct (nonzero (Z.land flags (2 ^ 0))) eqn:Hdl; [| done].
    apply IH; [| lia]. unfold droppable.
    change VK_MEMORY_PROPERTY_HOST_CACHED_BIT with (2 ^ 3).
    change VK_MEMORY_PROPERTY_DEVICE_LOCAL_BIT with (2 ^ 0).
    rewrite (proj2 (nonzero_false _) (clear_flag_clears flags 0 ltac:(lia))).
    apply nonzero_false in Hhc.
    rewrite (proj2 (nonzero_false _)
               (clear_flag_keeps_clear flags 0 3 ltac:(lia) ltac:(lia) Hhc)).
    simpl. lia.
Qed.

Lemma droppable_le_2 flags : (droppable flags <= 2)%nat.
Proof.
  unfold droppable.
  destruct (nonzero _), (nonzero _); simpl; lia.
Qed.

(** The recursion equation of the source, free of fuel. *)
Lemma MemoryPropertyFlags_unfold al type_mask flags :
  MemoryAllocator.MemoryPropertyFlags al type_mask flags
  = if is_some (MemoryAllocator.FindType al flags type_mask) then Ok flags
    else if nonzero (Z.land flags VK_MEMORY_PROPERTY_HOST_CACHED_BIT) then
      MemoryAllocator.MemoryPropertyFlags al type_mask
        (clear_flag flags VK_MEMORY_PROPERTY_HOST_CACHED_BIT)
    else if nonzero (Z.land flags VK_MEMORY_PROPERTY_DEVICE_LOCAL_BIT) then
      MemoryAllocator.MemoryPropertyFlags al type_mask
        (clear_flag flags VK_MEMORY_PROPERTY_DEVICE_LOCAL_BIT)
    else Err Unreachable.
Proof.
  unfold MemoryAllocator.MemoryPropertyFlags.
  pose proof (droppable_le_2 flags).
  destruct (MemoryPropertyFlags_fuel_stable al type_mask 3 flags 4) as [<- _]; [lia .. |].
  reflexivity.
Qed.

Lemma MemoryPropertyFlags_found al type_mask flags f :
  MemoryAllocator.MemoryPropertyFlags al type_mask flags = Ok f ->
  exists type, MemoryAllocator.FindType al f type_mask = Some type.
Proof.
  unfold MemoryAllocator.MemoryPropertyFlags.
  generalize 3%nat. intros n. revert flags.
  induction n as [| n IH]; intros flags; simpl; [done |].
  destruct (MemoryAllocator.FindType al flags type_mask) as [t |] eqn:E; simpl.
  - intros [= <-]. by exists t.
  - destruct (nonzero _); [apply IH |].
    destruct (nonzero _); [apply IH | done].
Qed.

(** With the test [FindType] makes, a flag set that shares no bit with a
    type shares none after a bit is dropped: once the first search fails,
    the retries fail as well. *)
Lemma FindType_from_clear_flag types bit :
  forall type_index flags type_mask,
    MemoryAllocator.FindType_from types type_index flags type_mask = None ->
    MemoryAllocator.FindType_from types type_index (clear_flag flags bit) type_mask = None.
Proof.
  induction types as [| tf types IH]; intros type_index flags type_mask; simpl; [done |].
  destruct (nonzero (Z.land type_mask (wrap32 (Z.shiftl 1 type_index)))); simpl.
  - destruct (nonzero (Z.land tf flags)) eqn:E; [done |].
    apply nonzero_false in E. intros H.
    unfold clear_flag at 1. rewrite Z.land_assoc, E, Z.land_0_l. simpl. by apply IH.
  - apply IH.
Qed.

Lemma MemoryPropertyFlags_no_second_chance al type_mask flags :
  MemoryAllocator.FindType al flags type_mask = None ->
  MemoryAllocator.MemoryPropertyFlags al type_mask flags = Err Unreachable.
Proof.
  intros Hnone.
  assert (H : forall n f,
             MemoryAllocator.FindType al f type_mask = None ->
             MemoryAllocator.MemoryPropertyFlags_fuel n al type_mask f = Err Unreachable
             \/ MemoryAllocator.MemoryPropertyFlags_fuel n al type_mask f = Err OutOfFuel).
  { induction n as [| n IH]; intros f Hf; simpl; [by right |].
    rewrite Hf. simpl.
    destruct (nonzero _); [apply IH; by apply FindType_from_clear_flag |].
    destruct (nonzero _); [apply IH; by apply FindType_from_clear_flag |]. by left. }
  destruct (H 3%nat flags Hnone) as [? | Hfuel]; [done | exfalso].
  pose proof (droppable_le_2 flags).
  by destruct (MemoryPropertyFlags_fuel_stable al type_mask 3 flags 3) as [_ ?];
    [lia | lia |].
Qed.

(** A type that is a superset of a non-empty flag set shares a bit with
    it: where the specification's search finds a type, the source's does. *)
Lemma FindType_superset_from_found types :
  forall type_index flags type_mask,
    flags <> 0 ->
    is_some (FindType_superset_from types type_index flags type_mask) = true ->
    is_some (MemoryAllocator.FindType_from types type_index flags type_mask) = true.
Proof.
  induction types as [| tf types IH]; intros type_index flags type_mask Hnz; simpl;
    [done |].
  destruct (nonzero (Z.land type_mask (wrap32 (Z.shiftl 1 type_index)))); simpl;
    [| by apply IH].
  destruct (Z.eqb_spec (Z.land tf flags) flags) as [Heq | Hne].
  - intros _. unfold nonzero. rewrite Heq.
    by rewrite (proj2 (Z.eqb_neq _ _) Hnz).
  - destruct (nonzero (Z.land tf flags)); [done | by apply IH].
Qed.

Lemma MemoryPropertyFlags_superset_found al type_mask flags f :
  MemoryPropertyFlags_superset al type_mask flags = Ok f ->
  is_some (FindType_superset al f type_mask) = true.
Proof.
  unfold MemoryPropertyFlags_superset.
  generalize 3%nat. intros n. revert flags.
  induction n as [| n IH]; intros flags; simpl; [done |].
  destruct (is_some (FindType_superset al flags type_mask)) eqn:E.
  - by intros [= <-].
  - destruct (nonzero _); [apply IH |].
    destruct (nonzero _); [apply IH | done].
Qed.

Lemma MemoryPropertyFlags_Ok_same al type_mask flags f :
  MemoryAllocator.MemoryPropertyFlags al type_mask flags = Ok f -> f = flags.
Proof.
  destruct (MemoryAllocator.FindType al flags type_mask) as [t |] eqn:E.
  - rewrite MemoryPropertyFlags_unfold, E. simpl. by intros [= <-].
  - by rewrite (MemoryPropertyFlags_no_second_chance _ _ _ E).
Qed.

(** C6, the code against the claim.  The claim's "compatible memory type"
    is the specification's: the type's bit is in the mask and its flags
    are a superset of the flags wanted ([FindType_superset],
    [MemoryPropertyFlags_superset]).  The source's resolution agrees with
    it where a compatible type exists for a non-empty flag set, and
    nowhere else: it never returns flags other than those it was given,
    so whenever the claim's resolution has to drop a bit to succeed, the
    source returns something else.  At the first input below, a device
    whose only type is host-visible and host-coherent asked for the
    [Download] flags, the claim demands the flags without host-cached and
    the source returns them with host-cached.  At the second, a device
    with a device-local type and a host-visible type, the claim demands
    the unreachable failure, no type being host-visible and
    host-coherent, and the source returns the [Download] flags, for which
    [FindType] then picks the type that is not host-coherent.  The
    recursion of the source needs three levels at most. *)
Theorem MemoryPropertyFlags_never_degrades :
  (forall al type_mask flags n,
     (3 <= n)%nat ->
     MemoryAllocator.MemoryPropertyFlags_fuel n al type_mask flags
     = MemoryAllocator.MemoryPropertyFlags al type_mask flags
     /\ MemoryAllocator.MemoryPropertyFlags al type_mask flags <> Err OutOfFuel)
  /\ (forall al type_mask flags f,
        MemoryAllocator.MemoryPropertyFlags al type_mask flags = Ok f -> f = flags)
  /\ (forall al type_mask flags,
        flags <> 0 ->
        is_some (FindType_superset al flags type_mask) = true ->
        MemoryPropertyFlags_superset al type_mask flags = Ok flags
        /\ MemoryAllocator.MemoryPropertyFlags al type_mask flags = Ok flags)
  /\ (forall al type_mask flags f,
        FindType_superset al flags type_mask = None ->
        MemoryPropertyFlags_superset al type_mask flags = Ok f ->
        f <> flags
        /\ MemoryAllocator.MemoryPropertyFlags al type_mask flags <> Ok f)
  /\ (let al := MemoryAllocator.new (mkDevice [MemoryUsagePropertyFlags Upload]
                                              (fun _ _ => Some 1)) in
      let download := MemoryUsagePropertyFlags Download in
      FindType_superset al download 1 = None
      /\ clear_flag download VK_MEMORY_PROPERTY_HOST_CACHED_BIT
         = MemoryUsagePropertyFlags Upload
      /\ FindType_superset al (MemoryUsagePropertyFlags Upload) 1 = Some 0
      /\ MemoryPropertyFlags_superset al 1 download
         = Ok (MemoryUsagePropertyFlags Upload)
      /\ MemoryAllocator.MemoryPropertyFlags al 1 download = Ok download
      /\ download <> MemoryUsagePropertyFlags Upload)
  /\ (let al := MemoryAllocator.new
                  (mkDevice [VK_MEMORY_PROPERTY_DEVICE_LOCAL_BIT;
                             VK_MEMORY_PROPERTY_HOST_VISIBLE_BIT]
                            (fun _ _ => Some 1)) in
      let download := MemoryUsagePropertyFlags Download in
      MemoryPropertyFlags_superset al 3 download = Err Unreachable
      /\ MemoryAllocator.MemoryPropertyFlags al 3 download = Ok download
      /\ MemoryAllocator.FindType al download 3 = Some 1
      /\ Z.land VK_MEMORY_PROPERTY_HOST_VISIBLE_BIT
                VK_MEMORY_PROPERTY_HOST_COHERENT_BIT = 0).
Proof.
  split.
  { intros al type_mask flags n Hn.
    pose proof (droppable_le_2 flags).
    unfold MemoryAllocator.MemoryPropertyFlags.
    apply (MemoryPropertyFlags_fuel_stable al type_mask 3 flags n); lia. }
  split; [apply MemoryPropertyFlags_Ok_same |].
  split.
  { intros al type_mask flags Hnz Hfound. split.
    - unfold MemoryPropertyFlags_superset. simpl. by rewrite Hfound.
    - rewrite MemoryPropertyFlags_unfold.
      unfold MemoryAllocator.FindType, FindType_superset in *.
      by rewrite (FindType_superset_from_found _ _ _ _ Hnz Hfound). }
  split.
  { intros al type_mask flags f Hnone Hspec.
    apply MemoryPropertyFlags_superset_found in Hspec.
    assert (Hne : f <> flags).
    { intros ->. by rewrite Hnone in Hspec. }
    split; [done |].
    intros Hcode. by apply MemoryPropertyFlags_Ok_same in Hcode. }
  split; by vm_compute.
Qed.

(** ** The allocator: growth on a miss *)

Lemma FindType_compatible al flags type_mask type memory_ size_ :
  MemoryAllocator.FindType al flags type_mask = Some type ->
  MemoryAllocation.IsCompatible (MemoryAllocation.new memory_ flags size_ type)
    flags type_mask = true.
Proof.
  intros (n & tf & _ & _ & Hmask & Hflags & _)%FindType_from_spec.
  apply IsCompatible_spec. simpl. split; [| done].
  rewrite Z.land_diag. intros ->. by rewrite Z.land_0_r in Hflags.
Qed.

Lemma TryCommit_from_miss_app l l2 requirements flags :
  forall index,
    MemoryAllocator.TryCommit_from index l requirements flags = Ok None ->
    MemoryAllocator.TryCommit_from index (l ++ l2) requirements flags
    = (r ← MemoryAllocator.TryCommit_from (index + length l) l2 requirements flags;
       Ok (on_second (app l) r)).
Proof.
  induction l as [| a l IH]; intros index; simpl.
  - intros _. rewrite Nat.add_0_r.
    destruct (MemoryAllocator.TryCommit_from index l2 requirements flags)
      as [[[c l'] |] | e]; done.
  - assert (Hrec :
        (r ← MemoryAllocator.TryCommit_from (S index) l requirements flags;
         Ok (on_second (cons a) r)) = Ok None ->
        (r ← MemoryAllocator.TryCommit_from (S index) (l ++ l2) requirements flags;
         Ok (on_second (cons a) r))
        = (r ← MemoryAllocator.TryCommit_from (index + S (length l)) l2 requirements flags;
           Ok (on_second (app (a :: l)) r))).
    { intros H.
      destruct (MemoryAllocator.TryCommit_from (S index) l requirements flags)
        as [[[c l'] |] | e] eqn:E; try done.
      rewrite (IH _ E). rewrite Nat.add_succ_r. simpl.
      destruct (MemoryAllocator.TryCommit_from (S (index + length l)) l2 requirements flags)
        as [[[c l'] |] | e]; done. }
    destruct (negb (MemoryAllocation.IsCompatible a flags (memoryTypeBits requirements)));
      [exact Hrec |].
    destruct (MemoryAllocation.Commit index a (size requirements) (alignment requirements))
      as [[[c a'] |] | e]; simpl; [done | exact Hrec | done].
Qed.

Lemma Commit_after_miss al requirements usage flags :
  is_u64 (size requirements) ->
  MemoryAllocator.MemoryPropertyFlags_usage al (memoryTypeBits requirements) usage
  = Ok flags ->
  MemoryAllocator.TryCommit al requirements flags = Ok None ->
  MemoryAllocator.Commit al requirements usage
  = match MemoryAllocator.FindType al flags (memoryTypeBits requirements) with
    | None => Err BadOptionalAccess
    | Some type =>
        match AllocateMemory (MemoryAllocator.device al)
                (AllocationChunkSize (size requirements)) type with
        | None => Err DeviceFailure
        | Some memory_ =>
            if has_single_bit (alignment requirements) then
              if size requirements <=? AllocationChunkSize (size requirements)
              then Ok (fresh_commit al requirements flags memory_ type)
              else Err BadOptionalAccess
            else Err AssertionFailed
        end
    end.
Proof.
  intros Hsize Hflags Hmiss. unfold MemoryAllocator.Commit.
  rewrite Hflags. simpl. rewrite Hmiss. simpl.
  unfold MemoryAllocator.AllocMemory.
  destruct (MemoryAllocator.FindType al flags (memoryTypeBits requirements))
    as [type |] eqn:Htype; [| done].
  destruct (AllocateMemory (MemoryAllocator.device al)
              (AllocationChunkSize (size requirements)) type) as [memory_ |]; [| done].
  simpl. unfold MemoryAllocator.TryCommit in *. simpl.
  destruct (MemoryAllocator.TryCommit_from 0 (MemoryAllocator.allocations al)
              requirements flags) as [[[c l'] |] | e] eqn:Hold; try done.
  rewrite (TryCommit_from_miss_app _ _ _ _ _ Hold). simpl.
  rewrite (FindType_compatible _ _ _ _ memory_ _ Htype). simpl.
  unfold MemoryAllocation.Commit, MemoryAllocation.FindFreeRegion. simpl.
  destruct (has_single_bit (alignment requirements)); [| done]. simpl.
  rewrite Z.add_0_l, (wrap64_small (size requirements)) by done.
  destruct (size requirements <=? AllocationChunkSize (size requirements));
    simpl; rewrite ?Z.add_0_l, ?(wrap64_small (size requirements)) by done; done.
Qed.

(** C5 (amended). When no existing block yields a commit, the allocator
    either fails fatally or returns a commit at offset 0 of exactly one
    new block, appended to the unchanged list and sized
    [AllocationChunkSize(requirements.size)]; there is one retry only.
    For sizes up to [2 ^ 64 - 2 ^ 22] the chunk size is at least the
    requested size and, the alignment being a power of two and the driver
    providing the memory, the retry succeeds. *)
Theorem Commit_grows_by_one_block al requirements usage flags :
  is_u64 (size requirements) ->
  MemoryAllocator.MemoryPropertyFlags_usage al (memoryTypeBits requirements) usage
  = Ok flags ->
  MemoryAllocator.TryCommit al requirements flags = Ok None ->
  let chunk := AllocationChunkSize (size requirements) in
  (forall c al',
     MemoryAllocator.Commit al requirements usage = Ok (c, al') ->
     exists type memory_,
       MemoryAllocator.FindType al flags (memoryTypeBits requirements) = Some type
       /\ AllocateMemory (MemoryAllocator.device al) chunk type = Some memory_
       /\ (c, al') = fresh_commit al requirements flags memory_ type
       /\ size requirements <= chunk)
  /\ (forall e,
        MemoryAllocator.Commit al requirements usage = Err e ->
        e = DeviceFailure \/ e = BadOptionalAccess \/ e = AssertionFailed)
  /\ (size requirements <= 2 ^ 64 - 2 ^ 22 ->
      has_single_bit (alignment requirements) = true ->
      (forall type,
         MemoryAllocator.FindType al flags (memoryTypeBits requirements) = Some type ->
         is_Some (AllocateMemory (MemoryAllocator.device al) chunk type)) ->
      size requirements <= chunk
      /\ is_Ok (MemoryAllocator.Commit al requirements usage)).
Proof.
  intros Hsize Hflags Hmiss chunk.
  rewrite (Commit_after_miss al requirements usage flags Hsize Hflags Hmiss).
  fold chunk.
  destruct (MemoryPropertyFlags_found _ _ _ _ Hflags) as [type Htype].
  rewrite Htype.
  split; [| split].
  - intros c al'.
    destruct (AllocateMemory (MemoryAllocator.device al) chunk type)
      as [memory_ |] eqn:Hdrv; [| done].
    destruct (has_single_bit (alignment requirements)); [| done].
    destruct (Z.leb_spec (size requirements) chunk); [| done].
    intros Hres. exists type, memory_. repeat split; try done. congruence.
  - intros e.
    destruct (AllocateMemory (MemoryAllocator.device al) chunk type) as [memory_ |];
      [| intros [= <-]; by left].
    destruct (has_single_bit (alignment requirements));
      [| intros [= <-]; by right; right].
    destruct (Z.leb_spec (size requirements) chunk); [done |].
    intros [= <-]. right. by left.
  - intros Hfit -> Hdriver.
    assert (Hge : size requirements <= chunk).
    { apply AllocationChunkSize_ge. unfold is_u64 in Hsize. lia. }
    split; [done |].
    destruct (Hdriver type eq_refl) as [memory_ ->].
    rewrite (proj2 (Z.leb_le _ _) Hge). by eexists.
Qed.

Lemma Commit_grows_by_one_block_witness :
  let al := MemoryAllocator.new (mkDevice [1; 6] (fun _ _ => Some 1)) in
  let requirements := mkRequirements 65536 256 3 in
  size requirements <= AllocationChunkSize (size requirements)
  /\ is_Ok (MemoryAllocator.Commit al requirements Upload).
Proof.
  intros al requirements.
  assert (Hsize : is_u64 (size requirements)) by (by vm_compute).
  assert (Hflags : MemoryAllocator.MemoryPropertyFlags_usage al
                     (memoryTypeBits requirements) Upload = Ok 6) by reflexivity.
  assert (Hmiss : MemoryAllocator.TryCommit al requirements 6 = Ok None) by reflexivity.
  destruct (Commit_grows_by_one_block al requirements Upload 6 Hsize Hflags Hmiss)
    as (_ & _ & H).
  apply H; [by vm_compute | reflexivity |].
  intros type _. by eexists.
Defined.

(** C5 as stated fails for a size in the last 4 MiB of the 64-bit range:
    the chunk size wraps to 0, the new block is smaller than the request,
    and the retry fails. *)
Lemma Commit_fails_after_growth :
  let al := MemoryAllocator.new (mkDevice [1] (fun _ _ => Some 1)) in
  let requirements := mkRequirements (2 ^ 64 - 1) 1 1 in
  is_u64 (size requirements)
  /\ has_single_bit (alignment requirements) = true
  /\ MemoryAllocator.MemoryPropertyFlags_usage al (memoryTypeBits requirements)
       DeviceLocal = Ok 1
  /\ MemoryAllocator.TryCommit al requirements 1 = Ok None
  /\ AllocationChunkSize (size requirements) = 0
  /\ ~ (size requirements <= AllocationChunkSize (size requirements))
  /\ MemoryAllocator.Commit al requirements DeviceLocal = Err BadOptionalAccess.
Proof.
  intros al requirements.
  assert (E : AllocationChunkSize (size requirements) = 0) by (by vm_compute).
  rewrite E. repeat split; first [by vm_compute | simpl; lia].
Qed.

(** ** The end-to-end example *)

(** C8 (amended). On a device with type 0 device-local and type 1
    host-visible and host-coherent, whose driver provides the memory, the
    [Upload] request of 65536 bytes aligned to 256 resolves to the flags
    of type 1, creates one block of 4,194,304 bytes (the smallest table
    entry) at type 1 and returns the interval from 0 to 65536; the same
    request again returns 65536 to 131072 in the same block; after the
    first commit is released the request returns 0 to 65536 again. *)
Theorem end_to_end_example (handle : Z) :
  let al0 := MemoryAllocator.new
               (mkDevice [VK_MEMORY_PROPERTY_DEVICE_LOCAL_BIT;
                          Z.lor VK_MEMORY_PROPERTY_HOST_VISIBLE_BIT
                                VK_MEMORY_PROPERTY_HOST_COHERENT_BIT]
                         (fun _ _ => Some handle)) in
  let requirements := mkRequirements 65536 256 3 in
  MemoryAllocator.MemoryPropertyFlags_usage al0 3 Upload
  = Ok (Z.lor VK_MEMORY_PROPERTY_HOST_VISIBLE_BIT VK_MEMORY_PROPERTY_HOST_COHERENT_BIT)
  /\ exists c1 al1 c2 al2 al3 c3 al4,
       MemoryAllocator.Commit al0 requirements Upload = Ok (c1, al1)
       /\ MemoryAllocator.allocations al1
          = [MemoryAllocation.mk handle 4194304 6 (MemoryAllocation.ShiftType 1)
               [mkRange 0 65536]]
       /\ mc_allocation c1 = Some 0%nat /\ mc_interval c1 = (0, 65536)
       /\ MemoryAllocator.Commit al1 requirements Upload = Ok (c2, al2)
       /\ mc_allocation c2 = Some 0%nat /\ mc_interval c2 = (65536, 131072)
       /\ length (MemoryAllocator.allocations al2) = 1%nat
       /\ release_commit al2 c1 = Ok al3
       /\ MemoryAllocator.Commit al3 requirements Upload = Ok (c3, al4)
       /\ mc_allocation c3 = Some 0%nat /\ mc_interval c3 = (0, 65536)
       /\ length (MemoryAllocator.allocations al4) = 1%nat.
Proof.
  intros al0 requirements. split; [reflexivity |].
  do 7 eexists.
  split; [vm_compute; reflexivity |].
  split; [reflexivity |]. split; [reflexivity |]. split; [reflexivity |].
  split; [vm_compute; reflexivity |].
  split; [reflexivity |]. split; [reflexivity |]. split; [reflexivity |].
  split; [vm_compute; reflexivity |].
  split; [vm_compute; reflexivity |].
  split; [reflexivity |]. split; reflexivity.
Qed.

(** C8 as stated names a block of 1,048,576 bytes; the block created has
    4,194,304 bytes, the smallest entry of the size table. *)
Lemma first_block_is_not_1MiB :
  exists c1 al1 block,
    MemoryAllocator.Commit
      (MemoryAllocator.new (mkDevice [1; 6] (fun _ _ => Some 1)))
      (mkRequirements 65536 256 3) Upload = Ok (c1, al1)
    /\ MemoryAllocator.allocations al1 = [block]
    /\ MemoryAllocation.allocation_size block = 4194304
    /\ MemoryAllocation.allocation_size block <> 1048576
    /\ Forall (fun s => 1048576 < s) sizes.
Proof.
  do 3 eexists. split; [vm_compute; reflexivity |].
  split; [reflexivity |]. split; [reflexivity |]. split; [done |].
  rewrite sizes_values. repeat constructor.
Qed.


(** ** Commit handles: moves and releases *)

Lemma MemoryCommit_eta c :
  {| mc_allocation := mc_allocation c; mc_memory := mc_memory c;
     mc_interval := mc_interval c; mc_span := mc_span c |} = c.
Proof. by destruct c. Qed.

Lemma Release_spec this s s1 :
  MemoryCommit_Release this s = Ok s1 ->
  exists c,
    objects s !! this = Some c
    /\ objects s1 = objects s
    /\ free_trace s1 = free_trace s ++ option_list (owner_key c)
    /\ (mc_allocation c = None -> s1 = s).
Proof.
  unfold MemoryCommit_Release, get_obj.
  destruct (objects s !! this) as [c |] eqn:Hc; [| done]. simpl.
  unfold owner_key. destruct (mc_allocation c) as [p |] eqn:Hp.
  - unfold free_in. destruct (blocks s !! p) as [blk |]; [| done].
    destruct (MemoryAllocation.Free blk (fst (mc_interval c))) as [blk' | e]; [| done].
    simpl. intros [= <-]. exists c. rewrite Hp. simpl. by repeat split.
  - intros [= <-]. exists c. rewrite Hp. simpl. rewrite app_nil_r. by repeat split.
Qed.

Lemma move_assign_spec this rhs s s' :
  this <> rhs ->
  MemoryCommit_move_assign this rhs s = Ok s' ->
  exists s1 t r,
    MemoryCommit_Release this s = Ok s1
    /\ objects s !! this = Some t /\ objects s !! rhs = Some r
    /\ blocks s' = blocks s1
    /\ free_trace s' = free_trace s ++ option_list (owner_key t)
    /\ objects s' = <[this := set_span (mc_span r) r]> (<[rhs := moved_from r]> (objects s)).
Proof.
  intros Hne. unfold MemoryCommit_move_assign.
  destruct (MemoryCommit_Release this s) as [s1 | e] eqn:Hrel; [| done]. simpl.
  destruct (Release_spec _ _ _ Hrel) as (t & Ht & Ho & Htr & _).
  rewrite Ho. unfold exchange_allocation, exchange_span, update_obj, get_obj.
  destruct (objects s !! rhs) as [r |] eqn:Hr; [| done]. simpl.
  assert (Hne' : rhs <> this) by done.
  repeat (first [rewrite lookup_insert_eq | rewrite lookup_insert_ne by done
                | rewrite Ht]; simpl).
  intros [= <-]. exists s1, t, r. simpl. repeat split; try done.
  apply map_eq. intros i.
  destruct (decide (i = this)) as [-> | Hi1].
  { rewrite !lookup_insert_eq. by destruct r. }
  rewrite !(lookup_insert_ne _ this) by done.
  destruct (decide (i = rhs)) as [-> | Hi2].
  { rewrite !lookup_insert_eq. done. }
  by rewrite !lookup_insert_ne by done.
Qed.

Lemma move_construct_spec this rhs s s' :
  MemoryCommit_move_construct this rhs s = Ok s' ->
  exists r,
    objects s !! this = None /\ objects s !! rhs = Some r
    /\ blocks s' = blocks s /\ free_trace s' = free_trace s
    /\ objects s' = <[this := set_span (mc_span r) r]> (<[rhs := moved_from r]> (objects s)).
Proof.
  unfold MemoryCommit_move_construct.
  destruct (objects s !! this) as [t |] eqn:Ht; [done |].
  unfold exchange_allocation, exchange_span, get_obj.
  destruct (objects s !! rhs) as [r |] eqn:Hr; [| done]. simpl.
  repeat (rewrite lookup_insert_eq; simpl).
  intros [= <-]. exists r. simpl. repeat split; try done.
  rewrite insert_insert_eq. by destruct r.
Qed.

Lemma destroy_spec this s s' :
  MemoryCommit_destroy this s = Ok s' ->
  exists s1 c,
    MemoryCommit_Release this s = Ok s1
    /\ objects s !! this = Some c
    /\ blocks s' = blocks s1
    /\ free_trace s' = free_trace s ++ option_list (owner_key c)
    /\ objects s' = delete this (objects s).
Proof.
  unfold MemoryCommit_destroy.
  destruct (MemoryCommit_Release this s) as [s1 | e] eqn:Hrel; [| done]. simpl.
  destruct (Release_spec _ _ _ Hrel) as (c & Hc & Ho & Htr & _).
  intros [= <-]. exists s1, c. simpl. rewrite Ho. by repeat split.
Qed.

Lemma set_span_same r : set_span (mc_span r) r = r.
Proof. by destruct r. Qed.

Lemma has_key_moved this rhs r o a k :
  this <> rhs -> o !! rhs = Some r ->
  has_key (<[this := r]> (<[rhs := moved_from r]> o)) a k
  <-> (a = this /\ owner_key r = Some k)
      \/ (a <> this /\ a <> rhs /\ has_key o a k).
Proof.
  intros Hne Hr. unfold has_key.
  destruct (decide (a = this)) as [-> | Ha1].
  { rewrite lookup_insert_eq. split.
    - intros (c & [= <-] & Hk). by left.
    - intros [[_ Hk] | [? _]]; [by exists r | done]. }
  rewrite lookup_insert_ne by done.
  destruct (decide (a = rhs)) as [-> | Ha2].
  { rewrite lookup_insert_eq. split.
    - by intros (c & [= <-] & Hk).
    - intros [[? _] | (_ & ? & _)]; done. }
  rewrite lookup_insert_ne by done. split.
  - intros H. right. by repeat split.
  - intros [[? _] | (_ & _ & H)]; done.
Qed.

Lemma has_key_delete this o a k :
  has_key (delete this o) a k <-> a <> this /\ has_key o a k.
Proof.
  unfold has_key. destruct (decide (a = this)) as [-> | Ha].
  - rewrite lookup_delete_eq. split; [by intros (c & ? & _) | by intros [? _]].
  - rewrite lookup_delete_ne by done. split; [by intros H; split | by intros [_ H]].
Qed.

Lemma handles_inv_move s s' this rhs r kt :
  handles_inv s -> this <> rhs -> objects s !! rhs = Some r ->
  (forall k, kt = Some k -> has_key (objects s) this k) ->
  objects s' = <[this := r]> (<[rhs := moved_from r]> (objects s)) ->
  free_trace s' = free_trace s ++ option_list kt ->
  handles_inv s'.
Proof.
  intros [Huniq Hnodup Hfresh] Hne Hr Hkt Ho Htr.
  assert (Hrk : forall k, owner_key r = Some k -> has_key (objects s) rhs k).
  { intros k Hk. by exists r. }
  split.
  - intros a b k. rewrite Ho, !has_key_moved by done.
    intros [[-> Ha] | (Ha1 & Ha2 & Ha)] [[-> Hb] | (Hb1 & Hb2 & Hb)]; try done.
    + destruct Hb2. apply (Huniq _ _ k); [done | by apply Hrk].
    + destruct Ha2. apply (Huniq _ _ k); [done | by apply Hrk].
    + by apply (Huniq _ _ k).
  - rewrite Htr. apply NoDup_app. split; [done |]. split.
    + intros k Hin Hk. destruct kt as [k' |]; simpl in Hk; [| by apply elem_of_nil in Hk].
      apply list_elem_of_singleton in Hk as ->.
      by apply (Hfresh k' this Hin), Hkt.
    + destruct kt; simpl; [apply NoDup_singleton | apply NoDup_nil_2].
  - intros k a. rewrite Htr, Ho, has_key_moved by done.
    intros [Hin | Hin]%elem_of_app.
    + intros [[-> Ha] | (_ & _ & Ha)].
      * by apply (Hfresh k rhs Hin), Hrk.
      * by apply (Hfresh k a Hin).
    + destruct kt as [k' |]; simpl in Hin; [| by apply elem_of_nil in Hin].
      apply list_elem_of_singleton in Hin as ->.
      specialize (Hkt k' eq_refl).
      intros [[-> Ha] | (Ha1 & _ & Ha)].
      * destruct Hne. apply (Huniq _ _ k'); [done | by apply Hrk].
      * destruct Ha1. by apply (Huniq _ _ k').
Qed.

Lemma handles_inv_destroy s s' this c :
  handles_inv s -> objects s !! this = Some c ->
  objects s' = delete this (objects s) ->
  free_trace s' = free_trace s ++ option_list (owner_key c) ->
  handles_inv s'.
Proof.
  intros [Huniq Hnodup Hfresh] Hc Ho Htr.
  assert (Hck : forall k, owner_key c = Some k -> has_key (objects s) this k).
  { intros k Hk. by exists c. }
  split.
  - intros a b k. rewrite Ho, !has_key_delete. intros [_ Ha] [_ Hb].
    by apply (Huniq _ _ k).
  - rewrite Htr. apply NoDup_app. split; [done |]. split.
    + intros k Hin Hk.
      destruct (owner_key c) as [k' |]; simpl in Hk; [| by apply elem_of_nil in Hk].
      apply list_elem_of_singleton in Hk as ->.
      by apply (Hfresh k' this Hin), Hck.
    + destruct (owner_key c); simpl; [apply NoDup_singleton | apply NoDup_nil_2].
  - intros k a. rewrite Htr, Ho, has_key_delete.
    intros [Hin | Hin]%elem_of_app [Ha1 Ha].
    + by apply (Hfresh k a Hin).
    + destruct (owner_key c) as [k' |] eqn:E; simpl in Hin;
        [| by apply elem_of_nil in Hin].
      apply list_elem_of_singleton in Hin as ->.
      destruct Ha1. apply (Huniq _ _ k'); [done | by apply Hck].
Qed.

Lemma handles_inv_step op s s' :
  handles_inv s -> op_distinct op -> commit_step op s = Ok s' -> handles_inv s'.
Proof.
  intros Hinv Hop. destruct op as [this rhs | this rhs | this]; simpl in *.
  - intros (r & Ht & Hr & _ & Htr & Ho)%move_construct_spec.
    rewrite set_span_same in Ho.
    apply (handles_inv_move s s' this rhs r None); try done.
    + intros ->. by rewrite Ht in Hr.
    + by rewrite app_nil_r.
  - intros (s1 & t & r & _ & Ht & Hr & _ & Htr & Ho)%move_assign_spec; [| done].
    rewrite set_span_same in Ho.
    apply (handles_inv_move s s' this rhs r (owner_key t)); try done.
    intros k Hk. by exists t.
  - intros (s1 & c & _ & Hc & _ & Htr & Ho)%destroy_spec.
    by apply (handles_inv_destroy s s' this c).
Qed.


Lemma Release_backed this s c :
  handles_inv s -> backed s -> objects s !! this = Some c ->
  exists s1,
    MemoryCommit_Release this s = Ok s1
    /\ forall a p b,
         a <> this -> has_key (objects s) a (p, b) ->
         exists blk r,
           blocks s1 !! p = Some blk /\ r ∈ MemoryAllocation.commits blk /\ r_begin r = b.
Proof.
  intros [Huniq _ _] Hb Hc. unfold MemoryCommit_Release, get_obj. rewrite Hc. simpl.
  destruct (mc_allocation c) as [p |] eqn:Hp.
  - assert (Hkey : has_key (objects s) this (p, fst (mc_interval c))).
    { exists c. split; [done |]. unfold owner_key. by rewrite Hp. }
    destruct (Hb _ _ _ Hkey) as (blk & r & Hblk & Hr & Hbegin).
    unfold free_in. rewrite Hblk. unfold MemoryAllocation.Free.
    destruct (MemoryAllocation.erase_first (fst (mc_interval c))
                (MemoryAllocation.commits blk)) as [l' |] eqn:E.
    + simpl. eexists. split; [done |]. simpl.
      intros a p' b' Ha Hk.
      destruct (Hb _ _ _ Hk) as (blk2 & r2 & Hblk2 & Hr2 & Hbegin2).
      destruct (decide (p' = p)) as [-> | Hpp].
      * rewrite Hblk in Hblk2. injection Hblk2 as <-.
        rewrite list_lookup_insert_eq by (by eapply lookup_lt_Some).
        eexists _, r2. split; [done |]. split; [| done]. simpl.
        apply erase_first_spec in E as (l1 & r1 & l2 & Hl & -> & Hr1 & _).
        rewrite Hl in Hr2.
        apply elem_of_app in Hr2 as [? | [-> | ?]%elem_of_cons];
          [apply elem_of_app; by left | | apply elem_of_app; by right].
        destruct Ha. apply (Huniq _ _ (p, b')); [done |].
        by rewrite <- Hbegin2, Hr1.
      * rewrite list_lookup_insert_ne by done. by exists blk2, r2.
    + exfalso. apply erase_first_none in E. rewrite Forall_forall in E.
      by apply (E r Hr).
  - exists s. split; [done |]. intros a p b _ Hk. by apply (Hb a).
Qed.

Lemma backed_step op s s' :
  handles_inv s -> backed s -> op_distinct op ->
  commit_step op s = Ok s' -> backed s'.
Proof.
  intros Hinv Hb Hop. destruct op as [this rhs | this rhs | this]; simpl in *.
  - intros (r & Ht & Hr & Hbl & _ & Ho)%move_construct_spec.
    rewrite set_span_same in Ho.
    assert (Hne : this <> rhs) by (intros ->; by rewrite Ht in Hr).
    intros a p b. rewrite Ho, Hbl, has_key_moved by done.
    intros [[-> Hk] | (_ & _ & Hk)]; [| by apply (Hb a)].
    apply (Hb rhs). by exists r.
  - intros (s1 & t & r & Hrel & Ht & Hr & Hbl & _ & Ho)%move_assign_spec; [| done].
    rewrite set_span_same in Ho.
    destruct (Release_backed this s t Hinv Hb Ht) as (s1' & Hrel' & Hkeep).
    rewrite Hrel in Hrel'. injection Hrel' as <-.
    intros a p b. rewrite Ho, Hbl, has_key_moved by done.
    intros [[-> Hk] | (Ha & _ & Hk)]; [| by apply (Hkeep a)].
    apply (Hkeep rhs); [done | by exists r].
  - intros (s1 & c & Hrel & Hc & Hbl & _ & Ho)%destroy_spec.
    destruct (Release_backed this s c Hinv Hb Hc) as (s1' & Hrel' & Hkeep).
    rewrite Hrel in Hrel'. injection Hrel' as <-.
    intros a p b. rewrite Ho, Hbl, has_key_delete. intros [Ha Hk]. by apply (Hkeep a).
Qed.




Lemma example_store_unique a b k :
  has_key (objects example_store) a k -> has_key (objects example_store) b k -> a = b.
Proof.
  intros (ca & Ha & Hka) (cb & Hb & Hkb). simpl in Ha, Hb.
  apply lookup_insert_Some in Ha as [[<- <-] | [Ha1 Ha]];
    apply lookup_insert_Some in Hb as [[<- <-] | [Hb1 Hb]]; try done.
  - apply lookup_singleton_Some in Hb as [<- <-].
    unfold owner_key in *. simpl in *. congruence.
  - apply lookup_singleton_Some in Ha as [<- <-].
    unfold owner_key in *. simpl in *. congruence.
  - apply lookup_singleton_Some in Ha as [<- <-].
    by apply lookup_singleton_Some in Hb as [<- <-].
Qed.




(** * Further properties *)

(** ** The free-region search is first fit *)

Section FindFreeRegion_lowest.
Variables (A size k : Z).
Hypothesis Hk : 0 <= k < 64.
Hypothesis HA : 0 <= A < 2 ^ 63.
Hypothesis Hsize : 0 <= size <= A.

(** The places that would do: aligned, within the block. *)
Variable P : Z -> Prop.
Hypothesis HP : forall x, P x -> 0 <= x /\ x mod 2 ^ k = 0 /\ x + size <= A.

(** No place that would do lies before the candidate or, without one,
    before the iterator. *)
Lemma FindFreeRegion_loop_lowest rest :
  forall candidate iterator,
    Forall (fun r => 0 <= r_end r <= A) rest ->
    (forall x r, P x -> r ∈ rest -> free_at size x r) ->
    0 <= iterator <= 2 ^ 63 ->
    (forall c0, candidate = Some c0 -> 0 <= c0 /\ c0 + size <= A) ->
    (forall x, P x -> default iterator candidate <= x) ->
    match MemoryAllocation.FindFreeRegion_loop A size k candidate iterator rest with
    | Some c => forall x, P x -> c <= x
    | None => forall x, ~ P x
    end.
Proof.
  assert (Hstop : forall candidate iterator,
             0 <= iterator <= 2 ^ 63 ->
             (forall x, P x -> default iterator candidate <= x) ->
             A < wrap64 (iterator + size) ->
             match candidate with
             | Some c => forall x, P x -> c <= x
             | None => forall x, ~ P x
             end).
  { intros candidate iterator Hit Hlow Hgt. rewrite wrap64_small in Hgt by lia.
    destruct candidate as [c |]; simpl in Hlow; [done |].
    intros x Hx. specialize (Hlow x Hx). apply HP in Hx. lia. }
  induction rest as [| r rest IH]; intros candidate iterator Hends Hfree Hit Hc Hlow; simpl.
  - destruct (Z.leb_spec (wrap64 (iterator + size)) A) as [Hle | Hgt]; [done |].
    by apply (Hstop candidate iterator).
  - destruct (Z.leb_spec (wrap64 (iterator + size)) A) as [Hle | Hgt];
      [| by apply (Hstop candidate iterator)].
    rewrite wrap64_small in Hle by lia.
    apply Forall_cons in Hends as [Hr Hends]. simpl in Hr.
    destruct (AlignUpLog2_small A k Hk HA (r_end r) Hr) as [Hnext _].
    set (c1 := default iterator candidate) in *.
    assert (Hc1 : 0 <= c1 /\ c1 + size <= A).
    { subst c1. destruct candidate as [c0 |]; simpl; [by apply Hc | lia]. }
    assert (Hfree' : forall x r0, P x -> r0 ∈ rest -> free_at size x r0).
    { intros x r0 Hx Hr0. apply Hfree; [done | by right]. }
    destruct (Contains r c1 size) eqn:Hcont.
    + apply IH; [done | done | lia | done |].
      intros x Hx. simpl.
      assert (Hxr : free_at size x r) by (apply Hfree; [done | by left]).
      specialize (Hlow x Hx). destruct (HP x Hx) as (Hx0 & Hxal & HxA).
      unfold Contains in Hcont. rewrite wrap64_small in Hcont by lia.
      apply andb_true_iff in Hcont as [H1 H2]. apply Z.ltb_lt in H1, H2.
      unfold free_at in Hxr.
      pose proof (pow2_le_63 k Hk).
      apply AlignUpLog2_least; lia.
    + apply IH; [done | done | lia | |].
      * by intros c0 [= <-].
      * by intros x Hx; simpl; apply Hlow.
Qed.
End FindFreeRegion_lowest.

Lemma region_free_smaller A l size size' alignment x :
  0 <= size' <= size -> region_free A l size alignment x ->
  region_free A l size' alignment x.
Proof.
  intros Hs (H0 & Hal & HA & Hfree). repeat split; [done | done | lia |].
  eapply Forall_impl; [exact Hfree |]. unfold free_at. simpl. intros r ?. lia.
Qed.

(** The search under the invariant: what it finds is free, nothing that
    would do lies below it, and it finds nothing only when nothing would
    do. *)
Lemma FindFreeRegion_lowest a size alignment :
  let A := MemoryAllocation.allocation_size a in
  let l := MemoryAllocation.commits a in
  0 <= A < 2 ^ 63 -> is_u64 size -> is_u64 alignment ->
  has_single_bit alignment = true ->
  StronglySorted begin_le l ->
  Forall (fun r => 0 <= r_end r <= A) l ->
  match MemoryAllocation.FindFreeRegion a size alignment with
  | Ok (Some c) =>
      region_free A l size alignment c
      /\ forall x, region_free A l size alignment x -> c <= x
  | Ok None => forall x, ~ region_free A l size alignment x
  | Err _ => False
  end.
Proof.
  intros A l HA Hsize Hal Hsb Hs He.
  destruct (MemoryAllocation.FindFreeRegion a size alignment) as [[c |] | e] eqn:E.
  - destruct (FindFreeRegion_free a size alignment c HA Hsize Hal Hs He E)
      as (H0 & Hcap & Hfree).
    destruct (FindFreeRegion_fits a size alignment c Hal E) as (_ & Hmod & _).
    split; [by repeat split |].
    unfold MemoryAllocation.FindFreeRegion in E. rewrite Hsb in E.
    destruct (has_single_bit_u64 _ Hsb Hal) as (k & Hk & Hx & Hc).
    rewrite Hc in E. injection E as E. fold A l in E. subst alignment.
    assert (Hle : 0 <= size <= A) by (unfold is_u64 in Hsize; fold A in Hcap; lia).
    pose proof (FindFreeRegion_loop_lowest A size k Hk HA Hle
                  (region_free A l size (2 ^ k))) as Hlow.
    specialize (Hlow ltac:(by intros x (? & ? & ? & _)) l None 0 He).
    rewrite E in Hlow. apply Hlow; [| lia | done |].
    + intros x r (_ & _ & _ & Hf) Hr. rewrite Forall_forall in Hf. by apply Hf.
    + by intros x (? & _).
  - unfold MemoryAllocation.FindFreeRegion in E. rewrite Hsb in E.
    destruct (has_single_bit_u64 _ Hsb Hal) as (k & Hk & Hx & Hc).
    rewrite Hc in E. injection E as E. fold A l in E. subst alignment.
    destruct (Z.le_gt_cases size A) as [Hle | Hgt].
    + assert (Hle' : 0 <= size <= A) by (unfold is_u64 in Hsize; lia).
      pose proof (FindFreeRegion_loop_lowest A size k Hk HA Hle'
                    (region_free A l size (2 ^ k))) as Hlow.
        specialize (Hlow ltac:(by intros x (? & ? & ? & _)) l None 0 He).
      rewrite E in Hlow. apply Hlow; [| lia | done |].
      * intros x r (_ & _ & _ & Hf) Hr. rewrite Forall_forall in Hf. by apply Hf.
      * by intros x (? & _).
    + intros x (H0 & _ & HxA & _). lia.
  - unfold MemoryAllocation.FindFreeRegion in E. by rewrite Hsb in E.
Qed.

(** X1. In a block below [2 ^ 63] bytes whose commit list is sorted by
    begin with every end inside the block, [Commit] with a power-of-two
    alignment returns the lowest offset that is a multiple of the
    alignment and at which [size] bytes are free inside the block, and it
    returns nothing only when there is no such offset. *)
Theorem Commit_is_first_fit this a size alignment :
  0 <= MemoryAllocation.allocation_size a < 2 ^ 63 ->
  is_u64 size -> is_u64 alignment ->
  has_single_bit alignment = true ->
  block_inv (MemoryAllocation.allocation_size a) (MemoryAllocation.commits a) ->
  match MemoryAllocation.Commit this a size alignment with
  | Ok (Some (c, a')) =>
      region_free (MemoryAllocation.allocation_size a) (MemoryAllocation.commits a)
        size alignment (fst (mc_interval c))
      /\ forall x,
           region_free (MemoryAllocation.allocation_size a) (MemoryAllocation.commits a)
             size alignment x ->
           fst (mc_interval c) <= x
  | Ok None =>
      forall x,
        ~ region_free (MemoryAllocation.allocation_size a) (MemoryAllocation.commits a)
            size alignment x
  | Err _ => False
  end.
Proof.
  intros HA Hsize Hal Hsb [Hs He _].
  pose proof (FindFreeRegion_lowest a size alignment HA Hsize Hal Hsb Hs He) as H.
  unfold MemoryAllocation.Commit.
  by destruct (MemoryAllocation.FindFreeRegion a size alignment) as [[c |] | e].
Qed.

Lemma Commit_is_first_fit_witness :
  let a := MemoryAllocation.mk 7 4096 6 2 [mkRange 0 100; mkRange 256 300] in
  match MemoryAllocation.Commit 0 a 64 128 with
  | Ok (Some (c, a')) =>
      region_free 4096 [mkRange 0 100; mkRange 256 300] 64 128 (fst (mc_interval c))
      /\ forall x,
           region_free 4096 [mkRange 0 100; mkRange 256 300] 64 128 x ->
           fst (mc_interval c) <= x
  | Ok None =>
      forall x, ~ region_free 4096 [mkRange 0 100; mkRange 256 300] 64 128 x
  | Err _ => False
  end.
Proof.
  intros a. apply (Commit_is_first_fit 0 a 64 128).
  - simpl. lia.
  - unfold is_u64. lia.
  - unfold is_u64. lia.
  - reflexivity.
  - split; simpl.
    + repeat constructor; unfold begin_le; simpl; lia.
    + repeat constructor; simpl; lia.
    + repeat split; repeat constructor; unfold overlap; simpl; lia.
Defined.

(** ** What a block's commit list keeps *)

Lemma ranges_ordered_Commit this a size alignment c a' :
  0 <= MemoryAllocation.allocation_size a < 2 ^ 63 ->
  is_u64 size -> is_u64 alignment ->
  block_inv (MemoryAllocation.allocation_size a) (MemoryAllocation.commits a) ->
  ranges_ordered (MemoryAllocation.commits a) ->
  MemoryAllocation.Commit this a size alignment = Ok (Some (c, a')) ->
  ranges_ordered (MemoryAllocation.commits a').
Proof.
  intros HA Hsize Hal [Hs He _] Hord (alloc & Hf & -> & ->)%Commit_inv.
  destruct (FindFreeRegion_free a size alignment alloc HA Hsize Hal Hs He Hf)
    as (H0 & Hcap & _).
  unfold ranges_ordered. simpl. rewrite insert_upper_bound_perm.
  constructor; [| done]. simpl. unfold is_u64 in Hsize.
  rewrite wrap64_small by lia. lia.
Qed.

Lemma ranges_ordered_step this op a a' :
  0 <= MemoryAllocation.allocation_size a < 2 ^ 63 ->
  block_op_wf op ->
  block_inv (MemoryAllocation.allocation_size a) (MemoryAllocation.commits a) ->
  ranges_ordered (MemoryAllocation.commits a) ->
  block_step this op a = Some a' ->
  ranges_ordered (MemoryAllocation.commits a').
Proof.
  intros HA Hwf Hinv Hord. destruct op as [size alignment | begin]; simpl.
  - destruct Hwf as [Hsize Hal].
    destruct (MemoryAllocation.Commit this a size alignment)
      as [[[c a''] |] | e] eqn:E; try done.
    intros [= <-]. by apply (ranges_ordered_Commit this a size alignment c a'').
  - unfold MemoryAllocation.Free.
    destruct (MemoryAllocation.erase_first begin (MemoryAllocation.commits a))
      as [l' |] eqn:E; [| done].
    intros [= <-]. simpl.
    apply erase_first_spec in E as (l1 & r & l2 & Hl & -> & _ & _).
    unfold ranges_ordered in *. rewrite Hl in Hord.
    rewrite Forall_app in Hord |- *. destruct Hord as [? [_ ?]%Forall_cons]. done.
Qed.

Lemma ranges_ordered_run this ops :
  forall a a',
    0 <= MemoryAllocation.allocation_size a < 2 ^ 63 ->
    Forall block_op_wf ops ->
    block_inv (MemoryAllocation.allocation_size a) (MemoryAllocation.commits a) ->
    ranges_ordered (MemoryAllocation.commits a) ->
    block_run this ops a = Some a' ->
    ranges_ordered (MemoryAllocation.commits a').
Proof.
  induction ops as [| op ops IH]; intros a a' HA Hwf Hinv Hord; simpl.
  - by intros [= <-].
  - apply Forall_cons in Hwf as [Hop Hwf].
    destruct (block_step this op a) as [a1 |] eqn:E; [| done].
    destruct (block_inv_step this op a a1 HA Hop Hinv E) as [HA1 Hinv1].
    pose proof (ranges_ordered_step this op a a1 HA Hop Hinv Hord E) as Hord1.
    rewrite <- HA1 in HA, Hinv1. by apply IH.
Qed.

Lemma committed_bytes_bound A l :
  StronglySorted begin_le l -> disjoint_list l ->
  Forall (fun r => 0 <= r_end r <= A) l -> ranges_ordered l ->
  forall lo,
    0 <= lo <= A ->
    (forall r, r ∈ l -> r_begin r < r_end r -> lo <= r_begin r) ->
    committed_bytes l <= A - lo.
Proof.
  induction l as [| r l IH]; intros Hs Hd He Hord lo Hlo Hbelow; simpl; [lia |].
  apply StronglySorted_cons in Hs as [Hhead Hs].
  destruct Hd as [Hr Hd].
  apply Forall_cons in He as [Her He]. apply Forall_cons in Hord as [Hor Hord].
  simpl in Her, Hor.
  destruct (Z.eq_dec (r_begin r) (r_end r)) as [Heq | Hne].
  - assert (committed_bytes l <= A - lo); [| lia].
    apply IH; try done. intros r' Hr'. apply Hbelow. by right.
  - assert (lo <= r_begin r) by (apply Hbelow; [by left | lia]).
    assert (committed_bytes l <= A - r_end r); [| lia].
    apply IH; try done.
    intros r' Hr' Hne'.
    rewrite Forall_forall in Hhead, Hr.
    specialize (Hhead r' Hr'). specialize (Hr r' Hr').
    unfold begin_le, overlap in *. lia.
Qed.

(** X2. In a block below [2 ^ 63] bytes, after any sequence of successful
    [Commit] and [Free] calls from the empty block, the commit list is in
    ascending order of begin and every range lies inside the block, its
    begin at or before its end. *)
Theorem commits_sorted_within_block this memory_ properties A type ops a :
  0 <= A < 2 ^ 63 ->
  Forall block_op_wf ops ->
  block_run this ops (MemoryAllocation.new memory_ properties A type) = Some a ->
  MemoryAllocation.allocation_size a = A
  /\ StronglySorted begin_le (MemoryAllocation.commits a)
  /\ Forall (fun r => 0 <= r_begin r <= r_end r /\ r_end r <= A)
            (MemoryAllocation.commits a).
Proof.
  intros HA Hwf Hrun.
  destruct (block_inv_run this ops (MemoryAllocation.new memory_ properties A type) a
              HA Hwf (block_inv_nil A) Hrun) as [HA' [Hs He _]].
  pose proof (ranges_ordered_run this ops
                (MemoryAllocation.new memory_ properties A type) a
                HA Hwf (block_inv_nil A) (Forall_nil_2 _) Hrun) as Hord.
  split; [done |]. split; [done |].
  simpl in He. unfold ranges_ordered in Hord.
  rewrite Forall_forall in He, Hord |- *. intros r Hr.
  specialize (He r Hr). specialize (Hord r Hr). lia.
Qed.

Lemma commits_sorted_within_block_witness :
  exists a,
    block_run 0 [DoCommit 64 16; DoCommit 32 32; DoFree 0; DoCommit 16 8]
      (MemoryAllocation.new 7 6 4096 1) = Some a
    /\ StronglySorted begin_le (MemoryAllocation.commits a).
Proof.
  eexists. split; [vm_compute; reflexivity |].
  eapply (commits_sorted_within_block 0 7 6 4096 1
            [DoCommit 64 16; DoCommit 32 32; DoFree 0; DoCommit 16 8]).
  - lia.
  - repeat constructor; unfold is_u64; lia.
  - vm_compute. reflexivity.
Defined.

(** X3. In a block below [2 ^ 63] bytes, after any sequence of successful
    [Commit] and [Free] calls from the empty block, the lengths of the
    stored ranges add up to at most the block's size. *)
Theorem committed_bytes_within_block this memory_ properties A type ops a :
  0 <= A < 2 ^ 63 ->
  Forall block_op_wf ops ->
  block_run this ops (MemoryAllocation.new memory_ properties A type) = Some a ->
  0 <= committed_bytes (MemoryAllocation.commits a) <= A.
Proof.
  intros HA Hwf Hrun.
  destruct (block_inv_run this ops (MemoryAllocation.new memory_ properties A type) a
              HA Hwf (block_inv_nil A) Hrun) as [HA' [Hs He Hd]].
  pose proof (ranges_ordered_run this ops
                (MemoryAllocation.new memory_ properties A type) a
                HA Hwf (block_inv_nil A) (Forall_nil_2 _) Hrun) as Hord.
  simpl in He. split.
  - clear -Hord. induction Hord as [| r l Hr Hl IH]; simpl; lia.
  - pose proof (committed_bytes_bound A _ Hs Hd He Hord 0 ltac:(lia)) as H.
    rewrite Z.sub_0_r in H. apply H.
    intros r Hr _. unfold ranges_ordered in Hord. rewrite Forall_forall in Hord.
    specialize (Hord r Hr). lia.
Qed.

Lemma committed_bytes_within_block_witness :
  exists a,
    block_run 0 [DoCommit 4000 16; DoCommit 64 32; DoFree 0; DoCommit 16 8]
      (MemoryAllocation.new 7 6 4096 1) = Some a
    /\ 0 <= committed_bytes (MemoryAllocation.commits a) <= 4096.
Proof.
  eexists. split; [vm_compute; reflexivity |].
  eapply (committed_bytes_within_block 0 7 6 4096 1
            [DoCommit 4000 16; DoCommit 64 32; DoFree 0; DoCommit 16 8]).
  - lia.
  - repeat constructor; unfold is_u64; lia.
  - vm_compute. reflexivity.
Defined.

(** ** Commit and Free compose *)

(** A block with two ranges, for the examples below. *)
Lemma example_block_inv : block_inv 4096 [mkRange 0 100; mkRange 256 300].
Proof.
  split; simpl.
  - repeat constructor; unfold begin_le; simpl; lia.
  - repeat constructor; simpl; lia.
  - repeat split; repeat constructor; unfold overlap; simpl; lia.
Qed.

Lemma example_block_nonempty : ranges_nonempty [mkRange 0 100; mkRange 256 300].
Proof. repeat constructor; simpl; lia. Qed.


Lemma erase_first_insert_upper_bound range l :
  Forall (fun x => r_begin x <> r_begin range) l ->
  MemoryAllocation.erase_first (r_begin range)
    (MemoryAllocation.insert_upper_bound range l) = Some l.
Proof.
  induction l as [| x l IH]; intros Hl; simpl.
  - by rewrite Z.eqb_refl.
  - apply Forall_cons in Hl as [Hx Hl].
    destruct (r_begin range <? r_begin x); simpl.
    + by rewrite Z.eqb_refl.
    + rewrite (proj2 (Z.eqb_neq _ _) Hx). by rewrite IH.
Qed.

Lemma Commit_then_Free this a size alignment c a' :
  0 <= MemoryAllocation.allocation_size a < 2 ^ 63 ->
  is_u64 size -> 0 < size -> is_u64 alignment ->
  block_inv (MemoryAllocation.allocation_size a) (MemoryAllocation.commits a) ->
  ranges_nonempty (MemoryAllocation.commits a) ->
  MemoryAllocation.Commit this a size alignment = Ok (Some (c, a')) ->
  MemoryAllocation.Free a' (fst (mc_interval c)) = Ok a.
Proof.
  intros HA Hsize Hpos Hal [Hs He _] Hne (alloc & Hf & -> & ->)%Commit_inv.
  destruct (FindFreeRegion_free a size alignment alloc HA Hsize Hal Hs He Hf)
    as (H0 & Hcap & Hfree).
  unfold MemoryAllocation.Free. simpl.
  rewrite (erase_first_insert_upper_bound
             {| r_begin := alloc; r_end := wrap64 (alloc + size) |}).
  - by destruct a.
  - simpl. unfold ranges_nonempty in Hne.
    rewrite Forall_forall in Hfree, Hne |- *. intros r Hr Heq.
    specialize (Hfree r Hr). specialize (Hne r Hr). unfold free_at in Hfree. lia.
Qed.

(** X4. In a block below [2 ^ 63] bytes whose stored ranges are non-empty,
    a successful [Commit] of at least one byte followed by [Free] of the
    begin it returned gives back the block exactly as it was. *)
Theorem Commit_Free_round_trip this a size alignment c a' :
  0 <= MemoryAllocation.allocation_size a < 2 ^ 63 ->
  is_u64 size -> 0 < size -> is_u64 alignment ->
  block_inv (MemoryAllocation.allocation_size a) (MemoryAllocation.commits a) ->
  ranges_nonempty (MemoryAllocation.commits a) ->
  MemoryAllocation.Commit this a size alignment = Ok (Some (c, a')) ->
  MemoryAllocation.Free a' (fst (mc_interval c)) = Ok a.
Proof. apply Commit_then_Free. Qed.

Lemma Commit_Free_round_trip_witness :
  let a := MemoryAllocation.mk 7 4096 6 2 [mkRange 0 100; mkRange 256 300] in
  exists c a',
    MemoryAllocation.Commit 0 a 64 128 = Ok (Some (c, a'))
    /\ MemoryAllocation.Free a' (fst (mc_interval c)) = Ok a.
Proof.
  intros a.
  destruct (MemoryAllocation.Commit 0 a 64 128) as [[[c a'] |] | e] eqn:E;
    try (vm_compute in E; discriminate).
  exists c, a'. split; [done |].
  assert (HA : 0 <= MemoryAllocation.allocation_size a < 2 ^ 63) by (simpl; lia).
  assert (H64 : is_u64 64) by (unfold is_u64; lia).
  assert (H128 : is_u64 128) by (unfold is_u64; lia).
  assert (Hpos : 0 < 64) by lia.
  exact (Commit_Free_round_trip 0 a 64 128 c a' HA H64 Hpos H128
           example_block_inv example_block_nonempty E).
Defined.

(** The begin of a range names it only among non-empty ranges: an empty
    range may share its begin with the range committed after it, and
    [Free] of that begin then removes the empty one, which comes first.
    The region just committed stays taken, and the same request lands
    above it. *)
Lemma Free_of_shared_begin_removes_empty_range :
  exists c1 a1 c2 a2 a3 c4 a4,
    MemoryAllocation.Commit 0 (MemoryAllocation.new 7 1 4096 0) 0 1 = Ok (Some (c1, a1))
    /\ MemoryAllocation.commits a1 = [mkRange 0 0]
    /\ MemoryAllocation.Commit 0 a1 16 16 = Ok (Some (c2, a2))
    /\ fst (mc_interval c2) = 0
    /\ MemoryAllocation.Free a2 0 = Ok a3
    /\ MemoryAllocation.commits a3 = [mkRange 0 16]
    /\ MemoryAllocation.Commit 0 a3 16 16 = Ok (Some (c4, a4))
    /\ fst (mc_interval c4) = 16.
Proof.
  do 7 eexists.
  repeat (split; [reflexivity |]). reflexivity.
Qed.

(** X5. In a block below [2 ^ 63] bytes whose commit list is sorted by
    begin, inside the block and free of overlaps, and whose stored ranges
    are non-empty: after a successful [Commit] of at least one byte and
    the [Free] of the begin it returned, a request of the same or a
    smaller size with the same alignment succeeds in that block, at an
    offset no higher than the one freed. *)
Theorem freed_region_is_reused this a size alignment c a' size' :
  0 <= MemoryAllocation.allocation_size a < 2 ^ 63 ->
  is_u64 size -> 0 < size -> is_u64 alignment ->
  block_inv (MemoryAllocation.allocation_size a) (MemoryAllocation.commits a) ->
  ranges_nonempty (MemoryAllocation.commits a) ->
  MemoryAllocation.Commit this a size alignment = Ok (Some (c, a')) ->
  0 <= size' <= size ->
  exists a'' c2 a3,
    MemoryAllocation.Free a' (fst (mc_interval c)) = Ok a''
    /\ MemoryAllocation.Commit this a'' size' alignment = Ok (Some (c2, a3))
    /\ fst (mc_interval c2) <= fst (mc_interval c).
Proof.
  intros HA Hsize Hpos Hal Hinv Hne Hc Hs'.
  exists a. rewrite (Commit_then_Free this a size alignment c a') by done.
  assert (Hsb : has_single_bit alignment = true).
  { apply Commit_inv in Hc as (alloc & Hf & _).
    unfold MemoryAllocation.FindFreeRegion in Hf.
    by destruct (has_single_bit alignment). }
  assert (Hsize' : is_u64 size') by (unfold is_u64 in *; lia).
  destruct Hinv as [Hso He Hd].
  pose proof (FindFreeRegion_lowest a size alignment HA Hsize Hal Hsb Hso He) as H1.
  pose proof (FindFreeRegion_lowest a size' alignment HA Hsize' Hal Hsb Hso He) as H2.
  apply Commit_inv in Hc as (alloc & Hf & -> & _). rewrite Hf in H1.
  destruct H1 as [Hfree _].
  apply (region_free_smaller _ _ size size') in Hfree; [| done].
  unfold MemoryAllocation.Commit.
  destruct (MemoryAllocation.FindFreeRegion a size' alignment) as [[c2 |] | e];
    simpl; [| by destruct (H2 alloc) | done].
  destruct H2 as [_ Hlow]. do 2 eexists. split; [done |]. split; [done |].
  simpl. by apply Hlow.
Qed.

Lemma freed_region_is_reused_witness :
  let a := MemoryAllocation.mk 7 4096 6 2 [mkRange 0 100; mkRange 256 300] in
  exists c a' a'' c2 a3,
    MemoryAllocation.Commit 0 a 64 128 = Ok (Some (c, a'))
    /\ MemoryAllocation.Free a' (fst (mc_interval c)) = Ok a''
    /\ MemoryAllocation.Commit 0 a'' 48 128 = Ok (Some (c2, a3))
    /\ fst (mc_interval c2) <= fst (mc_interval c).
Proof.
  intros a.
  destruct (MemoryAllocation.Commit 0 a 64 128) as [[[c a'] |] | e] eqn:E;
    try (vm_compute in E; discriminate).
  exists c, a'.
  assert (HA : 0 <= MemoryAllocation.allocation_size a < 2 ^ 63) by (simpl; lia).
  assert (H64 : is_u64 64) by (unfold is_u64; lia).
  assert (H128 : is_u64 128) by (unfold is_u64; lia).
  assert (Hpos : 0 < 64) by lia.
  assert (H48 : 0 <= 48 <= 64) by lia.
  destruct (freed_region_is_reused 0 a 64 128 c a' 48 HA H64 Hpos H128
              example_block_inv example_block_nonempty E H48)
    as (a'' & c2 & a3 & H).
  by exists a'', c2, a3.
Defined.

(** ** FindType and the flag resolution, as the code computes them *)

(** X6. [FindType] answers the least index of the table whose bit is set
    in the type mask and whose flags share a bit with the requested
    flags, and nothing when no index is such; so it answers nothing for
    an empty flag set or an empty mask. *)
Theorem FindType_least_match al flags type_mask :
  match MemoryAllocator.FindType al flags type_mask with
  | Some i =>
      exists n type_flags,
        i = Z.of_nat n
        /\ MemoryAllocator.properties al !! n = Some type_flags
        /\ type_matches flags type_mask n type_flags
        /\ forall m tf, (m < n)%nat -> MemoryAllocator.properties al !! m = Some tf ->
             ~ type_matches flags type_mask m tf
  | None =>
      forall n type_flags,
        MemoryAllocator.properties al !! n = Some type_flags ->
        ~ type_matches flags type_mask n type_flags
  end
  /\ MemoryAllocator.FindType al 0 type_mask = None
  /\ MemoryAllocator.FindType al flags 0 = None.
Proof.
  assert (Hno : forall f tm,
             (forall n tf, ~ type_matches f tm n tf) ->
             MemoryAllocator.FindType al f tm = None).
  { intros f tm H. unfold MemoryAllocator.FindType.
    destruct (MemoryAllocator.FindType_from (MemoryAllocator.properties al) 0 f tm)
      as [i |] eqn:E; [exfalso | done].
    apply FindType_from_spec in E as (n & tf & -> & _ & H1 & H2 & _).
    by apply (H n tf). }
  split; [| split].
  - unfold MemoryAllocator.FindType.
    destruct (MemoryAllocator.FindType_from (MemoryAllocator.properties al) 0
                flags type_mask) as [i |] eqn:E.
    + apply FindType_from_spec in E as (n & tf & -> & Hn & H1 & H2 & Hmin).
      exists n, tf. repeat split; try done.
      intros m tf' Hm Hl [Ha Hb]. destruct (Hmin m tf' Hm Hl); done.
    + intros n tf Hn [Ha Hb].
      destruct (FindType_from_none _ _ _ _ E n tf Hn); done.
  - apply Hno. intros n tf [_ H]. by rewrite Z.land_0_r in H.
  - apply Hno. intros n tf [H _]. by rewrite Z.land_0_l in H.
Qed.

(** X7. The flag resolution never changes the flags: it returns the
    flags it was given when [FindType] finds a type for them, and
    otherwise ends in the unreachable failure, whatever bits it drops on
    the way. *)
Theorem MemoryPropertyFlags_all_or_nothing al type_mask flags :
  match MemoryAllocator.FindType al flags type_mask with
  | Some _ => MemoryAllocator.MemoryPropertyFlags al type_mask flags = Ok flags
  | None => MemoryAllocator.MemoryPropertyFlags al type_mask flags = Err Unreachable
  end.
Proof.
  destruct (MemoryAllocator.FindType al flags type_mask) as [t |] eqn:E.
  - by rewrite MemoryPropertyFlags_unfold, E.
  - by apply MemoryPropertyFlags_no_second_chance.
Qed.

(** ** TryCommit: first fit across the blocks *)

Lemma TryCommit_from_hit requirements flags l :
  forall index c l',
    MemoryAllocator.TryCommit_from index l requirements flags = Ok (Some (c, l')) ->
    exists n blk blk',
      l !! n = Some blk
      /\ MemoryAllocation.IsCompatible blk flags (memoryTypeBits requirements) = true
      /\ MemoryAllocation.Commit (index + n) blk (size requirements)
           (alignment requirements) = Ok (Some (c, blk'))
      /\ l' = <[n := blk']> l
      /\ forall m b, (m < n)%nat -> l !! m = Some b ->
           MemoryAllocation.IsCompatible b flags (memoryTypeBits requirements) = false
           \/ MemoryAllocation.Commit (index + m) b (size requirements)
                (alignment requirements) = Ok None.
Proof.
  induction l as [| a l IH]; intros index c l'; simpl; [done |].
  assert (Hskip :
      (MemoryAllocation.IsCompatible a flags (memoryTypeBits requirements) = false
       \/ MemoryAllocation.Commit index a (size requirements)
            (alignment requirements) = Ok None) ->
      (r ← MemoryAllocator.TryCommit_from (S index) l requirements flags;
       Ok (on_second (cons a) r)) = Ok (Some (c, l')) ->
      exists n blk blk',
        (a :: l) !! n = Some blk
        /\ MemoryAllocation.IsCompatible blk flags (memoryTypeBits requirements) = true
        /\ MemoryAllocation.Commit (index + n) blk (size requirements)
             (alignment requirements) = Ok (Some (c, blk'))
        /\ l' = <[n := blk']> (a :: l)
        /\ forall m b, (m < n)%nat -> (a :: l) !! m = Some b ->
             MemoryAllocation.IsCompatible b flags (memoryTypeBits requirements) = false
             \/ MemoryAllocation.Commit (index + m) b (size requirements)
                  (alignment requirements) = Ok None).
  { intros Ha H.
    destruct (MemoryAllocator.TryCommit_from (S index) l requirements flags)
      as [[[c0 l0] |] | e] eqn:E; simpl in H; try done.
    injection H as <- <-.
    destruct (IH _ _ _ E) as (n & blk & blk' & Hn & Hcompat & Hcommit & -> & Hmin).
    exists (S n), blk, blk'. rewrite Nat.add_succ_r. simpl.
    repeat split; try done.
    intros [| m] b Hm; simpl.
    - intros [= <-]. by rewrite Nat.add_0_r.
    - intros Hb. rewrite Nat.add_succ_r. apply (Hmin m b); [lia | done]. }
  destruct (MemoryAllocation.IsCompatible a flags (memoryTypeBits requirements))
    eqn:Hcompat; simpl; [| apply Hskip; by left].
  destruct (MemoryAllocation.Commit index a (size requirements) (alignment requirements))
    as [[[c0 a'] |] | e] eqn:Hcommit; simpl; [| apply Hskip; by right | done].
  intros [= <- <-]. exists 0%nat, a, a'. rewrite Nat.add_0_r. simpl.
  repeat split; try done. intros m b Hm. lia.
Qed.

Lemma TryCommit_from_miss requirements flags l :
  forall index,
    MemoryAllocator.TryCommit_from index l requirements flags = Ok None ->
    forall m b, l !! m = Some b ->
      MemoryAllocation.IsCompatible b flags (memoryTypeBits requirements) = false
      \/ MemoryAllocation.Commit (index + m) b (size requirements)
           (alignment requirements) = Ok None.
Proof.
  induction l as [| a l IH]; intros index; simpl; [done |].
  assert (Hskip :
      (MemoryAllocation.IsCompatible a flags (memoryTypeBits requirements) = false
       \/ MemoryAllocation.Commit index a (size requirements)
            (alignment requirements) = Ok None) ->
      (r ← MemoryAllocator.TryCommit_from (S index) l requirements flags;
       Ok (on_second (cons a) r)) = Ok None ->
      forall m b, (a :: l) !! m = Some b ->
        MemoryAllocation.IsCompatible b flags (memoryTypeBits requirements) = false
        \/ MemoryAllocation.Commit (index + m) b (size requirements)
             (alignment requirements) = Ok None).
  { intros Ha H.
    destruct (MemoryAllocator.TryCommit_from (S index) l requirements flags)
      as [[[c0 l0] |] | e] eqn:E; simpl in H; try done.
    intros [| m] b; simpl.
    - intros [= <-]. by rewrite Nat.add_0_r.
    - intros Hb. rewrite Nat.add_succ_r. by apply (IH _ E m b). }
  destruct (MemoryAllocation.IsCompatible a flags (memoryTypeBits requirements))
    eqn:Hcompat; simpl; [| apply Hskip; by left].
  destruct (MemoryAllocation.Commit index a (size requirements) (alignment requirements))
    as [[[c0 a'] |] | e] eqn:Hcommit; simpl; [done | apply Hskip; by right | done].
Qed.

Lemma TryCommit_from_error requirements flags l :
  forall index e,
    MemoryAllocator.TryCommit_from index l requirements flags = Err e ->
    e = AssertionFailed /\ has_single_bit (alignment requirements) = false.
Proof.
  induction l as [| a l IH]; intros index e; simpl; [done |].
  assert (Hskip :
      (r ← MemoryAllocator.TryCommit_from (S index) l requirements flags;
       Ok (on_second (cons a) r)) = Err e ->
      e = AssertionFailed /\ has_single_bit (alignment requirements) = false).
  { destruct (MemoryAllocator.TryCommit_from (S index) l requirements flags)
      as [r | e0] eqn:E; simpl; [done |].
    intros [= <-]. by eapply IH. }
  destruct (MemoryAllocation.IsCompatible a flags (memoryTypeBits requirements));
    simpl; [| exact Hskip].
  unfold MemoryAllocation.Commit at 1, MemoryAllocation.FindFreeRegion.
  destruct (has_single_bit (alignment requirements)) eqn:Hsb; simpl.
  - destruct (MemoryAllocation.FindFreeRegion_loop _ _ _ _ _ _); simpl; [done |].
    intros H. destruct (Hskip H) as [? ?]. done.
  - by intros [= <-].
Qed.

(** X8. [TryCommit] commits in the first block, in list order, that is
    compatible and has room: that block alone changes, by the commit; the
    handle points to it; every block before it is incompatible or has no
    room.  It yields nothing exactly when every block is incompatible or
    has no room, and it fails only on the alignment assertion. *)
Theorem TryCommit_first_fit al requirements flags :
  match MemoryAllocator.TryCommit al requirements flags with
  | Ok (Some (c, al')) =>
      exists n blk blk',
        MemoryAllocator.allocations al !! n = Some blk
        /\ MemoryAllocation.IsCompatible blk flags (memoryTypeBits requirements) = true
        /\ MemoryAllocation.Commit n blk (size requirements) (alignment requirements)
           = Ok (Some (c, blk'))
        /\ mc_allocation c = Some n
        /\ al' = MemoryAllocator.set_allocations al
                   (<[n := blk']> (MemoryAllocator.allocations al))
        /\ forall m b, (m < n)%nat -> MemoryAllocator.allocations al !! m = Some b ->
             MemoryAllocation.IsCompatible b flags (memoryTypeBits requirements) = false
             \/ MemoryAllocation.Commit m b (size requirements) (alignment requirements)
                = Ok None
  | Ok None =>
      forall m b, MemoryAllocator.allocations al !! m = Some b ->
        MemoryAllocation.IsCompatible b flags (memoryTypeBits requirements) = false
        \/ MemoryAllocation.Commit m b (size requirements) (alignment requirements)
           = Ok None
  | Err e => e = AssertionFailed /\ has_single_bit (alignment requirements) = false
  end.
Proof.
  unfold MemoryAllocator.TryCommit.
  destruct (MemoryAllocator.TryCommit_from 0 (MemoryAllocator.allocations al)
              requirements flags) as [[[c l'] |] | e] eqn:E; simpl.
  - destruct (TryCommit_from_hit _ _ _ _ _ _ E)
      as (n & blk & blk' & Hn & Hcompat & Hcommit & -> & Hmin).
    exists n, blk, blk'. simpl in *. repeat split; try done.
    apply Commit_inv in Hcommit as (alloc & _ & -> & _). done.
  - intros m b Hb. by apply (TryCommit_from_miss _ _ _ _ E m b).
  - by eapply TryCommit_from_error.
Qed.

(** ** The allocator's Commit over the blocks *)

(** A successful [Commit] is a successful [TryCommit], on the allocator
    as it is or as [AllocMemory] has grown it after a miss. *)
Lemma Commit_cases al requirements usage c al' :
  MemoryAllocator.Commit al requirements usage = Ok (c, al') ->
  exists flags al0,
    MemoryAllocator.MemoryPropertyFlags_usage al (memoryTypeBits requirements) usage
    = Ok flags
    /\ (al0 = al
        \/ exists type memory_,
             MemoryAllocator.TryCommit al requirements flags = Ok None
             /\ MemoryAllocator.FindType al flags (memoryTypeBits requirements)
                = Some type
             /\ al0 = MemoryAllocator.set_allocations al
                        (MemoryAllocator.allocations al
                         ++ [MemoryAllocation.new memory_ flags
                               (AllocationChunkSize (size requirements)) type]))
    /\ MemoryAllocator.TryCommit al0 requirements flags = Ok (Some (c, al')).
Proof.
  unfold MemoryAllocator.Commit.
  destruct (MemoryAllocator.MemoryPropertyFlags_usage al
              (memoryTypeBits requirements) usage) as [flags | e]; [| done]. simpl.
  destruct (MemoryAllocator.TryCommit al requirements flags)
    as [[r |] | e] eqn:Hfirst; simpl; [| | done].
  - intros [= ->]. exists flags, al. split; [done |]. split; [by left | done].
  - unfold MemoryAllocator.AllocMemory.
    destruct (MemoryAllocator.FindType al flags (memoryTypeBits requirements))
      as [type |] eqn:Htype; [| done].
    destruct (AllocateMemory (MemoryAllocator.device al)
                (AllocationChunkSize (size requirements)) type) as [memory_ |]; [| done].
    simpl.
    destruct (MemoryAllocator.TryCommit
                (MemoryAllocator.set_allocations al
                   (MemoryAllocator.allocations al
                    ++ [MemoryAllocation.new memory_ flags
                          (AllocationChunkSize (size requirements)) type]))
                requirements flags)
      as [[r |] | e] eqn:Hsecond; simpl; [| done | done].
    intros [= ->]. exists flags. eexists.
    split; [done |].
    split; [right; by exists type, memory_ | done].
Qed.

Lemma TryCommit_hit al requirements flags c al' :
  MemoryAllocator.TryCommit al requirements flags = Ok (Some (c, al')) ->
  exists n blk blk',
    MemoryAllocator.allocations al !! n = Some blk
    /\ MemoryAllocation.Commit n blk (size requirements) (alignment requirements)
       = Ok (Some (c, blk'))
    /\ mc_allocation c = Some n
    /\ al' = MemoryAllocator.set_allocations al
               (<[n := blk']> (MemoryAllocator.allocations al)).
Proof.
  unfold MemoryAllocator.TryCommit.
  destruct (MemoryAllocator.TryCommit_from 0 (MemoryAllocator.allocations al)
              requirements flags) as [[[c0 l'] |] | e] eqn:E; simpl; try done.
  intros [= <- <-].
  destruct (TryCommit_from_hit _ _ _ _ _ _ E)
    as (n & blk & blk' & Hn & _ & Hcommit & -> & _).
  exists n, blk, blk'. simpl in *. repeat split; try done.
  apply Commit_inv in Hcommit as (alloc & _ & -> & _). done.
Qed.

Lemma Commit_aligned_bounds this a size alignment c a' :
  0 <= MemoryAllocation.allocation_size a < 2 ^ 63 ->
  is_u64 size -> is_u64 alignment ->
  block_inv (MemoryAllocation.allocation_size a) (MemoryAllocation.commits a) ->
  MemoryAllocation.Commit this a size alignment = Ok (Some (c, a')) ->
  fst (mc_interval c) mod alignment = 0
  /\ 0 <= fst (mc_interval c)
  /\ fst (mc_interval c) + size <= MemoryAllocation.allocation_size a
  /\ {| r_begin := fst (mc_interval c); r_end := snd (mc_interval c) |}
       ∈ MemoryAllocation.commits a'
  /\ mc_memory c = MemoryAllocation.memory a'.
Proof.
  intros HA Hsize Hal [Hs He _] (alloc & Hf & -> & ->)%Commit_inv.
  destruct (FindFreeRegion_free a size alignment alloc HA Hsize Hal Hs He Hf)
    as (H0 & Hcap & _).
  destruct (FindFreeRegion_fits a size alignment alloc Hal Hf) as (_ & Hmod & _).
  simpl. repeat split; try done. apply insert_upper_bound_In.
Qed.

Lemma allocator_inv_TryCommit al requirements flags c al' :
  allocator_inv al ->
  is_u64 (size requirements) -> is_u64 (alignment requirements) ->
  MemoryAllocator.TryCommit al requirements flags = Ok (Some (c, al')) ->
  allocator_inv al'
  /\ exists n blk,
       mc_allocation c = Some n
       /\ MemoryAllocator.allocations al' !! n = Some blk
       /\ mc_memory c = MemoryAllocation.memory blk
       /\ {| r_begin := fst (mc_interval c); r_end := snd (mc_interval c) |}
            ∈ MemoryAllocation.commits blk
       /\ fst (mc_interval c) mod alignment requirements = 0
       /\ 0 <= fst (mc_interval c)
       /\ snd (mc_interval c) = fst (mc_interval c) + size requirements
       /\ snd (mc_interval c) <= MemoryAllocation.allocation_size blk
       /\ pairwise_disjoint (MemoryAllocation.commits blk).
Proof.
  intros Hinv Hsize Hal Htry.
  destruct (TryCommit_hit _ _ _ _ _ Htry) as (n & blk & blk' & Hn & Hcommit & Hptr & ->).
  unfold allocator_inv in Hinv.
  pose proof (proj1 (Forall_lookup _ _) Hinv n blk Hn) as [HA Hblk].
  destruct (block_inv_Commit n blk _ _ c blk' HA Hsize Hal Hblk Hcommit)
    as (HA' & Hblk' & Hend).
  destruct (Commit_aligned_bounds n blk _ _ c blk' HA Hsize Hal Hblk Hcommit)
    as (Hmod & H0 & Hcap & Hin & Hmem).
  split.
  - unfold allocator_inv. simpl. apply Forall_insert; [done |].
    by rewrite HA'.
  - exists n, blk'. simpl.
    rewrite list_lookup_insert_eq by (by eapply lookup_lt_Some).
    repeat split; try done.
    + rewrite Hend, HA'. lia.
    + apply disjoint_list_pairwise. by destruct Hblk'.
Qed.

(** ** Chunk sizes *)

Lemma sizes_cases (P : Z -> Prop) :
  Forall P sizes -> forall s, s ∈ sizes -> P s.
Proof. intros H s Hs. by apply (proj1 (Forall_forall _ _) H). Qed.

Lemma sizes_fixed :
  Forall (fun s => 4194304 <= s <= 134217728
                   /\ s mod 524288 = 0
                   /\ AllocationChunkSize s = s) sizes.
Proof.
  rewrite sizes_values.
  repeat (apply Forall_cons; split;
          [split; [lia | split; by vm_compute] |]).
  apply Forall_nil. done.
Qed.

Lemma multiples_close a b m :
  0 < m -> a mod m = 0 -> b mod m = 0 -> a <= b < a + m -> a = b.
Proof.
  intros Hm Ha Hb Hab.
  apply Z.mod_divide in Ha; [| lia]. apply Z.mod_divide in Hb; [| lia].
  destruct Ha as [qa ->], Hb as [qb ->].
  assert (qa <= qb) by (apply (Z.mul_le_mono_pos_r _ _ m); lia).
  assert (qb < qa + 1) by (apply (Z.mul_lt_mono_pos_r m); lia).
  f_equal. lia.
Qed.

Lemma AllocationChunkSize_bound x :
  0 <= x <= 2 ^ 63 - 2 ^ 22 -> 0 <= AllocationChunkSize x < 2 ^ 63.
Proof.
  intros Hx. destruct (Z.le_gt_cases x 134217728) as [Hle | Hgt].
  - destruct (AllocationChunkSize_table x Hle) as (Hin & _ & _).
    pose proof (sizes_cases _ sizes_fixed _ Hin) as (? & _). lia.
  - rewrite AllocationChunkSize_large by done.
    destruct (AlignUp_4MiB x ltac:(lia)) as [_ ?]. lia.
Qed.

(** X9. For a size up to [2 ^ 64 - 2 ^ 22], the chunk size is at least
    4 MiB, a multiple of 512 KiB, itself within that range, and a fixed
    point of [AllocationChunkSize]: a block of a chunk size is asked for
    as it is. *)
Theorem AllocationChunkSize_fixed_point x :
  0 <= x <= 2 ^ 64 - 2 ^ 22 ->
  4194304 <= AllocationChunkSize x <= 2 ^ 64 - 2 ^ 22
  /\ AllocationChunkSize x mod 524288 = 0
  /\ AllocationChunkSize (AllocationChunkSize x) = AllocationChunkSize x.
Proof.
  intros Hx. destruct (Z.le_gt_cases x 134217728) as [Hle | Hgt].
  - destruct (AllocationChunkSize_table x Hle) as (Hin & _ & _).
    pose proof (sizes_cases _ sizes_fixed _ Hin) as (? & ? & ?).
    split; [lia | done].
  - rewrite AllocationChunkSize_large by done.
    destruct (AlignUp_4MiB x ltac:(lia)) as [Hm Hb].
    set (y := AlignUp x (Z.shiftl 4 20)) in *.
    assert (Hy : y <= 2 ^ 64 - 2 ^ 22).
    { apply Z.mod_divide in Hm; [| lia]. destruct Hm as [q Hq]. lia. }
    split; [lia |]. split.
    + apply Z.mod_divide in Hm; [| lia]. destruct Hm as [q ->].
      apply Z.mod_divide; [lia |]. exists (q * 8). lia.
    + rewrite AllocationChunkSize_large by lia.
      destruct (AlignUp_4MiB y ltac:(lia)) as [Hm' Hb'].
      symmetry. apply (multiples_close _ _ (2 ^ 22)); [lia | done | done | lia].
Qed.

Lemma AllocationChunkSize_fixed_point_witness :
  4194304 <= AllocationChunkSize 200000000 <= 2 ^ 64 - 2 ^ 22
  /\ AllocationChunkSize 200000000 mod 524288 = 0
  /\ AllocationChunkSize (AllocationChunkSize 200000000)
     = AllocationChunkSize 200000000.
Proof. apply (AllocationChunkSize_fixed_point 200000000); lia. Defined.

(** ** The allocator's Commit: invariant, stability, progress *)

Lemma allocator_inv_grown al memory_ flags A type :
  allocator_inv al -> 0 <= A < 2 ^ 63 ->
  allocator_inv
    (MemoryAllocator.set_allocations al
       (MemoryAllocator.allocations al ++ [MemoryAllocation.new memory_ flags A type])).
Proof.
  intros Hinv HA. unfold allocator_inv. simpl.
  apply Forall_app_2; [done |]. apply Forall_singleton. simpl.
  split; [done | apply block_inv_nil].
Qed.

(** X10. [Commit] keeps every block's commit list sorted, within the
    block and free of overlaps, and the handle it returns names a block
    of the allocator that stores the handle's range: the range is aligned,
    [size] bytes long and inside that block, and the handle carries the
    block's memory.  Sizes are taken up to [2 ^ 63 - 2 ^ 22], so that a new
    block stays below [2 ^ 63] bytes. *)
Theorem Commit_keeps_allocator_inv al requirements usage c al' :
  allocator_inv al ->
  0 <= size requirements <= 2 ^ 63 - 2 ^ 22 ->
  is_u64 (alignment requirements) ->
  MemoryAllocator.Commit al requirements usage = Ok (c, al') ->
  allocator_inv al'
  /\ exists n blk,
       mc_allocation c = Some n
       /\ MemoryAllocator.allocations al' !! n = Some blk
       /\ mc_memory c = MemoryAllocation.memory blk
       /\ {| r_begin := fst (mc_interval c); r_end := snd (mc_interval c) |}
            ∈ MemoryAllocation.commits blk
       /\ fst (mc_interval c) mod alignment requirements = 0
       /\ 0 <= fst (mc_interval c)
       /\ snd (mc_interval c) = fst (mc_interval c) + size requirements
       /\ snd (mc_interval c) <= MemoryAllocation.allocation_size blk
       /\ pairwise_disjoint (MemoryAllocation.commits blk).
Proof.
  intros Hinv Hsize Hal (flags & al0 & _ & Hal0 & Htry)%Commit_cases.
  apply (allocator_inv_TryCommit al0 requirements flags); try done.
  - destruct Hal0 as [-> | (type & memory_ & _ & _ & ->)]; [done |].
    apply allocator_inv_grown; [done |]. by apply AllocationChunkSize_bound.
  - unfold is_u64. lia.
Qed.

Lemma Commit_keeps_allocator_inv_witness :
  let al := MemoryAllocator.new (mkDevice [1] (fun _ _ => Some 7)) in
  let requirements := mkRequirements 100 16 1 in
  let r := fresh_commit al requirements 1 7 0 in
  allocator_inv (snd r)
  /\ exists n blk,
       mc_allocation (fst r) = Some n
       /\ MemoryAllocator.allocations (snd r) !! n = Some blk
       /\ mc_memory (fst r) = MemoryAllocation.memory blk
       /\ {| r_begin := fst (mc_interval (fst r)); r_end := snd (mc_interval (fst r)) |}
            ∈ MemoryAllocation.commits blk
       /\ fst (mc_interval (fst r)) mod alignment requirements = 0
       /\ 0 <= fst (mc_interval (fst r))
       /\ snd (mc_interval (fst r)) = fst (mc_interval (fst r)) + size requirements
       /\ snd (mc_interval (fst r)) <= MemoryAllocation.allocation_size blk
       /\ pairwise_disjoint (MemoryAllocation.commits blk).
Proof.
  intros al requirements r.
  apply (Commit_keeps_allocator_inv al requirements DeviceLocal (fst r) (snd r)).
  - unfold allocator_inv. simpl. constructor.
  - simpl. lia.
  - by vm_compute.
  - reflexivity.
Defined.

Lemma Commit_same_block this a size alignment c a' :
  MemoryAllocation.Commit this a size alignment = Ok (Some (c, a')) -> same_block a a'.
Proof. intros (alloc & _ & _ & ->)%Commit_inv. by repeat split. Qed.

(** X11. [Commit] never moves, drops or rebuilds a block: every block
    stays at its index with its memory, size, flags and type; only the
    block the handle names may have changed (by its commit list); at most
    one block is added, at the end; the device and the type table are
    untouched. *)
Theorem Commit_keeps_blocks al requirements usage c al' :
  MemoryAllocator.Commit al requirements usage = Ok (c, al') ->
  MemoryAllocator.device al' = MemoryAllocator.device al
  /\ MemoryAllocator.properties al' = MemoryAllocator.properties al
  /\ (length (MemoryAllocator.allocations al)
      <= length (MemoryAllocator.allocations al')
      <= S (length (MemoryAllocator.allocations al)))%nat
  /\ forall m b,
       MemoryAllocator.allocations al !! m = Some b ->
       exists b',
         MemoryAllocator.allocations al' !! m = Some b'
         /\ same_block b b'
         /\ (mc_allocation c <> Some m -> b' = b).
Proof.
  intros (flags & al0 & _ & Hal0 & Htry)%Commit_cases.
  destruct (TryCommit_hit _ _ _ _ _ Htry) as (n & blk & blk' & Hn & Hcommit & Hptr & ->).
  assert (H0 : MemoryAllocator.device al0 = MemoryAllocator.device al
               /\ MemoryAllocator.properties al0 = MemoryAllocator.properties al
               /\ (length (MemoryAllocator.allocations al)
                   <= length (MemoryAllocator.allocations al0)
                   <= S (length (MemoryAllocator.allocations al)))%nat
               /\ forall m b,
                    MemoryAllocator.allocations al !! m = Some b ->
                    MemoryAllocator.allocations al0 !! m = Some b).
  { destruct Hal0 as [-> | (type & memory_ & _ & _ & ->)]; simpl.
    - split; [done |]. split; [done |]. split; [lia | done].
    - rewrite length_app. simpl.
      split; [done |]. split; [done |]. split; [lia |].
      intros m b Hb. by apply lookup_app_l_Some. }
  destruct H0 as (Hd & Hp & Hlen & Hlook). simpl.
  rewrite length_insert.
  split; [done |]. split; [done |]. split; [done |].
  intros m b Hb. apply Hlook in Hb.
  destruct (decide (m = n)) as [-> | Hne].
  - exists blk'. rewrite list_lookup_insert_eq by (by eapply lookup_lt_Some).
    assert (b = blk) as -> by congruence.
    split; [done |]. split; [by eapply Commit_same_block |].
    intros Hc. by rewrite Hptr in Hc.
  - exists b. rewrite list_lookup_insert_ne by done.
    split; [done |]. split; [by repeat split | done].
Qed.

Lemma Commit_keeps_blocks_witness :
  let al := MemoryAllocator.set_allocations
              (MemoryAllocator.new (mkDevice [1] (fun _ _ => Some 7)))
              [MemoryAllocation.mk 5 4096 1 1 [mkRange 0 100; mkRange 256 300]] in
  let requirements := mkRequirements 100 16 1 in
  let c := mkMemoryCommit (Some 0%nat) 5 (112, 212) None in
  let al' := MemoryAllocator.set_allocations al
               [MemoryAllocation.mk 5 4096 1 1
                  [mkRange 0 100; mkRange 112 212; mkRange 256 300]] in
  MemoryAllocator.device al' = MemoryAllocator.device al
  /\ MemoryAllocator.properties al' = MemoryAllocator.properties al
  /\ (length (MemoryAllocator.allocations al)
      <= length (MemoryAllocator.allocations al')
      <= S (length (MemoryAllocator.allocations al)))%nat
  /\ forall m b,
       MemoryAllocator.allocations al !! m = Some b ->
       exists b',
         MemoryAllocator.allocations al' !! m = Some b'
         /\ same_block b b'
         /\ (mc_allocation c <> Some m -> b' = b).
Proof.
  intros al requirements c al'.
  apply (Commit_keeps_blocks al requirements DeviceLocal c al').
  reflexivity.
Defined.

Lemma TryCommit_error al requirements flags e :
  MemoryAllocator.TryCommit al requirements flags = Err e ->
  e = AssertionFailed /\ has_single_bit (alignment requirements) = false.
Proof.
  unfold MemoryAllocator.TryCommit.
  destruct (MemoryAllocator.TryCommit_from 0 (MemoryAllocator.allocations al)
              requirements flags) as [r | e0] eqn:E; simpl; [done |].
  intros [= <-]. by eapply TryCommit_from_error.
Qed.

(** X12. When the usage's flags share a bit with a memory type allowed by
    the type mask, the alignment is a power of two, the size is at most
    [2 ^ 64 - 2 ^ 22] and the driver provides memory, [Commit] returns a
    handle.  When no allowed type shares a bit with the usage's flags it
    stops at the unreachable mark, whatever the blocks hold. *)
Theorem Commit_succeeds al requirements usage :
  (is_Some (MemoryAllocator.FindType al (MemoryUsagePropertyFlags usage)
              (memoryTypeBits requirements)) ->
   has_single_bit (alignment requirements) = true ->
   0 <= size requirements <= 2 ^ 64 - 2 ^ 22 ->
   (forall type,
      is_Some (AllocateMemory (MemoryAllocator.device al)
                 (AllocationChunkSize (size requirements)) type)) ->
   is_Ok (MemoryAllocator.Commit al requirements usage))
  /\ (MemoryAllocator.FindType al (MemoryUsagePropertyFlags usage)
        (memoryTypeBits requirements) = None ->
      MemoryAllocator.Commit al requirements usage = Err Unreachable).
Proof.
  split.
  - intros [type Htype] Hsb Hsize Hdrv.
    assert (Hflags :
        MemoryAllocator.MemoryPropertyFlags_usage al (memoryTypeBits requirements) usage
        = Ok (MemoryUsagePropertyFlags usage)).
    { unfold MemoryAllocator.MemoryPropertyFlags_usage.
      by rewrite MemoryPropertyFlags_unfold, Htype. }
    destruct (MemoryAllocator.TryCommit al requirements (MemoryUsagePropertyFlags usage))
      as [[r |] | e] eqn:Htry.
    + unfold MemoryAllocator.Commit. rewrite Hflags. simpl. rewrite Htry. simpl.
      by exists r.
    + rewrite (Commit_after_miss al requirements usage _ ltac:(unfold is_u64; lia)
                 Hflags Htry).
      rewrite Htype. destruct (Hdrv type) as [memory_ ->]. rewrite Hsb.
      rewrite (proj2 (Z.leb_le _ _) (AllocationChunkSize_ge _ Hsize)).
      by eexists.
    + apply TryCommit_error in Htry as [_ Hno]. congruence.
  - intros Hnone. unfold MemoryAllocator.Commit, MemoryAllocator.MemoryPropertyFlags_usage.
    by rewrite (MemoryPropertyFlags_no_second_chance _ _ _ Hnone).
Qed.

Lemma Commit_then_release al requirements usage c al' :
  allocator_inv al ->
  Forall (fun b => ranges_nonempty (MemoryAllocation.commits b))
         (MemoryAllocator.allocations al) ->
  0 < size requirements <= 2 ^ 63 - 2 ^ 22 ->
  is_u64 (alignment requirements) ->
  MemoryAllocator.Commit al requirements usage = Ok (c, al') ->
  exists al'',
    release_commit al' c = Ok al''
    /\ (MemoryAllocator.allocations al'' = MemoryAllocator.allocations al
        \/ exists memory_ flags type,
             MemoryAllocator.allocations al''
             = MemoryAllocator.allocations al
               ++ [MemoryAllocation.new memory_ flags
                     (AllocationChunkSize (size requirements)) type]).
Proof.
  intros Hinv Hne Hsize Hal (flags & al0 & _ & Hal0 & Htry)%Commit_cases.
  assert (H0 : allocator_inv al0
               /\ Forall (fun b => ranges_nonempty (MemoryAllocation.commits b))
                    (MemoryAllocator.allocations al0)).
  { destruct Hal0 as [-> | (type & memory_ & _ & _ & ->)]; [done |].
    split.
    - apply allocator_inv_grown; [done |]. apply AllocationChunkSize_bound. lia.
    - simpl. apply Forall_app_2; [done |]. apply Forall_singleton. simpl.
      apply Forall_nil_2. }
  destruct H0 as [Hinv0 Hne0].
  destruct (TryCommit_hit _ _ _ _ _ Htry) as (n & blk & blk' & Hn & Hcommit & Hptr & ->).
  pose proof (proj1 (Forall_lookup _ _) Hinv0 n blk Hn) as [HA Hblk].
  pose proof (proj1 (Forall_lookup _ _) Hne0 n blk Hn) as Hblkne.
  assert (Hfree : MemoryAllocation.Free blk' (fst (mc_interval c)) = Ok blk).
  { apply (Commit_then_Free n blk (size requirements) (alignment requirements) c blk');
      try done; [unfold is_u64 | ]; lia. }
  exists al0. split.
  - unfold release_commit, MemoryCommit_destroy, MemoryCommit_Release, get_obj. simpl.
    rewrite lookup_singleton_eq. simpl. rewrite Hptr.
    unfold free_in. simpl.
    rewrite list_lookup_insert_eq by (by eapply lookup_lt_Some).
    rewrite Hfree. simpl.
    rewrite list_insert_insert_eq, (list_insert_id _ n blk) by done.
    by destruct al0.
  - destruct Hal0 as [-> | (type & memory_ & _ & _ & ->)]; [by left |].
    right. by exists memory_, flags, type.
Qed.

(** X13. A handle returned by [Commit] and released at once gives the
    blocks back as they were: the commit lists are those before the call,
    the only trace left being the empty block a miss has added.  The size
    is positive and every range held is non-empty, so that no two ranges
    of a block begin at the same offset. *)
Theorem Commit_release_round_trip al requirements usage c al' :
  allocator_inv al ->
  Forall (fun b => ranges_nonempty (MemoryAllocation.commits b))
         (MemoryAllocator.allocations al) ->
  0 < size requirements <= 2 ^ 63 - 2 ^ 22 ->
  is_u64 (alignment requirements) ->
  MemoryAllocator.Commit al requirements usage = Ok (c, al') ->
  exists al'',
    release_commit al' c = Ok al''
    /\ (MemoryAllocator.allocations al'' = MemoryAllocator.allocations al
        \/ exists memory_ flags type,
             MemoryAllocator.allocations al''
             = MemoryAllocator.allocations al
               ++ [MemoryAllocation.new memory_ flags
                     (AllocationChunkSize (size requirements)) type]).
Proof. apply Commit_then_release. Qed.

Lemma Commit_release_round_trip_witness :
  let al := MemoryAllocator.set_allocations
              (MemoryAllocator.new (mkDevice [1] (fun _ _ => Some 7)))
              [MemoryAllocation.mk 5 4096 1 1 [mkRange 0 100; mkRange 256 300]] in
  let requirements := mkRequirements 100 16 1 in
  let c := mkMemoryCommit (Some 0%nat) 5 (112, 212) None in
  let al' := MemoryAllocator.set_allocations al
               [MemoryAllocation.mk 5 4096 1 1
                  [mkRange 0 100; mkRange 112 212; mkRange 256 300]] in
  exists al'',
    release_commit al' c = Ok al''
    /\ (MemoryAllocator.allocations al'' = MemoryAllocator.allocations al
        \/ exists memory_ flags type,
             MemoryAllocator.allocations al''
             = MemoryAllocator.allocations al
               ++ [MemoryAllocation.new memory_ flags
                     (AllocationChunkSize (size requirements)) type]).
Proof.
  intros al requirements c al'.
  apply (Commit_release_round_trip al requirements DeviceLocal c al').
  - unfold allocator_inv. simpl. apply Forall_singleton. simpl.
    split; [lia |]. apply example_block_inv.
  - simpl. apply Forall_singleton. simpl. apply example_block_nonempty.
  - simpl. lia.
  - by vm_compute.
  - reflexivity.
Defined.

(** ** Usages *)

(** X14. [IsHostVisible] agrees with the flags of the usage: it answers
    whether [MemoryUsagePropertyFlags] has the host-visible bit.  Every
    host-visible usage is host-coherent and not device-local, the other
    one is device-local only, and no usage has empty flags. *)
Theorem IsHostVisible_agrees_with_flags usage :
  let flags := MemoryUsagePropertyFlags usage in
  IsHostVisible usage = nonzero (Z.land flags VK_MEMORY_PROPERTY_HOST_VISIBLE_BIT)
  /\ IsHostVisible usage
     = nonzero (Z.land flags VK_MEMORY_PROPERTY_HOST_COHERENT_BIT)
  /\ IsHostVisible usage
     = negb (nonzero (Z.land flags VK_MEMORY_PROPERTY_DEVICE_LOCAL_BIT))
  /\ flags <> 0 /\ is_u32 flags.
Proof. by destruct usage; vm_compute. Qed.

(** ** Host mappings *)

Lemma MemoryAllocation_Map_spec map_memory m :
  mapping_ok m ->
  (span_is_empty (memory_mapped_span m) = true ->
   is_Some (map_memory (MemoryAllocation.memory (ma_allocation m)) 0
              (MemoryAllocation.allocation_size (ma_allocation m)))) ->
  exists base calls,
    MemoryAllocation_Map map_memory m
    = Ok ((base, MemoryAllocation.allocation_size (ma_allocation m)),
          {| ma_allocation := ma_allocation m;
             memory_mapped_span :=
               (base, MemoryAllocation.allocation_size (ma_allocation m)) |},
          calls)
    /\ (span_is_empty (memory_mapped_span m) = false ->
        base = fst (memory_mapped_span m) /\ calls = [])
    /\ (length calls <= 1)%nat.
Proof.
  intros Hok Hdrv. unfold MemoryAllocation_Map.
  destruct (span_is_empty (memory_mapped_span m)) eqn:He.
  - destruct (Hdrv eq_refl) as [raw_pointer ->]. simpl.
    eexists raw_pointer, _. split; [done |]. split; [done | simpl; lia].
  - destruct Hok as [? | Hsz]; [congruence |].
    destruct m as [a [base sz]]. simpl in *. subst sz.
    exists base, []. split; [done |]. split; [done | simpl; lia].
Qed.

Lemma subspan_inside base A b e :
  0 <= b <= e -> e <= A -> A < 2 ^ 63 ->
  subspan (base, A) b (wrap64 (e - b)) = Ok (base + b, e - b).
Proof.
  intros Hbe HeA HA. unfold subspan. simpl.
  rewrite (wrap64_small (e - b)) by (unfold is_u64; lia).
  rewrite (proj2 (Z.ltb_ge _ _)) by lia.
  rewrite (proj2 (Z.eqb_neq _ _)) by lia.
  by rewrite (proj2 (Z.ltb_ge _ _)) by lia.
Qed.

(** X15. [MemoryAllocation::Map] maps a block at most once: the first
    call asks the driver for the whole block, from offset 0, and keeps
    the span; a call on a mapped block returns the kept span and asks for
    nothing.  It fails only when the driver does.  (A span of no bytes
    counts as not mapped, so the mapping of a block of size 0 is never
    kept.) *)
Theorem MemoryAllocation_Map_maps_once map_memory m :
  mapping_ok m ->
  match MemoryAllocation_Map map_memory m with
  | Ok (mapped, m', calls) =>
      ma_allocation m' = ma_allocation m
      /\ memory_mapped_span m' = mapped
      /\ snd mapped = MemoryAllocation.allocation_size (ma_allocation m)
      /\ (span_is_empty (memory_mapped_span m) = false -> m' = m /\ calls = [])
      /\ (span_is_empty (memory_mapped_span m) = true ->
          map_memory (MemoryAllocation.memory (ma_allocation m)) 0
            (MemoryAllocation.allocation_size (ma_allocation m)) = Some (fst mapped)
          /\ calls = [(MemoryAllocation.memory (ma_allocation m), 0,
                       MemoryAllocation.allocation_size (ma_allocation m))])
      /\ (MemoryAllocation.allocation_size (ma_allocation m) <> 0 ->
          MemoryAllocation_Map map_memory m' = Ok (mapped, m', []))
  | Err e =>
      e = DeviceFailure
      /\ span_is_empty (memory_mapped_span m) = true
      /\ map_memory (MemoryAllocation.memory (ma_allocation m)) 0
           (MemoryAllocation.allocation_size (ma_allocation m)) = None
  end.
Proof.
  intros Hok. unfold MemoryAllocation_Map.
  destruct (span_is_empty (memory_mapped_span m)) eqn:He.
  - destruct (map_memory _ _ _) as [raw_pointer |] eqn:Hdrv; [| done]. simpl.
    split; [done |]. split; [done |]. split; [done |].
    split; [done |]. split; [done |].
    intros HA. unfold span_is_empty. simpl.
    by rewrite (proj2 (Z.eqb_neq _ _) HA).
  - destruct Hok as [? | Hsz]; [congruence |].
    split; [done |]. split; [done |]. split; [done |].
    split; [done |]. split; [done |].
    intros _. by rewrite He.
Qed.

Lemma MemoryAllocation_Map_maps_once_witness :
  let m := mkMapped (MemoryAllocation.mk 5 4096 1 1 []) (0, 0) in
  match MemoryAllocation_Map (fun _ _ _ => Some 65536) m with
  | Ok (mapped, m', calls) =>
      ma_allocation m' = ma_allocation m
      /\ memory_mapped_span m' = mapped
      /\ snd mapped = MemoryAllocation.allocation_size (ma_allocation m)
      /\ (span_is_empty (memory_mapped_span m) = false -> m' = m /\ calls = [])
      /\ (span_is_empty (memory_mapped_span m) = true ->
          (fun _ _ _ : Z => Some 65536)
            (MemoryAllocation.memory (ma_allocation m)) 0
            (MemoryAllocation.allocation_size (ma_allocation m)) = Some (fst mapped)
          /\ calls = [(MemoryAllocation.memory (ma_allocation m), 0,
                       MemoryAllocation.allocation_size (ma_allocation m))])
      /\ (MemoryAllocation.allocation_size (ma_allocation m) <> 0 ->
          MemoryAllocation_Map (fun _ _ _ => Some 65536) m' = Ok (mapped, m', []))
  | Err e =>
      e = DeviceFailure
      /\ span_is_empty (memory_mapped_span m) = true
      /\ (fun _ _ _ : Z => Some 65536)
           (MemoryAllocation.memory (ma_allocation m)) 0
           (MemoryAllocation.allocation_size (ma_allocation m)) = None
  end.
Proof.
  intros m.
  apply (MemoryAllocation_Map_maps_once (fun _ _ _ => Some 65536) m).
  by left.
Defined.

Lemma MemoryCommit_Map_spec map_memory mapped_blocks c p m :
  mc_allocation c = Some p ->
  mapped_blocks !! p = Some m ->
  span_is_empty (commit_span c) = true ->
  mapping_ok m ->
  (span_is_empty (memory_mapped_span m) = true ->
   is_Some (map_memory (MemoryAllocation.memory (ma_allocation m)) 0
              (MemoryAllocation.allocation_size (ma_allocation m)))) ->
  0 <= fst (mc_interval c) <= snd (mc_interval c) ->
  snd (mc_interval c) <= MemoryAllocation.allocation_size (ma_allocation m) ->
  MemoryAllocation.allocation_size (ma_allocation m) < 2 ^ 63 ->
  exists base calls,
    MemoryCommit_Map map_memory mapped_blocks c
    = Ok (view_at base c, set_span (Some (view_at base c)) c,
          <[p := {| ma_allocation := ma_allocation m;
                    memory_mapped_span :=
                      (base, MemoryAllocation.allocation_size (ma_allocation m)) |}]>
            mapped_blocks,
          calls)
    /\ (span_is_empty (memory_mapped_span m) = false ->
        base = fst (memory_mapped_span m) /\ calls = [])
    /\ (length calls <= 1)%nat.
Proof.
  intros Hp Hm Hempty Hok Hdrv Hbe HeA HA.
  destruct (MemoryAllocation_Map_spec map_memory m Hok Hdrv)
    as (base & calls & Hmap & Hkept & Hlen).
  exists base, calls. split; [| done].
  unfold MemoryCommit_Map. rewrite Hempty, Hp, Hm, Hmap. simpl.
  by rewrite (subspan_inside base _ _ _ Hbe HeA HA).
Qed.

(** X16. [MemoryCommit::Map] on a handle not yet mapped, whose range lies
    in its block: the view is the block's mapping narrowed to the range
    (it starts [begin] bytes into the mapping, is [end - begin] bytes long
    and lies inside the mapping); the handle keeps it; the driver is asked
    at most once, and not at all when the block is already mapped; no
    other block is touched.  A second [Map] of a non-empty range returns
    the same view and touches nothing. *)
Theorem MemoryCommit_Map_view map_memory mapped_blocks c p m :
  mc_allocation c = Some p ->
  mapped_blocks !! p = Some m ->
  mc_span c = None ->
  mapping_ok m ->
  (span_is_empty (memory_mapped_span m) = true ->
   is_Some (map_memory (MemoryAllocation.memory (ma_allocation m)) 0
              (MemoryAllocation.allocation_size (ma_allocation m)))) ->
  0 <= fst (mc_interval c) <= snd (mc_interval c) ->
  snd (mc_interval c) <= MemoryAllocation.allocation_size (ma_allocation m) ->
  MemoryAllocation.allocation_size (ma_allocation m) < 2 ^ 63 ->
  exists base calls mapped_blocks',
    let view := view_at base c in
    let c' := set_span (Some view) c in
    MemoryCommit_Map map_memory mapped_blocks c = Ok (view, c', mapped_blocks', calls)
    /\ (exists m', mapped_blocks' !! p = Some m'
                   /\ ma_allocation m' = ma_allocation m
                   /\ memory_mapped_span m'
                      = (base, MemoryAllocation.allocation_size (ma_allocation m)))
    /\ (forall q, q <> p -> mapped_blocks' !! q = mapped_blocks !! q)
    /\ base <= fst view
    /\ fst view + snd view
       <= base + MemoryAllocation.allocation_size (ma_allocation m)
    /\ (length calls <= 1)%nat
    /\ (span_is_empty (memory_mapped_span m) = false ->
        base = fst (memory_mapped_span m) /\ calls = [])
    /\ (fst (mc_interval c) < snd (mc_interval c) ->
        MemoryCommit_Map map_memory mapped_blocks' c'
        = Ok (view, c', mapped_blocks', [])).
Proof.
  intros Hp Hm Hspan Hok Hdrv Hbe HeA HA.
  assert (Hempty : span_is_empty (commit_span c) = true).
  { unfold commit_span. by rewrite Hspan. }
  destruct (MemoryCommit_Map_spec map_memory mapped_blocks c p m
              Hp Hm Hempty Hok Hdrv Hbe HeA HA)
    as (base & calls & Hmap & Hkept & Hlen).
  exists base, calls. eexists. simpl.
  split; [exact Hmap |].
  split.
  { eexists. rewrite list_lookup_insert_eq by (by eapply lookup_lt_Some). done. }
  split; [intros q Hq; by rewrite list_lookup_insert_ne |].
  unfold view_at. simpl.
  split; [lia |]. split; [lia |]. split; [done |]. split; [done |].
  intros Hlt. unfold MemoryCommit_Map, commit_span, span_is_empty. simpl.
  by rewrite (proj2 (Z.eqb_neq _ _)) by lia.
Qed.

Lemma MemoryCommit_Map_view_witness :
  let map_memory := fun _ _ _ : Z => Some 65536 in
  let m := mkMapped (MemoryAllocation.mk 5 4096 1 1 [mkRange 64 164]) (0, 0) in
  let c := mkMemoryCommit (Some 0%nat) 5 (64, 164) None in
  exists base calls mapped_blocks',
    let view := view_at base c in
    let c' := set_span (Some view) c in
    MemoryCommit_Map map_memory [m] c = Ok (view, c', mapped_blocks', calls)
    /\ (exists m', mapped_blocks' !! 0%nat = Some m'
                   /\ ma_allocation m' = ma_allocation m
                   /\ memory_mapped_span m'
                      = (base, MemoryAllocation.allocation_size (ma_allocation m)))
    /\ (forall q, q <> 0%nat -> mapped_blocks' !! q = [m] !! q)
    /\ base <= fst view
    /\ fst view + snd view
       <= base + MemoryAllocation.allocation_size (ma_allocation m)
    /\ (length calls <= 1)%nat
    /\ (span_is_empty (memory_mapped_span m) = false ->
        base = fst (memory_mapped_span m) /\ calls = [])
    /\ (fst (mc_interval c) < snd (mc_interval c) ->
        MemoryCommit_Map map_memory mapped_blocks' c'
        = Ok (view, c', mapped_blocks', [])).
Proof.
  intros map_memory m c.
  apply (MemoryCommit_Map_view map_memory [m] c 0%nat m).
  - reflexivity.
  - reflexivity.
  - reflexivity.
  - by left.
  - intros _. by eexists.
  - simpl. lia.
  - simpl. lia.
  - simpl. lia.
Defined.

(** X17. Two handles of one block whose ranges are non-empty and do not
    overlap, mapped one after the other, get views that do not overlap in
    host memory: the block is mapped by the first [Map] at the latest, the
    second [Map] asks the driver for nothing, and each view is as long as
    its range. *)
Theorem mapped_views_disjoint map_memory mapped_blocks p m c1 c2 :
  mc_allocation c1 = Some p -> mc_allocation c2 = Some p ->
  mc_span c1 = None -> mc_span c2 = None ->
  mapped_blocks !! p = Some m ->
  mapping_ok m ->
  (span_is_empty (memory_mapped_span m) = true ->
   is_Some (map_memory (MemoryAllocation.memory (ma_allocation m)) 0
              (MemoryAllocation.allocation_size (ma_allocation m)))) ->
  MemoryAllocation.allocation_size (ma_allocation m) < 2 ^ 63 ->
  0 <= fst (mc_interval c1) < snd (mc_interval c1) ->
  snd (mc_interval c1) <= MemoryAllocation.allocation_size (ma_allocation m) ->
  0 <= fst (mc_interval c2) < snd (mc_interval c2) ->
  snd (mc_interval c2) <= MemoryAllocation.allocation_size (ma_allocation m) ->
  ~ overlap {| r_begin := fst (mc_interval c1); r_end := snd (mc_interval c1) |}
            {| r_begin := fst (mc_interval c2); r_end := snd (mc_interval c2) |} ->
  exists v1 c1' blocks1 calls1 v2 c2' blocks2,
    MemoryCommit_Map map_memory mapped_blocks c1 = Ok (v1, c1', blocks1, calls1)
    /\ MemoryCommit_Map map_memory blocks1 c2 = Ok (v2, c2', blocks2, [])
    /\ snd v1 = snd (mc_interval c1) - fst (mc_interval c1)
    /\ snd v2 = snd (mc_interval c2) - fst (mc_interval c2)
    /\ fst v2 - fst v1 = fst (mc_interval c2) - fst (mc_interval c1)
    /\ (fst v1 + snd v1 <= fst v2 \/ fst v2 + snd v2 <= fst v1).
Proof.
  intros Hp1 Hp2 Hs1 Hs2 Hm Hok Hdrv HA Hc1 Hc1A Hc2 Hc2A Hdis.
  assert (He1 : span_is_empty (commit_span c1) = true).
  { unfold commit_span. by rewrite Hs1. }
  assert (He2 : span_is_empty (commit_span c2) = true).
  { unfold commit_span. by rewrite Hs2. }
  destruct (MemoryCommit_Map_spec map_memory mapped_blocks c1 p m
              Hp1 Hm He1 Hok Hdrv ltac:(lia) Hc1A HA)
    as (base & calls1 & Hmap1 & _ & _).
  set (m1 := {| ma_allocation := ma_allocation m;
                memory_mapped_span :=
                  (base, MemoryAllocation.allocation_size (ma_allocation m)) |}) in *.
  assert (Hm1 : <[p := m1]> mapped_blocks !! p = Some m1).
  { rewrite list_lookup_insert_eq by (by eapply lookup_lt_Some). done. }
  assert (Hmapped : span_is_empty (memory_mapped_span m1) = false).
  { unfold span_is_empty. simpl. apply Z.eqb_neq. lia. }
  destruct (MemoryCommit_Map_spec map_memory (<[p := m1]> mapped_blocks) c2 p m1
              Hp2 Hm1 He2 ltac:(by right) ltac:(intros; congruence)
              ltac:(lia) Hc2A HA)
    as (base2 & calls2 & Hmap2 & Hkept & _).
  destruct (Hkept Hmapped) as [-> ->]. simpl in Hmap2.
  do 7 eexists.
  split; [exact Hmap1 |]. split; [exact Hmap2 |].
  unfold view_at, overlap in *. simpl in *.
  split; [done |]. split; [done |]. split; [lia |]. lia.
Qed.

Lemma mapped_views_disjoint_witness :
  let map_memory := fun _ _ _ : Z => Some 65536 in
  let m := mkMapped (MemoryAllocation.mk 5 4096 1 1 [mkRange 0 64; mkRange 64 164])
             (0, 0) in
  let c1 := mkMemoryCommit (Some 0%nat) 5 (0, 64) None in
  let c2 := mkMemoryCommit (Some 0%nat) 5 (64, 164) None in
  exists v1 c1' blocks1 calls1 v2 c2' blocks2,
    MemoryCommit_Map map_memory [m] c1 = Ok (v1, c1', blocks1, calls1)
    /\ MemoryCommit_Map map_memory blocks1 c2 = Ok (v2, c2', blocks2, [])
    /\ snd v1 = snd (mc_interval c1) - fst (mc_interval c1)
    /\ snd v2 = snd (mc_interval c2) - fst (mc_interval c2)
    /\ fst v2 - fst v1 = fst (mc_interval c2) - fst (mc_interval c1)
    /\ (fst v1 + snd v1 <= fst v2 \/ fst v2 + snd v2 <= fst v1).
Proof.
  intros map_memory m c1 c2.
  apply (mapped_views_disjoint map_memory [m] 0%nat m c1 c2).
  - reflexivity.
  - reflexivity.
  - reflexivity.
  - reflexivity.
  - reflexivity.
  - by left.
  - intros _. by eexists.
  - simpl. lia.
  - simpl. lia.
  - simpl. lia.
  - simpl. lia.
  - simpl. lia.
  - unfold overlap. simpl. lia.
Defined.

(** ** Handles over the blocks: what moves and destructions keep *)

Lemma block_shrunk_refl b : block_shrunk b b.
Proof. split; [by repeat split | reflexivity]. Qed.

Lemma block_shrunk_trans a b c :
  block_shrunk a b -> block_shrunk b c -> block_shrunk a c.
Proof.
  intros [(? & ? & ? & ?) ?] [(? & ? & ? & ?) ?].
  split; [repeat split; congruence | by etrans].
Qed.

Lemma Forall2_block_shrunk_refl bl : Forall2 block_shrunk bl bl.
Proof. apply Forall_Forall2_diag, Forall_true, block_shrunk_refl. Qed.

Lemma Free_shrinks a begin a' :
  MemoryAllocation.Free a begin = Ok a' ->
  block_shrunk a a'
  /\ S (length (MemoryAllocation.commits a')) = length (MemoryAllocation.commits a)
  /\ (block_inv (MemoryAllocation.allocation_size a) (MemoryAllocation.commits a) ->
      block_inv (MemoryAllocation.allocation_size a') (MemoryAllocation.commits a')).
Proof.
  unfold MemoryAllocation.Free.
  destruct (MemoryAllocation.erase_first begin (MemoryAllocation.commits a))
    as [l' |] eqn:E; [| done].
  intros [= <-]. simpl.
  split; [| split].
  - split; [by repeat split |]. simpl.
    apply erase_first_spec in E as (l1 & r & l2 & -> & -> & _).
    apply sublist_app; [reflexivity |]. apply sublist_cons. reflexivity.
  - apply erase_first_spec in E as (l1 & r & l2 & -> & -> & _).
    rewrite !length_app. simpl. lia.
  - intros H. by eapply block_inv_erase.
Qed.

Lemma total_ranges_insert bl :
  forall p blk blk',
    bl !! p = Some blk ->
    (total_ranges (<[p := blk']> bl) + length (MemoryAllocation.commits blk)
     = total_ranges bl + length (MemoryAllocation.commits blk'))%nat.
Proof.
  induction bl as [| b bl IH]; intros [| p] blk blk'; simpl; try done.
  - intros [= ->]. lia.
  - intros H. specialize (IH p blk blk' H). lia.
Qed.

Lemma Release_blocks this s s1 :
  MemoryCommit_Release this s = Ok s1 ->
  Forall2 block_shrunk (blocks s) (blocks s1)
  /\ (total_ranges (blocks s1) + length (free_trace s1)
      = total_ranges (blocks s) + length (free_trace s))%nat
  /\ (blocks_inv (blocks s) -> blocks_inv (blocks s1)).
Proof.
  unfold MemoryCommit_Release, get_obj.
  destruct (objects s !! this) as [c |]; [| done]. simpl.
  destruct (mc_allocation c) as [p |].
  - unfold free_in. destruct (blocks s !! p) as [blk |] eqn:Hblk; [| done].
    destruct (MemoryAllocation.Free blk (fst (mc_interval c)))
      as [blk' | e] eqn:Hfree; [| done].
    simpl. intros [= <-]. simpl.
    destruct (Free_shrinks _ _ _ Hfree) as (Hshr & Hlen & Hinv).
    split; [| split].
    + assert (E : Forall2 block_shrunk (<[p := blk]> (blocks s))
                    (<[p := blk']> (blocks s))).
      { apply Forall2_insert; [apply Forall2_block_shrunk_refl | done]. }
      by rewrite (list_insert_id (blocks s) p blk) in E.
    + pose proof (total_ranges_insert (blocks s) p blk blk' Hblk).
      rewrite length_app. simpl. lia.
    + intros H. apply Forall_insert; [done |]. apply Hinv.
      by apply (proj1 (Forall_lookup _ _) H p blk).
  - intros [= <-]. split; [apply Forall2_block_shrunk_refl | done].
Qed.

Lemma commit_step_blocks op s s' :
  op_distinct op -> commit_step op s = Ok s' ->
  Forall2 block_shrunk (blocks s) (blocks s')
  /\ (total_ranges (blocks s') + length (free_trace s')
      = total_ranges (blocks s) + length (free_trace s))%nat
  /\ (blocks_inv (blocks s) -> blocks_inv (blocks s')).
Proof.
  destruct op as [this rhs | this rhs | this]; simpl; intros Hop H.
  - apply move_construct_spec in H as (r & _ & _ & Hb & Ht & _). rewrite Hb, Ht.
    split; [apply Forall2_block_shrunk_refl | done].
  - apply move_assign_spec in H as (s1 & t & r & Hrel & Ht & _ & Hb & Htr & _);
      [| done].
    destruct (Release_spec _ _ _ Hrel) as (c & Hc & _ & Htr1 & _).
    assert (c = t) as -> by congruence.
    rewrite Hb, Htr, <- Htr1. by eapply Release_blocks.
  - apply destroy_spec in H as (s1 & c & Hrel & Hc & Hb & Htr & _).
    destruct (Release_spec _ _ _ Hrel) as (c' & Hc' & _ & Htr1 & _).
    assert (c' = c) as -> by congruence.
    rewrite Hb, Htr, <- Htr1. by eapply Release_blocks.
Qed.

Lemma example_store_backed : backed example_store.
Proof.
  intros a p b (c & Hc & Hk). simpl in Hc.
  apply lookup_insert_Some in Hc as [[<- <-] | [_ Hc]].
  - injection Hk as <- <-. eexists _, (mkRange 0 64). simpl.
    split; [done |]. split; [by left | done].
  - apply lookup_singleton_Some in Hc as [<- <-].
    injection Hk as <- <-. eexists _, (mkRange 64 128). simpl.
    split; [done |]. split; [right; by left | done].
Qed.

Lemma example_store_handles_inv : handles_inv example_store.
Proof.
  split; [apply example_store_unique | apply NoDup_nil_2 |].
  intros k a Hk. simpl in Hk. by apply elem_of_nil in Hk.
Qed.

Lemma example_store_blocks_inv : blocks_inv (blocks example_store).
Proof.
  apply Forall_singleton. split; simpl.
  - repeat constructor; unfold begin_le; simpl; lia.
  - repeat constructor; simpl; lia.
  - repeat split; repeat constructor; unfold overlap; simpl; lia.
Qed.

(** X18. Over any sequence of move constructions, move assignments
    between two objects, and destructions that runs to its end, started
    where no two handles hold the same range and every held range is
    stored in its block: both facts still hold at the end; the blocks are
    the same blocks, each holding a sub-list of the ranges it held, still
    sorted and free of overlaps; and the ranges gone are as many as the
    [Free] calls made, one range per call. *)
Theorem commit_run_keeps_invariants ops s s' :
  handles_inv s -> backed s -> blocks_inv (blocks s) ->
  Forall op_distinct ops ->
  commit_run ops s = Ok s' ->
  handles_inv s' /\ backed s' /\ blocks_inv (blocks s')
  /\ Forall2 block_shrunk (blocks s) (blocks s')
  /\ (total_ranges (blocks s') + length (free_trace s')
      = total_ranges (blocks s) + length (free_trace s))%nat.
Proof.
  revert s. induction ops as [| op ops IH]; intros s Hh Hb Hi Hops; simpl.
  - intros [= <-]. split; [done |]. split; [done |]. split; [done |].
    split; [apply Forall2_block_shrunk_refl | done].
  - apply Forall_cons in Hops as [Hop Hops].
    destruct (commit_step op s) as [s1 | e] eqn:Hstep; [| done]. simpl.
    intros Hrun.
    destruct (commit_step_blocks op s s1 Hop Hstep) as (Hshr & Hcount & Hinv).
    destruct (IH s1 (handles_inv_step op s s1 Hh Hop Hstep)
                (backed_step op s s1 Hh Hb Hop Hstep) (Hinv Hi) Hops Hrun)
      as (Hh' & Hb' & Hi' & Hshr' & Hcount').
    split; [done |]. split; [done |]. split; [done |].
    split; [| lia].
    eapply Forall2_trans; [| exact Hshr | exact Hshr'].
    intros x y z. apply block_shrunk_trans.
Qed.

Lemma commit_run_keeps_invariants_witness :
  exists s',
    commit_run [MoveConstruct 2 0; MoveAssign 1 2; Destroy 0; Destroy 2; Destroy 1]
      example_store = Ok s'
    /\ handles_inv s' /\ backed s' /\ blocks_inv (blocks s')
    /\ Forall2 block_shrunk (blocks example_store) (blocks s')
    /\ (total_ranges (blocks s') + length (free_trace s')
        = total_ranges (blocks example_store) + length (free_trace example_store))%nat.
Proof.
  destruct (commit_run [MoveConstruct 2 0; MoveAssign 1 2; Destroy 0; Destroy 2; Destroy 1]
              example_store) as [s' | e] eqn:E; [| by vm_compute in E].
  exists s'. split; [done |].
  apply (commit_run_keeps_invariants
           [MoveConstruct 2 0; MoveAssign 1 2; Destroy 0; Destroy 2; Destroy 1]
           example_store s');
    [apply example_store_handles_inv | apply example_store_backed
     | apply example_store_blocks_inv | | done].
  repeat constructor; simpl; lia.
Defined.

(** ** AllocMemory after the flag resolution *)

(** X19. With the flags the flag resolution has answered, [AllocMemory]
    finds its memory type: it fails only when the driver does, and the
    block it appends is empty, of the size asked, and compatible with
    those flags and that type mask. *)
Theorem AllocMemory_after_flag_resolution al type_mask usage flags size_ :
  MemoryAllocator.MemoryPropertyFlags_usage al type_mask usage = Ok flags ->
  match MemoryAllocator.AllocMemory al flags type_mask size_ with
  | Ok al' =>
      exists blk,
        MemoryAllocator.allocations al' = MemoryAllocator.allocations al ++ [blk]
        /\ MemoryAllocation.IsCompatible blk flags type_mask = true
        /\ MemoryAllocation.allocation_size blk = size_
        /\ MemoryAllocation.property_flags blk = flags
        /\ MemoryAllocation.commits blk = []
  | Err e => e = DeviceFailure
  end.
Proof.
  intros [type Htype]%MemoryPropertyFlags_found.
  unfold MemoryAllocator.AllocMemory. rewrite Htype.
  destruct (AllocateMemory (MemoryAllocator.device al) size_ type) as [memory_ |];
    [| done].
  eexists. split; [done |].
  split; [by eapply FindType_compatible | done].
Qed.

Lemma AllocMemory_after_flag_resolution_witness :
  let al := MemoryAllocator.new (mkDevice [1] (fun _ _ => Some 7)) in
  match MemoryAllocator.AllocMemory al 1 1 4194304 with
  | Ok al' =>
      exists blk,
        MemoryAllocator.allocations al' = MemoryAllocator.allocations al ++ [blk]
        /\ MemoryAllocation.IsCompatible blk 1 1 = true
        /\ MemoryAllocation.allocation_size blk = 4194304
        /\ MemoryAllocation.property_flags blk = 1
        /\ MemoryAllocation.commits blk = []
  | Err e => e = DeviceFailure
  end.
Proof.
  intros al.
  apply (AllocMemory_after_flag_resolution al 1 DeviceLocal 1 4194304).
  reflexivity.
Defined.

(** ** Commit for a buffer or an image *)

(** X20. When [Commit(buffer, usage)] or [Commit(image, usage)] returns,
    the resource was bound, once, to the memory of the block the handle
    names, at the begin of the handle's range: an offset aligned as the
    resource requires, with the resource's size inside the block.  The
    blocks keep their invariant. *)
Theorem Commit_resource_binds_in_block al resource usage c al' call :
  allocator_inv al ->
  0 <= size (GetMemoryRequirements resource) <= 2 ^ 63 - 2 ^ 22 ->
  is_u64 (alignment (GetMemoryRequirements resource)) ->
  MemoryAllocator_Commit_resource al resource usage = Ok (Bound c al' call) ->
  allocator_inv al'
  /\ BindMemory resource (fst call) (snd call) = true
  /\ exists n blk,
       mc_allocation c = Some n
       /\ MemoryAllocator.allocations al' !! n = Some blk
       /\ fst call = MemoryAllocation.memory blk
       /\ {| r_begin := snd call; r_end := snd call + size (GetMemoryRequirements resource) |}
            ∈ MemoryAllocation.commits blk
       /\ snd call mod alignment (GetMemoryRequirements resource) = 0
       /\ 0 <= snd call
       /\ snd call + size (GetMemoryRequirements resource)
          <= MemoryAllocation.allocation_size blk.
Proof.
  intros Hinv Hsize Hal. unfold MemoryAllocator_Commit_resource.
  destruct (MemoryAllocator.Commit al (GetMemoryRequirements resource) usage)
    as [[c0 al0] | e] eqn:Hcommit; [| done]. simpl.
  destruct (BindMemory resource (MemoryCommit_Memory c0) (MemoryCommit_Offset c0))
    eqn:Hbind.
  - intros [= <- <- <-]. simpl.
    apply Commit_cases in Hcommit as (flags & al1 & _ & Hal1 & Htry).
    destruct (allocator_inv_TryCommit al1 (GetMemoryRequirements resource) flags c0 al0)
      as (Hinv' & n & blk & Hn & Hblk & Hmem & Hin & Hmod & H0 & Hend & Hcap & _);
      try done.
    { destruct Hal1 as [-> | (type & memory_ & _ & _ & ->)]; [done |].
      apply allocator_inv_grown; [done |]. by apply AllocationChunkSize_bound. }
    { unfold is_u64. lia. }
    split; [done |]. split; [done |].
    exists n, blk. unfold MemoryCommit_Memory, MemoryCommit_Offset.
    rewrite <- Hend.
    split; [done |]. split; [done |]. split; [done |]. split; [done |].
    split; [done |]. split; [done | lia].
  - destruct (release_commit al0 c0); [| done]. done.
Qed.

Lemma Commit_resource_binds_in_block_witness :
  let al := MemoryAllocator.set_allocations
              (MemoryAllocator.new (mkDevice [1] (fun _ _ => Some 7)))
              [MemoryAllocation.mk 5 4096 1 1 [mkRange 0 100; mkRange 256 300]] in
  let resource := mkResource (mkRequirements 100 16 1) (fun _ _ => true) in
  let c := mkMemoryCommit (Some 0%nat) 5 (112, 212) None in
  let al' := MemoryAllocator.set_allocations al
               [MemoryAllocation.mk 5 4096 1 1
                  [mkRange 0 100; mkRange 112 212; mkRange 256 300]] in
  let call := (5, 112) in
  allocator_inv al'
  /\ BindMemory resource (fst call) (snd call) = true
  /\ exists n blk,
       mc_allocation c = Some n
       /\ MemoryAllocator.allocations al' !! n = Some blk
       /\ fst call = MemoryAllocation.memory blk
       /\ {| r_begin := snd call; r_end := snd call + size (GetMemoryRequirements resource) |}
            ∈ MemoryAllocation.commits blk
       /\ snd call mod alignment (GetMemoryRequirements resource) = 0
       /\ 0 <= snd call
       /\ snd call + size (GetMemoryRequirements resource)
          <= MemoryAllocation.allocation_size blk.
Proof.
  intros al resource c al' call.
  apply (Commit_resource_binds_in_block al resource DeviceLocal c al' call).
  - unfold allocator_inv. simpl. apply Forall_singleton. simpl.
    split; [lia |]. apply example_block_inv.
  - simpl. lia.
  - by vm_compute.
  - reflexivity.
Defined.

(** X21. When the commit is made and [BindMemory] throws, the range is
    given back on the way out: the exception leaves every block with the
    commit list it had before the call; a block that a miss has added
    stays, empty.  [BindMemory] was called once, with the memory and the
    offset of the handle. *)
Theorem Commit_resource_bind_failure_releases al resource usage c al' :
  allocator_inv al ->
  Forall (fun b => ranges_nonempty (MemoryAllocation.commits b))
         (MemoryAllocator.allocations al) ->
  0 < size (GetMemoryRequirements resource) <= 2 ^ 63 - 2 ^ 22 ->
  is_u64 (alignment (GetMemoryRequirements resource)) ->
  MemoryAllocator.Commit al (GetMemoryRequirements resource) usage = Ok (c, al') ->
  BindMemory resource (mc_memory c) (fst (mc_interval c)) = false ->
  exists al'',
    MemoryAllocator_Commit_resource al resource usage
    = Ok (BindThrew al'' (mc_memory c, fst (mc_interval c)))
    /\ (MemoryAllocator.allocations al'' = MemoryAllocator.allocations al
        \/ exists memory_ flags type,
             MemoryAllocator.allocations al''
             = MemoryAllocator.allocations al
               ++ [MemoryAllocation.new memory_ flags
                     (AllocationChunkSize (size (GetMemoryRequirements resource))) type]).
Proof.
  intros Hinv Hne Hsize Hal Hcommit Hbind.
  destruct (Commit_then_release al _ usage c al' Hinv Hne Hsize Hal Hcommit)
    as (al'' & Hrel & Hback).
  exists al''. split; [| done].
  unfold MemoryAllocator_Commit_resource. rewrite Hcommit. simpl.
  unfold MemoryCommit_Memory, MemoryCommit_Offset. rewrite Hbind, Hrel. done.
Qed.

Lemma Commit_resource_bind_failure_releases_witness :
  let al := MemoryAllocator.set_allocations
              (MemoryAllocator.new (mkDevice [1] (fun _ _ => Some 7)))
              [MemoryAllocation.mk 5 4096 1 1 [mkRange 0 100; mkRange 256 300]] in
  let resource := mkResource (mkRequirements 100 16 1) (fun _ _ => false) in
  let c := mkMemoryCommit (Some 0%nat) 5 (112, 212) None in
  exists al'',
    MemoryAllocator_Commit_resource al resource DeviceLocal
    = Ok (BindThrew al'' (mc_memory c, fst (mc_interval c)))
    /\ (MemoryAllocator.allocations al'' = MemoryAllocator.allocations al
        \/ exists memory_ flags type,
             MemoryAllocator.allocations al''
             = MemoryAllocator.allocations al
               ++ [MemoryAllocation.new memory_ flags
                     (AllocationChunkSize (size (GetMemoryRequirements resource))) type]).
Proof.
  intros al resource c.
  apply (Commit_resource_bind_failure_releases al resource DeviceLocal c
           (MemoryAllocator.set_allocations al
              [MemoryAllocation.mk 5 4096 1 1
                 [mkRange 0 100; mkRange 112 212; mkRange 256 300]])).
  - unfold allocator_inv. simpl. apply Forall_singleton. simpl.
    split; [lia |]. apply example_block_inv.
  - simpl. apply Forall_singleton. simpl. apply example_block_nonempty.
  - simpl. lia.
  - by vm_compute.
  - reflexivity.
  - reflexivity.
Defined.

(** ** Range::Contains *)

(** X22. [Range::Contains] is the intersection test of two half-open
    intervals: for a non-empty range and a positive size whose end fits
    in 64 bits, it answers true exactly when some byte lies both in the
    range and in the [size] bytes at [iterator]. *)
Theorem Contains_iff_shared_byte r iterator size :
  r_begin r < r_end r -> 0 < size -> 0 <= iterator -> iterator + size < 2 ^ 64 ->
  Contains r iterator size = true
  <-> exists x, r_begin r <= x < r_end r /\ iterator <= x < iterator + size.
Proof.
  intros Hr Hsize Hi Hfit. unfold Contains.
  rewrite (wrap64_small (iterator + size)) by (unfold is_u64; lia).
  rewrite andb_true_iff, !Z.ltb_lt. split.
  - intros [H1 H2]. exists (Z.max (r_begin r) iterator). lia.
  - intros (x & Hx1 & Hx2). lia.
Qed.

Lemma Contains_iff_shared_byte_witness :
  Contains (mkRange 64 128) 100 64 = true
  <-> exists x, 64 <= x < 128 /\ 100 <= x < 100 + 64.
Proof.
  apply (Contains_iff_shared_byte (mkRange 64 128) 100 64); simpl; lia.
Defined.
